(** * Ranked Pairs vote resolver (rpvote.py): a shallow embedding

    The development follows [src/rpvote.py]: the margins table built by
    [Contest.computemargins], the [Outcome] relation with its work-list
    [accept], the margin-ordered driver [Contest.compute] and the tally of
    [Outcome.result] / [Outcome.printresult].

    Python dicts iterate in insertion order, and that order is visible in the
    program (the order of the work list in [accept], of the facts of one
    margin level in [compute]), so a dict is an association list that keeps
    insertion order.  Python integers are unbounded: they are [Z].
    A call that can raise returns a [Py] value: [Return] or [Raise]. *)

From Stdlib Require Import List String Ascii ZArith NArith Lia Bool Arith PeanoNat Sorted.
From Stdlib Require DecimalString DecimalNat.
From Stdlib Require Import Relations.Relation_Operators.
From Stdlib Require Import Sorting.Permutation.
Import ListNotations.

Local Open Scope string_scope.
Local Open Scope list_scope.

(** ** Exceptions *)

(** The exceptions the program can raise: [Exception(msg)] raised by the
    program itself, and the built-in errors of [int], of numpy indexing and
    of dict subscripting. *)
Inductive exn : Type :=
| Exception (msg : string)
| ValueError
| IndexError
| OverflowError
| KeyError (key : string).

Inductive Py (A : Type) : Type :=
| Return (a : A)
| Raise (e : exn).

Arguments Return {A} a.
Arguments Raise {A} e.

Definition bind {A B : Type} (m : Py A) (k : A -> Py B) : Py B :=
  match m with
  | Return a => k a
  | Raise e => Raise e
  end.

Notation "x <- m ;; k" := (bind m (fun x => k))
  (at level 61, m at next level, right associativity).

Definition returned {A : Type} (m : Py A) : bool :=
  match m with Return _ => true | Raise _ => false end.

(** ** Keys with decidable equality *)

Class EqKey (K : Type) : Type := {
  keyb : K -> K -> bool;
  keyb_spec : forall a b : K, reflect (a = b) (keyb a b)
}.

Arguments keyb : simpl never.

#[export] Instance EqKey_string : EqKey string :=
  {| keyb := String.eqb; keyb_spec := String.eqb_spec |}.

#[export] Instance EqKey_Z : EqKey Z :=
  {| keyb := Z.eqb; keyb_spec := Z.eqb_spec |}.

#[export] Instance EqKey_pair {A B : Type} `{EqKey A} `{EqKey B} : EqKey (A * B).
Proof.
  refine {| keyb := fun p q => keyb (fst p) (fst q) && keyb (snd p) (snd q) |}.
  intros [a b] [c d]; simpl.
  destruct (keyb_spec a c); destruct (keyb_spec b d); simpl;
    constructor; congruence.
Defined.

(** ** Python dicts as insertion-ordered association lists *)

Abbreviation dict K V := (list (K * V)) (only parsing).

Section DictOps.
Context {K V : Type} `{EqKey K}.

(** [d.get(k)] *)
Fixpoint get (k : K) (d : dict K V) : option V :=
  match d with
  | [] => None
  | (k', v) :: d' => if keyb k k' then Some v else get k d'
  end.

(** [d[k] = v]: an existing key keeps its position, a new one goes last. *)
Fixpoint set (k : K) (v : V) (d : dict K V) : dict K V :=
  match d with
  | [] => [(k, v)]
  | (k', v') :: d' => if keyb k k' then (k', v) :: d' else (k', v') :: set k v d'
  end.

(** [list(d.keys())] *)
Definition keys (d : dict K V) : list K := map fst d.

End DictOps.

(** The truth value of a dict or of a list: the empty one is falsy. *)
Definition truthy {A : Type} (d : list A) : bool :=
  match d with [] => false | _ :: _ => true end.

(** ** Built-ins used by the program *)

(** A Python string is written as the Rocq string of the bytes of its UTF-8
    encoding, so that a character of the Python string is one byte below 128
    or a lead byte followed by its continuation bytes. *)
Definition is_continuation (b : ascii) : bool :=
  let n := nat_of_ascii b in ((128 <=? n) && (n <? 192))%nat.

(** The characters of a string, each as the bytes that encode it. *)
Fixpoint chars (l : list ascii) : list (list ascii) :=
  match l with
  | [] => []
  | b :: l' =>
      match chars l' with
      | (c :: ch) :: rest =>
          if is_continuation c then (b :: c :: ch) :: rest
          else [b] :: (c :: ch) :: rest
      | rest => [b] :: rest
      end
  end.

Definition chars_of (s : string) : list (list ascii) :=
  chars (list_ascii_of_string s).

Definition string_of_chars (cs : list (list ascii)) : string :=
  string_of_list_ascii (List.concat cs).

(** [ord(ch)]: the code point a character encodes. *)
Definition code_point (ch : list ascii) : N :=
  match ch with
  | [] => 0%N
  | b :: tl =>
      let n := N_of_ascii b in
      let lead := (if n <? 128 then n
                   else if n <? 224 then n - 192
                   else if n <? 240 then n - 224
                   else n - 240)%N in
      fold_left (fun acc c => (acc * 64 + (N_of_ascii c - 128))%N) tl lead
  end.

(** [len(s)] *)
Definition py_len (s : string) : nat := List.length (chars_of s).

(** The white space of [str.strip()], [str.split()] and [str.isspace()]. *)
Definition isspace (cp : N) : bool :=
  ((9 <=? cp) && (cp <=? 13) || (28 <=? cp) && (cp <=? 32)
   || (cp =? 133) || (cp =? 160) || (cp =? 5760)
   || (8192 <=? cp) && (cp <=? 8202)
   || (cp =? 8232) || (cp =? 8233) || (cp =? 8239) || (cp =? 8287)
   || (cp =? 12288))%N.

Definition is_space_char (ch : list ascii) : bool := isspace (code_point ch).

(** [str(n)] for a non-negative integer. *)
Definition str_of_nat (n : nat) : string := DecimalString.NilEmpty.string_of_uint (Nat.to_uint n).

(** [s.rjust(wid)]: pad with spaces on the left up to [wid] characters. *)
Definition rjust (wid : nat) (s : string) : string :=
  String.append (string_of_list_ascii (repeat " "%char (wid - py_len s))) s.

(** [int(s)].  The characters from 127 on are first replaced, white space by
    a space and a decimal digit of any script by the ASCII digit of the same
    value, and any other of them makes the conversion fail.  What is left is
    read as optional ASCII white space around an optional sign and decimal
    digits, single underscores allowed between digits; anything else is a
    [ValueError].  (The limit some versions of Python put on the number of
    digits is not modelled: no more than 4300 digits are always accepted.) *)

(** The code points of the digits zero of the scripts of Unicode 14.0; the
    ten digits of a script follow each other. *)
Definition decimal_zeros : list N :=
  [48; 1632; 1776; 1984; 2406; 2534; 2662; 2790; 2918; 3046; 3174; 3302;
   3430; 3558; 3664; 3792; 3872; 4160; 4240; 6112; 6160; 6470; 6608; 6784;
   6800; 6992; 7088; 7232; 7248; 42528; 43216; 43264; 43472; 43504; 43600;
   44016; 65296; 66720; 68912; 69734; 69872; 69942; 70096; 70384; 70736;
   70864; 71248; 71360; 71472; 71904; 72016; 72784; 73040; 73120; 92768;
   92864; 93008; 120782; 120792; 120802; 120812; 120822; 123200; 123632;
   125264; 130032]%N.

Definition decimal (cp : N) : option N :=
  match find (fun z => (z <=? cp) && (cp <? z + 10))%N decimal_zeros with
  | Some z => Some (cp - z)%N
  | None => None
  end.

Definition to_ascii_char (ch : list ascii) : option ascii :=
  let cp := code_point ch in
  if (cp <? 127)%N then Some (ascii_of_N cp)
  else if isspace cp then Some " "%char
  else option_map (fun d => ascii_of_N (48 + d)) (decimal cp).

Fixpoint to_ascii (cs : list (list ascii)) : option (list ascii) :=
  match cs with
  | [] => Some []
  | ch :: cs' =>
      match to_ascii_char ch, to_ascii cs' with
      | Some c, Some l => Some (c :: l)
      | _, _ => None
      end
  end.

(** The white space of C that [int] skips at both ends. *)
Definition c_isspace (c : ascii) : bool :=
  let n := nat_of_ascii c in
  ((9 <=? n) && (n <=? 13) || (n =? 32))%nat.

Definition digit_val (c : ascii) : option Z :=
  let n := nat_of_ascii c in
  if ((48 <=? n) && (n <=? 57))%nat then Some (Z.of_nat (n - 48)) else None.

Fixpoint lstrip (l : list ascii) : list ascii :=
  match l with
  | c :: l' => if c_isspace c then lstrip l' else l
  | [] => []
  end.

Definition strip (l : list ascii) : list ascii := rev (lstrip (rev (lstrip l))).

Fixpoint parse_digits (acc : Z) (after_digit : bool) (l : list ascii) : option Z :=
  match l with
  | [] => if after_digit then Some acc else None
  | c :: l' =>
      match digit_val c with
      | Some d => parse_digits (10 * acc + d) true l'
      | None =>
          if (Ascii.eqb c "_" && after_digit)%bool
          then parse_digits acc false l'
          else None
      end
  end.

Definition int (s : string) : Py Z :=
  match to_ascii (chars_of s) with
  | None => Raise ValueError
  | Some l =>
      let body := strip l in
      let signed :=
        match body with
        | "-"%char :: ds => option_map Z.opp (parse_digits 0 false ds)
        | "+"%char :: ds => parse_digits 0 false ds
        | ds => parse_digits 0 false ds
        end in
      match signed with
      | Some z => Return z
      | None => Raise ValueError
      end
  end.

(** [s.strip()] *)
Fixpoint lstrip_chars (cs : list (list ascii)) : list (list ascii) :=
  match cs with
  | ch :: cs' => if is_space_char ch then lstrip_chars cs' else cs
  | [] => []
  end.

Definition strip_string (s : string) : string :=
  string_of_chars (rev (lstrip_chars (rev (lstrip_chars (chars_of s))))).

(** [s.split()]: the maximal runs of characters that are not white space;
    [cur] holds the run being read, last character first. *)
Fixpoint split_runs (cur : list (list ascii)) (cs : list (list ascii))
  : list (list (list ascii)) :=
  match cs with
  | [] => if truthy cur then [rev cur] else []
  | ch :: cs' =>
      if is_space_char ch
      then (if truthy cur then rev cur :: split_runs [] cs' else split_runs [] cs')
      else split_runs (ch :: cur) cs'
  end.

Definition split_ws (s : string) : list string :=
  map string_of_chars (split_runs [] (chars_of s)).

(** [s[1:]] *)
Definition drop_first (s : string) : string :=
  string_of_chars (tl (chars_of s)).

(** [max(ls)] of a list of integers; [ValueError] on the empty list. *)
Definition max_list (ls : list Z) : Py Z :=
  match ls with
  | [] => Raise ValueError
  | x :: ls' => Return (fold_left Z.max ls' x)
  end.

(** Tuples of integers compare lexicographically. *)
Definition pair_lt (a b : Z * Z) : bool :=
  ((fst a <? fst b) || (fst a =? fst b) && (snd a <? snd b))%Z.

(** A numpy integer matrix of shape (n, n), as [np.full((n, n), 0)] makes
    it: a list of n rows of n cells. *)
Definition matrix : Type := list (list Z).

Definition np_full (n : nat) (v : Z) : matrix := repeat (repeat v n) n.

(** An index into an axis of length [n]: negative indices count from the
    end, anything outside [-n, n) is an [IndexError]. *)
Definition np_index (n : nat) (i : Z) : Py nat :=
  if ((- Z.of_nat n <=? i) && (i <? Z.of_nat n))%Z
  then Return (Z.to_nat (if (i <? 0)%Z then i + Z.of_nat n else i)%Z)
  else Raise IndexError.

Fixpoint list_update {A : Type} (i : nat) (f : A -> A) (l : list A) : list A :=
  match l, i with
  | [], _ => []
  | x :: l', O => f x :: l'
  | x :: l', S i' => x :: list_update i' f l'
  end.

(** [M[i, j] = v] on a matrix of shape (n, n) with numpy's default 64-bit
    integer cells. *)
Definition matrix_setitem (n : nat) (M : matrix) (i j v : Z) : Py matrix :=
  r <- np_index n i ;;
  c <- np_index n j ;;
  if ((- 2 ^ 63 <=? v) && (v <? 2 ^ 63))%Z
  then Return (list_update r (list_update c (fun _ => v)) M)
  else Raise OverflowError.

(** ** Contest *)

(** A ballot is a list of ranks; each rank is a list of candidate keys. *)
Definition ballot : Type := list (list string).

Abbreviation fact := (string * string)%type (only parsing).

Record Contest : Type := {
  entries : list string;
  count : Z;
  colwidth : Z;
  keydict : dict string bool;
  ballots : list ballot;
  margins : dict fact Z;
  margin_matrix : option matrix;
  labels : dict string string
}.

Definition len {A : Type} (l : list A) : Z := Z.of_nat (List.length l).

Fixpoint enumerate_from {A : Type} (i : nat) (l : list A) : list (nat * A) :=
  match l with
  | [] => []
  | x :: l' => (i, x) :: enumerate_from (S i) l'
  end.

(** The fields [Contest.__init__(ents)] assigns, [w] being the longest
    length of a name. *)
Definition Contest_fields (ents : list string) (w : Z) : Contest :=
  {| entries := ents;
     count := len ents;
     colwidth := Z.max w 3;
     keydict := fold_left (fun d key => set key true d) ents [];
     ballots := [];
     margins := [];
     margin_matrix := None;
     labels := fold_left (fun d ix => set (str_of_nat (fst ix + 1)) (snd ix) d)
                 (enumerate_from 0 ents) [] |}.

(** [Contest.__init__(ents)]; [max] of the empty list raises. *)
Definition Contest_init (ents : list string) : Py Contest :=
  w <- max_list (map (fun key => Z.of_nat (py_len key)) ents) ;;
  Return (Contest_fields ents w).

Definition set_ballots (c : Contest) (bs : list ballot) : Contest :=
  {| entries := entries c; count := count c; colwidth := colwidth c;
     keydict := keydict c; ballots := bs; margins := margins c;
     margin_matrix := margin_matrix c; labels := labels c |}.

Definition set_margins (c : Contest) (m : dict fact Z) : Contest :=
  {| entries := entries c; count := count c; colwidth := colwidth c;
     keydict := keydict c; ballots := ballots c; margins := m;
     margin_matrix := margin_matrix c; labels := labels c |}.

Definition set_margin_matrix (c : Contest) (M : matrix) : Contest :=
  {| entries := entries c; count := count c; colwidth := colwidth c;
     keydict := keydict c; ballots := ballots c; margins := margins c;
     margin_matrix := Some M; labels := labels c |}.

Definition iskey (c : Contest) (key : string) : bool :=
  match get key (keydict c) with Some _ => true | None => false end.

Definition addballot (c : Contest) (ls : ballot) : Contest :=
  set_ballots c (ballots c ++ [ls]).

(** [applymargin(row, col, rowwins)] on the margins table. *)
Definition applymargin (row col : string) (rowwins : bool) (m : dict fact Z)
  : dict fact Z :=
  let val := match get (row, col) m with Some v => v | None => 0%Z end in
  let val := if rowwins then (val + 1)%Z else (val - 1)%Z in
  set (row, col) val m.

(** The loops of [computemargins] over one ballot. *)
Definition ballot_margins (b : ballot) (m : dict fact Z) : dict fact Z :=
  let ranks := List.length b in
  fold_left (fun m ix =>
    fold_left (fun m row =>
      fold_left (fun m jx =>
        if (jx =? ix)%nat then m
        else fold_left (fun m col => applymargin row col (ix <? jx)%nat m)
               (nth jx b []) m)
        (seq 0 ranks) m)
      (nth ix b []) m)
    (seq 0 ranks) m.

(** [margin_to_matrix()]: the matrix it builds, or the exception it raises. *)
Definition margin_to_matrix (c : Contest) : Py matrix :=
  let n := Z.to_nat (count c) in
  fold_left (fun acc item =>
    M <- acc ;;
    let '(tup, margin) := item in
    i <- int (fst tup) ;;
    j <- int (snd tup) ;;
    if (i - 1 =? j - 1)%Z then Return M
    else
      i <- int (fst tup) ;;
      j <- int (snd tup) ;;
      matrix_setitem n M (i - 1) (j - 1) margin)
    (margins c) (Return (np_full n 0%Z)).

(** [computemargins()]: the contest after the call, and how the call ended.
    The margins table is filled before [margin_to_matrix] runs, so it is
    filled also when that raises; [margin_matrix] is assigned only when it
    returns. *)
Definition computemargins (c : Contest) : Contest * Py unit :=
  let c1 := set_margins c (fold_left (fun m b => ballot_margins b m) (ballots c) (margins c)) in
  match margin_to_matrix c1 with
  | Return M => (set_margin_matrix c1 M, Return tt)
  | Raise e => (c1, Raise e)
  end.

(** ** Outcome *)

(** [higher[A]] holds the candidates that beat A, [lower[A]] those that
    lose to A; the inner "sets" are dicts in which only the keys matter. *)
Abbreviation table := (dict string (dict string bool)) (only parsing).

Record Outcome : Type := {
  contest : Contest;
  higher : table;
  lower : table
}.

(** [Outcome(contest)]: the blank outcome. *)
Definition Outcome_init (c : Contest) : Outcome :=
  {| contest := c; higher := []; lower := [] |}.

(** The test [dic = t.get(row); dic and dic.get(col)] that the methods of
    Outcome repeat. *)
Definition marked (t : table) (row col : string) : bool :=
  match get row t with
  | Some dic =>
      truthy dic && match get col dic with Some b => b | None => false end
  | None => false
  end.

Definition beats (o : Outcome) (winner loser : string) : bool :=
  if marked (higher o) loser winner then true else false.

Definition compatible (o : Outcome) (winner loser : string) : Py bool :=
  if keyb winner loser then Raise (Exception "Entry cannot beat itself.")
  else if marked (higher o) winner loser then Return false
  else if marked (lower o) loser winner then Return false
  else Return true.

(** [clone()]: both tables rebuilt key by key from copies of the inner
    dicts. *)
Definition copy_table (t : table) : table :=
  fold_left (fun res key =>
               match get key t with
               | Some dic => set key dic res
               | None => res
               end) (keys t) [].

Definition clone (o : Outcome) : Outcome :=
  {| contest := contest o;
     higher := copy_table (higher o);
     lower := copy_table (lower o) |}.

(** The two table updates of [accept]: [t[a][b] = True], with a fresh inner
    dict when [t.get(a)] is missing or empty. *)
Definition mark (t : table) (a b : string) : table :=
  match get a t with
  | Some ((_ :: _) as dic) => set a (set b true dic) t
  | _ => set a [(b, true)] t
  end.

Definition record_fact (o : Outcome) (winner loser : string) : Outcome :=
  {| contest := contest o;
     higher := mark (higher o) loser winner;
     lower := mark (lower o) winner loser |}.

(** The keys of [t.get(a)] when that dict is truthy, as the consequence
    loops of [accept] walk them. *)
Definition keys_of (t : table) (a : string) : list string :=
  match get a t with
  | Some dic => keys dic
  | None => []
  end.

(** The facts that follow from a fact just recorded in [o]. *)
Definition consequences (o : Outcome) (winner loser : string) : list fact :=
  map (fun key => (key, loser))
      (filter (fun key => negb (beats o key loser)) (keys_of (higher o) winner))
  ++
  map (fun key => (winner, key))
      (filter (fun key => negb (beats o winner key)) (keys_of (lower o) loser)).

(** The [while facts:] loop of [accept]; [None] when [fuel] iterations were
    not enough to empty the work list. *)
Fixpoint accept_loop (fuel : nat) (o : Outcome) (facts : list fact)
  : option (Py Outcome) :=
  match facts with
  | [] => Some (Return o)
  | (winner, loser) :: facts' =>
      match fuel with
      | O => None
      | S fuel' =>
          match compatible o winner loser with
          | Raise e => Some (Raise e)
          | Return false => Some (Raise (Exception "Contradiction."))
          | Return true =>
              if beats o winner loser then accept_loop fuel' o facts'
              else
                let o' := record_fact o winner loser in
                accept_loop fuel' o' (facts' ++ consequences o' winner loser)
          end
      end
  end.

(** Candidates named anywhere in a table. *)
Definition table_cands (t : table) : list string :=
  flat_map (fun kv => fst kv :: keys (snd kv)) t.

Definition cands (o : Outcome) : list string :=
  table_cands (higher o) ++ table_cands (lower o).

Definition table_size (t : table) : nat :=
  list_sum (map (fun kv => List.length (snd kv)) t).

(** The pairs over the candidates [U] that the outcome does not record. *)
Definition missing (U : list string) (o : Outcome) : nat :=
  List.length (filter (fun p => negb (beats o (fst p) (snd p))) (list_prod U U)).

(** The number of cells of the two tables. *)
Definition cells (o : Outcome) : nat :=
  table_size (higher o) + table_size (lower o).

(** A bound on the iterations still to run: every iteration takes one fact
    off the work list; one that records a fact fills a missing pair and
    appends no more facts than the tables have cells. *)
Definition potential (U : list string) (o : Outcome) (facts : list fact) : nat :=
  List.length facts + missing U o * (cells o + 2 * missing U o + 1).

(** A number of iterations that always empties the work list of
    [accept(winner, loser)]. *)
Definition accept_fuel (o : Outcome) (winner loser : string) : nat :=
  let U := nodup string_dec (winner :: loser :: cands o) in
  S (potential U o [(winner, loser)]).

(** [accept(winner, loser)]: the outcome with the fact and its consequences,
    or the exception raised.  The loop is run with [accept_fuel] iterations;
    [accept_loop_fuel] shows they are always enough. *)
Definition accept (o : Outcome) (winner loser : string) : Py Outcome :=
  match accept_loop (accept_fuel o winner loser) o [(winner, loser)] with
  | Some r => r
  | None => Raise (Exception "accept: work list not emptied")
  end.

(** [result()] *)
Definition result_row (o : Outcome) (row : string) : Z * Z * Z :=
  let total := (count (contest o) - 1)%Z in
  let wl := fold_left (fun wl col =>
              if keyb col row then wl
              else
                let losses := if marked (higher o) row col then (snd wl + 1)%Z else snd wl in
                let wins := if marked (lower o) row col then (fst wl + 1)%Z else fst wl in
                (wins, losses))
              (entries (contest o)) (0%Z, 0%Z) in
  (fst wl, snd wl, (total - (fst wl + snd wl))%Z).

Definition result (o : Outcome) : dict string (Z * Z * Z) :=
  fold_left (fun res row => set row (result_row o row) res) (entries (contest o)) [].

(** ** The tally of [printresult] *)

(** [d[k]]: a missing key is a [KeyError]. *)
Definition getitem {V : Type} (k : string) (d : dict string V) : Py V :=
  match get k d with
  | Some v => Return v
  | None => Raise (KeyError k)
  end.

(** [cmp(a, b)] on pairs of integers: [(a > b) - (a < b)]. *)
Definition cmp (a b : Z * Z) : Z :=
  ((if pair_lt b a then 1 else 0) - (if pair_lt a b then 1 else 0))%Z.

(** The sorting function of [printresult]. *)
Definition func (res : dict string (Z * Z * Z)) (key1 key2 : string) : Py Z :=
  r1 <- getitem key1 res ;;
  r2 <- getitem key2 res ;;
  let '(w1, l1, t1) := r1 in
  let '(w2, l2, t2) := r2 in
  Return (cmp (w2, t2) (w1, t1)).

(** [K.__lt__] of [cmp_to_key(func)], the only comparison [list.sort] uses. *)
Definition key_lt (res : dict string (Z * Z * Z)) (key1 key2 : string) : Py bool :=
  v <- func res key1 key2 ;;
  Return (v <? 0)%Z.

(** [list.sort] is a stable sort that compares with [<] only; for a
    comparison that is a strict weak order, as [key_lt] is, the sorted list
    is the same for every stable algorithm.  It is modelled as the stable
    insertion sort that puts each element before the first one it is less
    than; a comparison can raise. *)
Fixpoint insert_sorted {A : Type} (lt : A -> A -> Py bool) (x : A) (l : list A)
  : Py (list A) :=
  match l with
  | [] => Return [x]
  | y :: l' =>
      c <- lt x y ;;
      if c then Return (x :: y :: l')
      else (r <- insert_sorted lt x l' ;; Return (y :: r))
  end.

Definition list_sort {A : Type} (lt : A -> A -> Py bool) (l : list A) : Py (list A) :=
  fold_left (fun acc x => sorted <- acc ;; insert_sorted lt x sorted) l (Return []).

(** What [printresult] prints: the heading, then one line per candidate
    with its place, its label and its tally. *)
Inductive line : Type :=
| Heading (s : string)
| Place (place : string) (name : string) (tally : Z * Z * Z).

(** The truth value of [lastkey]: [None] and the empty string are falsy. *)
Definition truthy_key (k : option string) : bool :=
  match k with
  | Some s => negb (keyb s EmptyString)
  | None => false
  end.

(** One iteration of the printing loop: the line printed, or the exception
    raised before anything is printed. *)
Definition place_line (o : Outcome) (res : dict string (Z * Z * Z))
  (ix : nat) (lastkey : option string) (key : string) : Py line :=
  tally <- getitem key res ;;
  newplace <- (if negb (truthy_key lastkey) then Return true
               else match lastkey with
                    | Some k => (v <- func res k key ;; Return (negb (v =? 0)%Z))
                    | None => Return true
                    end) ;;
  let place := if newplace then String.append (str_of_nat ix) ":"
               else String (ascii_of_nat 34) ":" in
  name <- getitem key (labels (contest o)) ;;
  Return (Place (rjust 4 place)
                (rjust (Z.to_nat (colwidth (contest o))) name)
                tally).

Fixpoint print_places (o : Outcome) (res : dict string (Z * Z * Z))
  (ix : nat) (lastkey : option string) (ls : list string) : list line * Py unit :=
  match ls with
  | [] => ([], Return tt)
  | key :: ls' =>
      match place_line o res ix lastkey key with
      | Raise e => ([], Raise e)
      | Return ln =>
          let rest := print_places o res (S ix) (Some key) ls' in
          (ln :: fst rest, snd rest)
      end
  end.

(** The order in which [printresult] lists the candidates: [ls] after
    [ls.sort(key = cmp_to_key(func))]. *)
Definition ranking (o : Outcome) : Py (list string) :=
  list_sort (key_lt (result o)) (entries (contest o)).

(** [printresult()]: the lines printed and how the call ended. *)
Definition printresult (o : Outcome) : list line * Py unit :=
  let res := result o in
  match ranking o with
  | Raise e => ([], Raise e)
  | Return ls =>
      let out := print_places o res 1 None ls in
      (Heading "Place: Name (wins, losses, unresolved)" :: fst out, snd out)
  end.

(** ** The resolution driver [compute] *)

(** The body of the gathering loop of [compute]: a fact whose margin [val]
    is strictly positive is filed under [val] in [dic], after the facts
    already there. *)
Definition file_fact (val : Z) (tup : fact) (dic : dict Z (list fact))
  : dict Z (list fact) :=
  if (val <=? 0)%Z then dic
  else
    match get val dic with
    | Some ((_ :: _) as ls) => set val (ls ++ [tup]) dic
    | _ => set val [tup] dic
    end.

(** The dict [dic] of [compute]: every key of the margins table with a
    strictly positive margin, filed under that margin in the order the keys
    sit in the table. *)
Definition gather (m : dict fact Z) : dict Z (list fact) :=
  fold_left (fun dic tup =>
               file_fact (match get tup m with Some v => v | None => 0%Z end)
                         tup dic)
            (keys m) [].

(** [[tup for tup in ls if outcome.compatible( *tup)]]; a test that raises
    ends the comprehension. *)
Fixpoint compatible_facts (o : Outcome) (ls : list fact) : Py (list fact) :=
  match ls with
  | [] => Return []
  | tup :: ls' =>
      b <- compatible o (fst tup) (snd tup) ;;
      rest <- compatible_facts o ls' ;;
      Return (if b then tup :: rest else rest)
  end.

(** The body of each [try]: clone the outcome and accept the facts one after
    the other. *)
Definition accept_all (outcome : Outcome) (tups : list fact) : Py Outcome :=
  fold_left (fun acc tup => newout <- acc ;; accept newout (fst tup) (snd tup))
            tups (Return (clone outcome)).

(** The facts kept by the leave-one-out pass: [avoid] is appended to
    [notguilty] when accepting all the other facts raises. *)
Definition notguilty_of (outcome : Outcome) (compatls : list fact) : list fact :=
  filter (fun avoid =>
            negb (returned (accept_all outcome
                              (filter (fun tup => negb (keyb tup avoid)) compatls))))
         compatls.

(** One iteration of the loop over margin levels. *)
Definition level_step (dic : dict Z (list fact)) (outcome : Outcome) (level : Z)
  : Py Outcome :=
  match get level dic with
  | Some ((_ :: _) as ls) =>
      compatls <- compatible_facts outcome ls ;;
      match accept_all outcome compatls with
      | Return newout => Return newout
      | Raise _ =>
          let notguilty := notguilty_of outcome compatls in
          if (len notguilty =? 0)%Z || (len notguilty =? len compatls)%Z
          then Return outcome
          else
            match accept_all outcome notguilty with
            | Return newout => Return newout
            | Raise _ => Return outcome
            end
      end
  | _ => Return outcome
  end.

(** [range(maxmargin, 0, -1)] *)
Definition levels_down (maxmargin : Z) : list Z :=
  map (fun k => (maxmargin - Z.of_nat k)%Z) (seq 0 (Z.to_nat maxmargin)).

Definition compute (c : Contest) : Py Outcome :=
  let dic := gather (margins c) in
  let outcome := Outcome_init c in
  if negb (truthy dic) then Return outcome
  else
    maxmargin <- max_list (keys dic) ;;
    fold_left (fun acc level => outcome <- acc ;; level_step dic outcome level)
              (levels_down maxmargin) (Return outcome).

(** ** Contests and outcomes used as examples *)

(** The contest after [Contest(ents)] and one [addballot] per ballot. *)
Definition make_contest (ents : list string) (bs : list ballot) : Py Contest :=
  c <- Contest_init ents ;;
  Return (fold_left addballot bs c).

(** The contest of the module's documentation. *)
Definition AAA : string := "AAA".
Definition BBB : string := "BBB".
Definition CCC : string := "CCC".
Definition DDD : string := "DDD".

Definition doc_ballots : list ballot :=
  [ [[DDD]; [CCC]; [BBB]; [AAA]];
    [[DDD]; [AAA]; [BBB]];
    [[DDD]; [AAA; CCC]; [BBB]];
    [[CCC]; [AAA; DDD; BBB]];
    [[AAA]];
    [[AAA; DDD]] ].

Definition doc_contest : Contest :=
  fold_left addballot doc_ballots (Contest_fields [AAA; BBB; CCC; DDD] 3).

(** [accept] called on each fact in turn, from a given outcome. *)
Definition accept_each (o : Outcome) (tups : list fact) : Py Outcome :=
  fold_left (fun acc tup => o' <- acc ;; accept o' (fst tup) (snd tup))
            tups (Return o).

(** A contest of five candidates without ballots, and the outcome in which
    1 beats 2 and 3 beats 4 beats 5. *)
Definition five : Contest := Contest_fields ["1"; "2"; "3"; "4"; "5"] 1.

Definition five_facts : list fact := [("1", "2"); ("3", "4"); ("4", "5")].

Definition five_outcome : Outcome :=
  {| contest := five;
     higher := [("2", [("1", true)]); ("4", [("3", true)]);
                ("5", [("4", true); ("3", true)])];
     lower := [("1", [("2", true)]); ("3", [("4", true); ("5", true)]);
               ("4", [("5", true)])] |}.

(** ** The calls of [applymargin] *)

(** One call of [applymargin]: the pair (row, col) and [rowwins]. *)
Abbreviation call := (fact * bool)%type (only parsing).

(** The calls [computemargins] makes for one ballot, in order. *)
Definition calls (b : ballot) : list call :=
  let ranks := List.length b in
  flat_map (fun ix =>
    flat_map (fun row =>
      flat_map (fun jx =>
        if (jx =? ix)%nat then []
        else map (fun col => ((row, col), (ix <? jx)%nat)) (nth jx b []))
        (seq 0 ranks))
      (nth ix b []))
    (seq 0 ranks).

Definition apply_calls (cs : list call) (m : dict fact Z) : dict fact Z :=
  fold_left (fun m c => applymargin (fst (fst c)) (snd (fst c)) (snd c) m) cs m.

Definition sumZ {A : Type} (f : A -> Z) (l : list A) : Z :=
  fold_right (fun x acc => (f x + acc)%Z) 0%Z l.

(** What one call adds to the margin. *)
Definition sign (rowwins : bool) : Z := if rowwins then 1%Z else (-1)%Z.

(** The sum of [f rowwins] over the calls made for the pair [p]. *)
Definition weight (f : bool -> Z) (p : fact) (cs : list call) : Z :=
  sumZ (fun c => if keyb (fst c) p then f (snd c) else 0%Z) cs.

Definition called (p : fact) (cs : list call) : bool :=
  existsb (fun c => keyb (fst c) p) cs.

(** The number of times [a] is listed in a rank. *)
Definition occ (a : string) (rank : list string) : Z :=
  Z.of_nat (count_occ string_dec rank a).

(** What the ranks [ix] and [jx] of a ballot contribute to [weight f (a, b)]. *)
Definition rank_weight (f : bool -> Z) (bal : ballot) (a b : string)
  (ix jx : nat) : Z :=
  if (jx =? ix)%nat then 0%Z
  else (occ a (nth ix bal []) * (f (ix <? jx)%nat * occ b (nth jx bal [])))%Z.

(** Some ballot lists [a] and [b] in two different ranks. *)
Definition ranked_apart (bs : list ballot) (a b : string) : Prop :=
  exists bal ix jx, In bal bs /\ ix <> jx /\
    In a (nth ix bal []) /\ In b (nth jx bal []).

(** The pair is a key of the margins table. *)
Definition present (m : dict fact Z) (p : fact) : Prop := get p m <> None.

(** ** The order of the tally *)

(** The sort of [list_sort] when no comparison raises. *)
Fixpoint insert {A : Type} (ltb : A -> A -> bool) (x : A) (l : list A) : list A :=
  match l with
  | [] => [x]
  | y :: l' => if ltb x y then x :: y :: l' else y :: insert ltb x l'
  end.

Definition isort {A : Type} (ltb : A -> A -> bool) (l : list A) : list A :=
  fold_left (fun sorted x => insert ltb x sorted) l [].

(** [x] does not have to come after [y] in a list sorted by [ltb]. *)
Definition not_after {A : Type} (ltb : A -> A -> bool) (x y : A) : Prop :=
  ltb y x = false.

(** The pair (wins, unresolved) that [func] reads from [res[key]]. *)
Definition standing (res : dict string (Z * Z * Z)) (key : string) : Z * Z :=
  match get key res with
  | Some (w, _, t) => (w, t)
  | None => (0%Z, 0%Z)
  end.

(** [key1 < key2] for the sort keys of [printresult]. *)
Definition ranks_before (res : dict string (Z * Z * Z)) (key1 key2 : string) : bool :=
  pair_lt (standing res key2) (standing res key1).

(** Ties broken by ascending unresolved count, on the lines of
    [printresult]: of two lines with the same number of wins, the one
    printed first has the smaller or equal unresolved count. *)
Definition ties_by_ascending_unresolved (o : Outcome) : Prop :=
  forall i j p1 n1 w1 l1 t1 p2 n2 w2 l2 t2,
    (i < j)%nat ->
    nth_error (fst (printresult o)) i = Some (Place p1 n1 (w1, l1, t1)) ->
    nth_error (fst (printresult o)) j = Some (Place p2 n2 (w2, l2, t2)) ->
    w1 = w2 -> (t1 <= t2)%Z.

(** ** The driver as the specification words it *)

(** The exclusion set of the leave-one-out pass: the facts P of the
    remaining set for which accepting all the facts except P, into a fresh
    clone of the outcome, succeeds. *)
Definition exclusion_set (outcome : Outcome) (remaining : list fact) : list fact :=
  filter (fun P =>
            returned (accept_all outcome
                        (filter (fun tup => negb (keyb tup P)) remaining)))
         remaining.

Definition member (P : fact) (l : list fact) : bool := existsb (keyb P) l.

(** The leave-one-out heuristic: the level is abandoned when the exclusion
    set is empty or is the whole remaining set; otherwise the facts that are
    not excluded are accepted as one batch into a fresh clone, which is
    adopted when that succeeds, and the level is abandoned when it fails. *)
Definition leave_one_out (outcome : Outcome) (remaining : list fact) : Outcome :=
  let excluded := exclusion_set outcome remaining in
  if negb (truthy excluded) || forallb (fun P => member P excluded) remaining
  then outcome
  else
    let kept := filter (fun P => negb (member P excluded)) remaining in
    match accept_all outcome kept with
    | Return newout => newout
    | Raise _ => outcome
    end.

(** [compatible(winner, loser)] as a test on a fact. *)
Definition is_compatible (outcome : Outcome) (tup : fact) : bool :=
  match compatible outcome (fst tup) (snd tup) with
  | Return b => b
  | Raise _ => false
  end.

(** One margin level: the facts incompatible with the outcome so far are
    discarded, the others are accepted as one batch into a clone, which
    becomes the current outcome when nothing is raised; otherwise the
    leave-one-out heuristic decides. *)
Definition level_outcome (outcome : Outcome) (facts : list fact) : Outcome :=
  let remaining := filter (is_compatible outcome) facts in
  match accept_all outcome remaining with
  | Return newout => newout
  | Raise _ => leave_one_out outcome remaining
  end.

(** The pairs of the margins table whose margin is [v]. *)
Definition facts_at (m : dict fact Z) (v : Z) : list fact :=
  map fst (filter (fun e => (snd e =? v)%Z) m).

(** The largest margin of the table, 0 when none is positive. *)
Definition max_margin (m : dict fact Z) : Z :=
  fold_left Z.max (map snd m) 0%Z.

(** The strictly positive margins that occur in the table, largest first. *)
Definition magnitudes (m : dict fact Z) : list Z :=
  filter (fun v => truthy (facts_at m v)) (levels_down (max_margin m)).

(** Ranked pairs: from a blank outcome, one level per magnitude, in
    descending order. *)
Definition ranked_pairs (c : Contest) : Outcome :=
  fold_left (fun outcome v => level_outcome outcome (facts_at (margins c) v))
            (magnitudes (margins c)) (Outcome_init c).

(** No pair of a candidate with itself has a positive margin. *)
Definition no_positive_self (m : dict fact Z) : Prop :=
  forall a v, get (a, a) m = Some v -> (v <= 0)%Z.

(** One level of margin 1 whose three facts are each compatible with the
    outcome in which 1 beats 2 and 3 beats 4 beats 5, but not together. *)
Definition retry_level : dict Z (list fact) :=
  [(1%Z, [("2", "3"); ("5", "1"); ("2", "4")])].

(** The four candidates of the documentation with one ballot that ties
    them all. *)
Definition tied_ballots : list ballot := [[[AAA; BBB; CCC; DDD]]].

Definition tied_contest : Contest :=
  fold_left addballot tied_ballots (Contest_fields [AAA; BBB; CCC; DDD] 3).

(** The contest of the documentation with its candidates named 1 to 4, as
    [margin_to_matrix] and the labels of [printresult] expect them. *)
Definition numbered_contest : Contest :=
  fold_left addballot
    [ [["4"]; ["3"]; ["2"]; ["1"]];
      [["4"]; ["1"]; ["2"]];
      [["4"]; ["1"; "3"]; ["2"]];
      [["3"]; ["1"; "4"; "2"]];
      [["1"]];
      [["1"; "4"]] ]
    (Contest_fields ["1"; "2"; "3"; "4"] 1).

(** ** Invariants of an Outcome *)

(** [lower] mirrors [higher]: A is marked under B in one table exactly when
    B is marked under A in the other. *)
Definition mirror (o : Outcome) : Prop :=
  forall a b, marked (lower o) a b = marked (higher o) b a.

Definition irreflexive (o : Outcome) : Prop :=
  forall a, beats o a a = false.

Definition contradiction_free (o : Outcome) : Prop :=
  forall a b, beats o a b = true -> beats o b a = true -> False.

Definition transitively_closed (o : Outcome) : Prop :=
  forall a b c, beats o a b = true -> beats o b c = true -> beats o a c = true.

(** "A beats B" is recorded in one of the two tables. *)
Definition recorded (o : Outcome) (a b : string) : bool :=
  marked (higher o) b a || marked (lower o) a b.

(** The contradiction-free invariant on the tables themselves: they never
    record both A beats B and B beats A. *)
Definition no_contradiction_recorded (o : Outcome) : Prop :=
  forall a b, recorded o a b = true -> recorded o b a = true -> False.

(** No candidate is a key of its own inner dict. *)
Definition no_self (t : table) : Prop :=
  forall a dic, In (a, dic) t -> ~ In a (keys dic).

(** The outcomes obtained from a blank one by calls of [accept] that
    return. *)
Inductive reachable : Outcome -> Prop :=
| reach_blank (c : Contest) : reachable (Outcome_init c)
| reach_accept (o o' : Outcome) (a b : string) :
    reachable o -> a <> b -> accept o a b = Return o' -> reachable o'.

(** ** Further notions about outcomes *)

(** Every value stored in the inner dicts of a table is [True]. *)
Definition all_true (t : table) : Prop :=
  forall a dic k v, In (a, dic) t -> In (k, v) dic -> v = true.

(** The relation [accept(a, b)] should leave: the facts of [o], and every
    pair of a candidate that is [a] or beats [a] with a candidate that is
    [b] or is beaten by [b]. *)
Definition closure_with (o : Outcome) (a b x y : string) : bool :=
  beats o x y
  || ((keyb x a || beats o x a) && (keyb y b || beats o b y)).

(** What holds at the head of each iteration of the loop of [accept]
    started from [o0] with the work list [[(a, b)]]: the tables mirror each
    other and hold only [True], and every fact recorded or waiting lies in
    the closure. *)
Record within_closure (o0 : Outcome) (a b : string)
  (o : Outcome) (facts : list fact) : Prop := {
  wc_mirror : mirror o;
  wc_higher : all_true (higher o);
  wc_lower : all_true (lower o);
  wc_beats : forall x y, beats o x y = true -> closure_with o0 a b x y = true;
  wc_facts : forall p, In p facts -> closure_with o0 a b (fst p) (snd p) = true
}.

(** The outcomes obtained from a blank one by calls [accept(a, b)] that
    return, every accepted fact satisfying [P]. *)
Inductive accepted_from (P : string -> string -> Prop) : Outcome -> Prop :=
| from_blank (c : Contest) : accepted_from P (Outcome_init c)
| from_accept (o o' : Outcome) (a b : string) :
    accepted_from P o -> P a b -> accept o a b = Return o' ->
    accepted_from P o'.

(** The pair has a strictly positive margin in the table. *)
Definition positive_margin (m : dict fact Z) (a b : string) : Prop :=
  exists v, get (a, b) m = Some v /\ (0 < v)%Z.

(** The contest of the documentation after [computemargins], and the
    outcome [compute] returns for it. *)
Definition doc_margins : Contest := fst (computemargins doc_contest).

Definition doc_outcome : Outcome :=
  {| contest := doc_margins;
     higher := [(BBB, [(DDD, true); (CCC, true); (AAA, true)]);
                (AAA, [(DDD, true); (CCC, true)]);
                (CCC, [(DDD, true)])];
     lower := [(DDD, [(BBB, true); (AAA, true); (CCC, true)]);
               (CCC, [(BBB, true); (AAA, true)]);
               (AAA, [(BBB, true)])] |}.

(** Two candidates and one ballot that lists the first of them in two
    ranks (nothing in [addballot] forbids it). *)
Definition repeated_contest : Contest :=
  fold_left addballot [ [["1"]; ["2"]; ["1"]] ] (Contest_fields ["1"; "2"] 1).

(** ** What a ballot says *)

(** The ballot lists [a] in a rank placed before a rank that lists [b]. *)
Definition prefers (bal : ballot) (a b : string) : Prop :=
  exists ix jx, (ix < jx)%nat /\ In a (nth ix bal []) /\ In b (nth jx bal []).

Definition listed (a : string) (rank : list string) : bool :=
  existsb (keyb a) rank.

Definition prefersb (bal : ballot) (a b : string) : bool :=
  existsb (fun ix =>
             listed a (nth ix bal [])
             && existsb (fun jx => (ix <? jx)%nat && listed b (nth jx bal []))
                        (seq 0 (List.length bal)))
          (seq 0 (List.length bal)).

(** The number of ballots that prefer [a] to [b]. *)
Definition preferring (bs : list ballot) (a b : string) : Z :=
  len (filter (fun bal => prefersb bal a b) bs).

Definition call_dec (x y : call) : {x = y} + {x <> y}.
Proof.
  decide equality; [apply Bool.bool_dec|].
  decide equality; apply string_dec.
Defined.

(** ** [read_file] *)

(** [s.split(sep)] for a separator of one ASCII character: every separator
    ends a piece, empty pieces are kept. *)
Fixpoint split_at (sep : ascii) (cur : list ascii) (l : list ascii)
  : list (list ascii) :=
  match l with
  | [] => [rev cur]
  | ch :: l' =>
      if Ascii.eqb ch sep then rev cur :: split_at sep [] l'
      else split_at sep (ch :: cur) l'
  end.

Definition split_on (sep : ascii) (s : string) : list string :=
  map string_of_list_ascii (split_at sep [] (list_ascii_of_string s)).

(** [s.startswith(ch)] for a prefix of one ASCII character. *)
Definition startswith (ch : ascii) (s : string) : bool :=
  match s with
  | String c0 _ => Ascii.eqb c0 ch
  | EmptyString => false
  end.

(** The truth value of a string, and of a variable that is [None] or a
    string. *)
Definition truthy_string (s : string) : bool :=
  match s with EmptyString => false | String _ _ => true end.

Definition truthy_contents (contents : option string) : bool :=
  match contents with Some s => truthy_string s | None => false end.

(** The reading loop of [read_file].  The file is the list of the strings
    its [readline()] returns; an empty string is the end of the file. *)
Fixpoint read_lines (lines : list string) (contents : option string)
  (ballot_lines : list string) : Py (option string * list string) :=
  match lines with
  | [] => Return (contents, ballot_lines)
  | raw :: rest =>
      if negb (truthy_string raw) then Return (contents, ballot_lines)
      else
        let ln := strip_string raw in
        if negb (truthy_string ln) then read_lines rest contents ballot_lines
        else if startswith "#" ln then read_lines rest contents ballot_lines
        else if startswith "*" ln then
          if truthy_contents contents
          then Raise (Exception "More than one line in the input file begins with *.")
          else read_lines rest (Some ln) ballot_lines
        else read_lines rest contents (ballot_lines ++ [ln])
  end.

(** [val in dic] *)
Definition has_key {V : Type} (val : string) (dic : dict string V) : bool :=
  match get val dic with Some _ => true | None => false end.

(** The checks of one rank of a ballot. *)
Definition check_rank (contest : Contest) (dic : dict string bool)
  (subls : list string) : Py (dict string bool) :=
  fold_left (fun acc val =>
               dic <- acc ;;
               if negb (iskey contest val)
               then Raise (Exception (String.append "Unknown key in ballot: " val))
               else if has_key val dic
               then Raise (Exception (String.append "Repeated key in ballot: " val))
               else Return (set val true dic))
            subls (Return dic).

(** One ballot line: split, checked, completed when asked, and added. *)
Definition read_ballot (assume_complete : bool) (contest : Contest) (ln : string)
  : Py Contest :=
  let ls := map (split_on "/") (split_ws ln) in
  dic <- fold_left (fun acc subls => dic <- acc ;; check_rank contest dic subls)
                   ls (Return []) ;;
  let ls :=
    if assume_complete
    then
      let final := filter (fun val => negb (has_key val dic)) (entries contest) in
      if truthy final then ls ++ [final] else ls
    else ls in
  Return (addballot contest ls).

Definition read_file (lines : list string) (assume_complete : bool) : Py Contest :=
  st <- read_lines lines None [] ;;
  let contents := fst st in
  let ballot_lines := snd st in
  if negb (truthy_contents contents)
  then Raise (Exception "No line in the input file begins with *.")
  else
    let ents := split_ws (drop_first (match contents with Some s => s | None => EmptyString end)) in
    if negb (truthy ents)
    then Raise (Exception "The * line has no contents.")
    else
      let dic := fold_left (fun d val => set val true d) ents ([] : dict string bool) in
      if negb (len dic =? len ents)%Z
      then Raise (Exception "Duplicate entry in * line.")
      else
        contest <- Contest_init ents ;;
        fold_left (fun acc ln => contest <- acc ;; read_ballot assume_complete contest ln)
                  ballot_lines (Return contest).

(** The vote file of the module's documentation, line by line. *)
Definition newline : string := String (ascii_of_nat 10) EmptyString.

Definition doc_file : list string :=
  map (fun s => String.append s newline)
    [ "  * AAA BBB CCC DDD";
      "  # The first line should begin with a *.";
      "";
      "  DDD CCC BBB AAA";
      "  DDD AAA BBB";
      "  DDD AAA/CCC BBB";
      "  CCC AAA/DDD/BBB";
      "  AAA";
      "  AAA/DDD" ].

(** The lines [read_file] reads before the end of the file, stripped; among
    them the lines that begin with a star, and the lines kept as ballots. *)
Fixpoint read_until_eof (lines : list string) : list string :=
  match lines with
  | [] => []
  | raw :: rest =>
      if truthy_string raw then strip_string raw :: read_until_eof rest else []
  end.

Definition starred (lines : list string) : list string :=
  filter (startswith "*") (read_until_eof lines).

Definition is_ballot_line (ln : string) : bool :=
  truthy_string ln && negb (startswith "#" ln) && negb (startswith "*" ln).

Definition ballot_lines_of (lines : list string) : list string :=
  filter is_ballot_line (read_until_eof lines).

(** The contest [read_file] builds from the documented file when the ballots
    are assumed complete. *)
Definition doc_file_complete : Contest :=
  match read_file doc_file true with
  | Return c => c
  | Raise _ => doc_contest
  end.

(** A vote file in which U+00A0, the no-break space, stands before the
    star and between two candidates. *)
Definition nbsp : string :=
  String (ascii_of_nat 194) (String (ascii_of_nat 160) EmptyString).

Definition nbsp_file : list string :=
  [ String.append nbsp (String.append "* 1" (String.append nbsp "2 3"));
    String.append "1" (String.append nbsp "2") ].

Definition nbsp_contest : Contest :=
  match read_file nbsp_file false with
  | Return c => c
  | Raise _ => doc_contest
  end.

(** What [read_file] promises about a ballot: no candidate twice, only
    candidates of the contest. *)
Definition valid_ballot (ents : list string) (bal : ballot) : Prop :=
  NoDup (List.concat bal) /\ forall x, In x (List.concat bal) -> In x ents.

(** ** Numbered candidates *)

(** The position, counted from 0, of the candidate whose name is the decimal
    numeral [s] among [n] candidates named 1 to [n]. *)
Definition numeral_index (n : nat) (s : string) : option nat :=
  find (fun i => keyb s (str_of_nat (S i))) (seq 0 n).

(** ** What [margin_to_matrix] can store *)

Definition in_axis (n : nat) (i : Z) : bool :=
  ((- Z.of_nat n <=? i) && (i <? Z.of_nat n))%Z.

Definition fits_int64 (v : Z) : bool :=
  ((- 2 ^ 63 <=? v) && (v <? 2 ^ 63))%Z.

(** An item of the margins table that the loop of [margin_to_matrix] gets
    past: both names are integers, and either they are the same integer or
    both are indices of the matrix and the margin fits a cell. *)
Definition storable (n : nat) (item : fact * Z) : bool :=
  match int (fst (fst item)), int (snd (fst item)) with
  | Return i, Return j =>
      (i - 1 =? j - 1)%Z
      || (in_axis n (i - 1) && in_axis n (j - 1) && fits_int64 (snd item))
  | _, _ => false
  end.

Definition cell_at (M : matrix) (r c : nat) : Z := nth c (nth r M []) 0%Z.

Definition shape (n : nat) (M : matrix) : Prop :=
  List.length M = n /\ forall row, In row M -> List.length row = n.

(** An item of the margins table of a contest whose candidates are named 1
    to [n]. *)
Definition numbered_item (n : nat) (item : fact * Z) : bool :=
  match numeral_index n (fst (fst item)), numeral_index n (snd (fst item)) with
  | Some _, Some _ => fits_int64 (snd item)
  | _, _ => false
  end.

(** ** [printout] *)

(** The cell of [printout] for [row] and [col], before it is padded. *)
Definition outranking_cell (o : Outcome) (row col : string) : string :=
  let val := if keyb col row then "`" else EmptyString in
  let val := if marked (higher o) row col then String.append val "-" else val in
  let val := if marked (lower o) row col then String.append val "+" else val in
  val.

(** The table [printout()] prints after its heading: the line of the column
    names, then one line per candidate.  Every element of a line is printed
    followed by a space, every line is ended by a new line. *)
Definition printout (o : Outcome) : list (list string) :=
  let wid := Z.to_nat (colwidth (contest o)) in
  let ents := entries (contest o) in
  (rjust wid EmptyString :: map (rjust wid) ents)
  :: map (fun row =>
            rjust wid row
            :: map (fun col => rjust wid (outranking_cell o row col)) ents)
         ents.

(** The sign the documentation of [printout] gives to a cell. *)
Definition outranking_sign (o : Outcome) (row col : string) : string :=
  if keyb col row then "`"
  else if beats o row col then "+"
  else if beats o col row then "-"
  else EmptyString.

(** ** The places of [printresult] *)

(** The place printed on a line that shares the place of the line before. *)
Definition ditto : string := String (ascii_of_nat 34) ":".

(** Two tallies with the same wins and the same unresolved count. *)
Definition same_standing (t1 t2 : Z * Z * Z) : bool :=
  let '(w1, _, u1) := t1 in
  let '(w2, _, u2) := t2 in
  ((w1 =? w2) && (u1 =? u2))%Z.

(** The place column of the lines [printresult] prints for the tallies
    [ts], the first of them on line [ix]. *)
Fixpoint places (ix : nat) (last : option (Z * Z * Z)) (ts : list (Z * Z * Z))
  : list string :=
  match ts with
  | [] => []
  | t :: ts' =>
      rjust 4 (match last with
               | Some t0 =>
                   if same_standing t0 t then ditto
                   else String.append (str_of_nat ix) ":"
               | None => String.append (str_of_nat ix) ":"
               end)
      :: places (S ix) (Some t) ts'
  end.

Definition line_place (ln : line) : string :=
  match ln with Heading s => s | Place p _ _ => p end.

Definition line_tally (ln : line) : Z * Z * Z :=
  match ln with Heading _ => (0, 0, 0)%Z | Place _ _ t => t end.

(** What the loop of [margin_to_matrix] does with one item of the table. *)
Definition margin_store (n : nat) (M : matrix) (item : fact * Z) : Py matrix :=
  let '(tup, margin) := item in
  i <- int (fst tup) ;;
  j <- int (snd tup) ;;
  if (i - 1 =? j - 1)%Z then Return M
  else
    i <- int (fst tup) ;;
    j <- int (snd tup) ;;
    matrix_setitem n M (i - 1) (j - 1) margin.

(** The position an index that is in range stands for. *)
Definition axis_pos (n : nat) (i : Z) : nat :=
  Z.to_nat (if (i <? 0)%Z then i + Z.of_nat n else i)%Z.

(** The vote file of the documentation with its candidates named 1 to 4. *)
Definition numbered_file : list string :=
  map (fun s => String.append s newline)
    [ "* 1 2 3 4";
      "4 3 2 1";
      "4 1 2";
      "4 1/3 2";
      "3 1/4/2";
      "1";
      "1/4" ].

(** Three candidates and two ballots that agree on 1 before 2. *)
Definition two_ballots : Contest :=
  fold_left addballot
    [ [["1"]; ["2"]; ["3"]];
      [["1"]; ["2"]] ]
    (Contest_fields ["1"; "2"; "3"] 1).

(** The outcome [compute] returns for the numbered contest. *)
Definition numbered_outcome : Outcome :=
  match compute (fst (computemargins numbered_contest)) with
  | Return o => o
  | Raise _ => Outcome_init numbered_contest
  end.

(** The ballot a line of the file stands for, and the same ballot with the
    candidates it leaves out appended as one last rank. *)
Definition parse_ballot (ln : string) : ballot :=
  map (split_on "/") (split_ws ln).

Definition complete_ballot (ents : list string) (bal : ballot) : ballot :=
  let final := filter (fun e => negb (listed e (List.concat bal))) ents in
  if truthy final then bal ++ [final] else bal.

(** ** Ranked pairs, in terms of the facts of an outcome *)

(** The facts of [o] together with the facts in [S], closed under
    transitivity. *)
Definition closure_of (o : Outcome) (S : fact -> Prop) : string -> string -> Prop :=
  clos_trans string (fun x y => beats o x y = true \/ S (x, y)).

(** Accepting the facts in [S] raises no contradiction: with them no
    candidate comes to beat itself. *)
Definition acceptable (o : Outcome) (S : fact -> Prop) : Prop :=
  forall x, ~ closure_of o S x x.

(** [o'] is [o] after a bulk accept of [S]: an outcome of the same contest
    whose facts are the facts of [o], the facts in [S] and all that follows
    from them, and nothing else. *)
Definition adopted (o : Outcome) (S : fact -> Prop) (o' : Outcome) : Prop :=
  contest o' = contest o /\
  forall x y, beats o' x y = true <-> closure_of o S x y.

(** All the facts of [S] except [P]. *)
Definition all_but (P : fact) (S : fact -> Prop) : fact -> Prop :=
  fun t => S t /\ t <> P.

(** The exclusion set of the leave-one-out pass on the remaining facts [S]:
    the facts [P] such that the others can be accepted into the outcome as
    it was before the level. *)
Definition excluded (o : Outcome) (S : fact -> Prop) : fact -> Prop :=
  fun P => S P /\ acceptable o (all_but P S).

Definition not_excluded (o : Outcome) (S : fact -> Prop) : fact -> Prop :=
  fun t => S t /\ ~ excluded o S t.

(** The level is given up: the exclusion set is empty, or it is the whole
    remaining set, or the facts that are not excluded contradict each other
    again. *)
Definition abandoned (o : Outcome) (S : fact -> Prop) : Prop :=
  (forall P, S P -> ~ excluded o S P) \/
  (forall P, S P -> excluded o S P) \/
  ~ acceptable o (not_excluded o S).

(** The outcome [o'] the leave-one-out heuristic leaves: [o] itself when the
    level is given up, and otherwise [o] after a bulk accept of the facts
    that are not excluded. *)
Definition leave_one_out_spec (o : Outcome) (S : fact -> Prop) (o' : Outcome)
  : Prop :=
  (abandoned o S -> o' = o) /\
  (~ abandoned o S -> adopted o (not_excluded o S) o').

(** The facts of a level that the outcome so far lets through: the loser
    does not already beat the winner. *)
Definition remaining_of (o : Outcome) (facts : fact -> Prop) : fact -> Prop :=
  fun t => facts t /\ beats o (snd t) (fst t) = false.

(** One level: the remaining facts are accepted in bulk when that raises no
    contradiction, and the leave-one-out heuristic decides otherwise. *)
Definition level_spec (o : Outcome) (facts : fact -> Prop) (o' : Outcome) : Prop :=
  (acceptable o (remaining_of o facts) -> adopted o (remaining_of o facts) o') /\
  (~ acceptable o (remaining_of o facts) ->
   leave_one_out_spec o (remaining_of o facts) o').

(** The pairs of the table whose margin is [v]. *)
Definition facts_with (m : dict fact Z) (v : Z) : fact -> Prop :=
  fun t => get t m = Some v.

(** The levels [vs] of the table taken one after the other. *)
Inductive ranked_from (m : dict fact Z) : list Z -> Outcome -> Outcome -> Prop :=
| ranked_done (o : Outcome) : ranked_from m [] o o
| ranked_level (v : Z) (vs : list Z) (o o1 o' : Outcome) :
    level_spec o (facts_with m v) o1 ->
    ranked_from m vs o1 o' ->
    ranked_from m (v :: vs) o o'.

(** * Properties *)

(** ** Dicts *)

Section DictFacts.
Context {K V : Type} `{EqKey K}.

Lemma keyb_refl (a : K) : keyb a a = true.
Proof. destruct (keyb_spec a a); congruence. Qed.

Lemma keyb_eq (a b : K) : keyb a b = true <-> a = b.
Proof. destruct (keyb_spec a b); split; congruence. Qed.

Lemma keyb_neq (a b : K) : keyb a b = false <-> a <> b.
Proof. destruct (keyb_spec a b); split; congruence. Qed.

Lemma keyb_sym (a b : K) : keyb a b = keyb b a.
Proof. destruct (keyb_spec a b); destruct (keyb_spec b a); congruence. Qed.

Lemma get_set_same (k : K) (v : V) (d : dict K V) : get k (set k v d) = Some v.
Proof.
  induction d as [|[k' v'] d IH]; simpl.
  - now rewrite keyb_refl.
  - destruct (keyb k k') eqn:E; simpl; rewrite E; auto.
Qed.

Lemma get_set_other (k k' : K) (v : V) (d : dict K V) :
  k' <> k -> get k' (set k v d) = get k' d.
Proof.
  intros Hne. induction d as [|[k0 v0] d IH]; simpl.
  - apply keyb_neq in Hne. now rewrite Hne.
  - destruct (keyb k k0) eqn:E; simpl.
    + apply keyb_eq in E. subst k0.
      apply keyb_neq in Hne. now rewrite Hne.
    + now rewrite IH.
Qed.

Lemma get_set (k k' : K) (v : V) (d : dict K V) :
  get k' (set k v d) = if keyb k' k then Some v else get k' d.
Proof.
  destruct (keyb_spec k' k) as [->|Hne].
  - apply get_set_same.
  - now apply get_set_other.
Qed.

Lemma truthy_set (k : K) (v : V) (d : dict K V) : truthy (set k v d) = true.
Proof. destruct d as [|[k' v'] d]; simpl; auto. destruct (keyb k k'); auto. Qed.

Lemma keys_set_incl (k : K) (v : V) (d : dict K V) x :
  In x (keys (set k v d)) -> x = k \/ In x (keys d).
Proof.
  unfold keys. induction d as [|[k' v'] d IH]; simpl.
  - intuition.
  - destruct (keyb k k') eqn:E; simpl; intuition.
Qed.

Lemma keys_set_keep (k : K) (v : V) (d : dict K V) x :
  In x (keys d) -> In x (keys (set k v d)).
Proof.
  unfold keys. induction d as [|[k' v'] d IH]; simpl.
  - intuition.
  - destruct (keyb k k') eqn:E; simpl; intuition.
Qed.

Lemma get_some_in_keys (k : K) (v : V) (d : dict K V) :
  get k d = Some v -> In k (keys d).
Proof.
  unfold keys. induction d as [|[k' v'] d IH]; simpl; [discriminate|].
  destruct (keyb_spec k k'); auto.
Qed.

Lemma get_none_not_in (k : K) (d : dict K V) :
  get k d = None <-> ~ In k (keys d).
Proof.
  unfold keys. induction d as [|[k' v'] d IH]; simpl.
  - tauto.
  - destruct (keyb_spec k k') as [->|Hne].
    + split; [discriminate | tauto].
    + rewrite IH. split; [intros E [->|]; tauto | tauto].
Qed.

Lemma get_some_in (d : dict K V) (k : K) (v : V) :
  get k d = Some v -> In (k, v) d.
Proof.
  induction d as [|[k' v'] d IH]; simpl; [discriminate|].
  destruct (keyb_spec k k') as [->|Hne].
  - intros E. inversion E. now left.
  - intros E. right. auto.
Qed.

Lemma in_set_inv (k : K) (v : V) (d : dict K V) k0 v0 :
  In (k0, v0) (set k v d) -> (k0 = k /\ v0 = v) \/ In (k0, v0) d.
Proof.
  induction d as [|[k' v'] d IH]; simpl.
  - intros [E|[]]. inversion E; auto.
  - destruct (keyb_spec k k') as [->|Hne]; simpl.
    + intros [E|Hin]; [inversion E; auto | auto].
    + intros [E|Hin]; [auto | apply IH in Hin; tauto].
Qed.

Lemma keys_set_nodup (k : K) (v : V) (d : dict K V) :
  NoDup (keys d) -> NoDup (keys (set k v d)).
Proof.
  unfold keys. induction d as [|[k' v'] d IH]; simpl; intros Hnd.
  - constructor; [intros [] | constructor].
  - inversion Hnd as [|? ? Hnotin Hnd']; subst.
    destruct (keyb_spec k k') as [->|Hne]; simpl.
    + now constructor.
    + constructor; auto. intros Hin.
      apply (keys_set_incl k v d k') in Hin. destruct Hin as [->|Hin]; tauto.
Qed.

Lemma get_in_nodup (m : dict K V) (k : K) (v : V) :
  NoDup (keys m) -> In (k, v) m -> get k m = Some v.
Proof.
  unfold keys. induction m as [|[k' v'] m IH]; simpl; intros Hnd Hin; [tauto|].
  inversion Hnd as [|? ? Hnotin Hnd']; subst.
  destruct Hin as [E|Hin].
  - inversion E; subst. now rewrite keyb_refl.
  - destruct (keyb_spec k k') as [->|Hne]; auto.
    exfalso. apply Hnotin. apply in_map_iff. exists (k', v). auto.
Qed.

(** Setting a key the dict does not have appends it. *)
Lemma set_fresh (k : K) (v : V) (d : dict K V) :
  ~ In k (keys d) -> set k v d = d ++ [(k, v)].
Proof.
  unfold keys. induction d as [|[k' v'] d IH]; simpl; intros Hnin; auto.
  destruct (keyb_spec k k') as [->|Hne]; [tauto|].
  rewrite IH; tauto.
Qed.

Lemma length_set_le (k : K) (v : V) (d : dict K V) :
  (List.length (set k v d) <= S (List.length d))%nat.
Proof.
  induction d as [|[k' v'] d IH]; simpl; [lia|].
  destruct (keyb k k'); simpl; lia.
Qed.

End DictFacts.

(** ** The tables of an Outcome *)

Lemma marked_mark (t : table) (a b x y : string) :
  marked (mark t a b) x y = marked t x y || (keyb x a && keyb y b).
Proof.
  unfold marked, mark.
  destruct (keyb_spec x a) as [->|Hne].
  - destruct (get a t) as [[|[k v] dic]|] eqn:E.
    + rewrite get_set_same. simpl. destruct (keyb y b); reflexivity.
    + rewrite get_set_same, truthy_set, get_set. simpl.
      destruct (keyb y b); simpl.
      * now rewrite orb_true_r.
      * now rewrite orb_false_r.
    + rewrite get_set_same. simpl. destruct (keyb y b); reflexivity.
  - simpl. rewrite orb_false_r.
    destruct (get a t) as [[|[k v] dic]|]; now rewrite get_set_other.
Qed.

Lemma beats_marked (o : Outcome) (a b : string) :
  beats o a b = marked (higher o) b a.
Proof. unfold beats. now destruct (marked (higher o) b a). Qed.

Lemma beats_record_fact (o : Outcome) (w l a b : string) :
  beats (record_fact o w l) a b = beats o a b || (keyb a w && keyb b l).
Proof.
  rewrite !beats_marked. simpl. rewrite marked_mark.
  f_equal. apply andb_comm.
Qed.

Lemma marked_in_keys_of (t : table) (a b : string) :
  marked t a b = true -> In b (keys_of t a).
Proof.
  unfold marked, keys_of. destruct (get a t) as [dic|]; [|discriminate].
  intros E. apply andb_prop in E. destruct E as [_ E].
  destruct (get b dic) eqn:G; [|discriminate].
  now apply get_some_in_keys in G.
Qed.

Lemma mirror_record_fact (o : Outcome) (w l : string) :
  mirror o -> mirror (record_fact o w l).
Proof.
  intros M a b. simpl. rewrite !marked_mark, M. f_equal. apply andb_comm.
Qed.

(** [compatible] on distinct candidates, read off the two tables. *)
Lemma compatible_neq (o : Outcome) (a b : string) :
  a <> b ->
  compatible o a b = Return (negb (marked (higher o) a b) && negb (marked (lower o) b a)).
Proof.
  intros Hne. unfold compatible.
  apply keyb_neq in Hne. rewrite Hne.
  destruct (marked (higher o) a b); simpl; auto.
  destruct (marked (lower o) b a); reflexivity.
Qed.

Lemma compatible_neq_mirror (o : Outcome) (a b : string) :
  a <> b -> mirror o -> compatible o a b = Return (negb (beats o b a)).
Proof.
  intros Hne M. rewrite (compatible_neq o a b Hne), (M b a), beats_marked.
  now destruct (marked (higher o) a b).
Qed.

Lemma compatible_eq (o : Outcome) (a : string) :
  compatible o a a = Raise (Exception "Entry cannot beat itself.").
Proof. unfold compatible. now rewrite keyb_refl. Qed.

Lemma compatible_true_inv (o : Outcome) (a b : string) :
  compatible o a b = Return true ->
  a <> b /\ beats o b a = false /\ marked (lower o) b a = false.
Proof.
  unfold compatible. rewrite beats_marked.
  destruct (keyb_spec a b); [discriminate|].
  destruct (marked (higher o) a b); [discriminate|].
  destruct (marked (lower o) b a); [discriminate|]. auto.
Qed.

(** ** The work list of [accept] *)

(** What holds of the outcome and the work list at the head of each
    iteration: the tables mirror each other, nothing recorded is reflexive
    or contradicted, and every fact that transitivity asks for is either
    recorded or still on the work list. *)
Record loop_inv (o : Outcome) (facts : list fact) : Prop := {
  inv_mirror : mirror o;
  inv_irrefl : irreflexive o;
  inv_contra : contradiction_free o;
  inv_pending : forall x y z, beats o x y = true -> beats o y z = true ->
                  beats o x z = true \/ In (x, z) facts
}.

Lemma in_consequences_higher (o : Outcome) (w l x : string) :
  beats o x w = true ->
  beats o x l = true \/ In (x, l) (consequences o w l).
Proof.
  intros Hb. destruct (beats o x l) eqn:E; [now left | right].
  unfold consequences. apply in_or_app. left.
  apply in_map_iff. exists x. split; auto.
  apply filter_In. split.
  - apply marked_in_keys_of. now rewrite <- beats_marked.
  - now rewrite E.
Qed.

Lemma in_consequences_lower (o : Outcome) (w l z : string) :
  mirror o -> beats o l z = true ->
  beats o w z = true \/ In (w, z) (consequences o w l).
Proof.
  intros M Hb. destruct (beats o w z) eqn:E; [now left | right].
  unfold consequences. apply in_or_app. right.
  apply in_map_iff. exists z. split; auto.
  apply filter_In. split.
  - apply marked_in_keys_of. now rewrite M, <- beats_marked.
  - now rewrite E.
Qed.

Lemma loop_inv_skip (o : Outcome) (w l : string) (facts : list fact) :
  loop_inv o ((w, l) :: facts) -> beats o w l = true -> loop_inv o facts.
Proof.
  intros [M I C P] Hb. split; auto.
  intros x y z Hxy Hyz. destruct (P x y z Hxy Hyz) as [|[E|Hin]]; auto.
  inversion E; subst. now left.
Qed.

Lemma loop_inv_record (o : Outcome) (w l : string) (facts : list fact) :
  loop_inv o ((w, l) :: facts) ->
  compatible o w l = Return true ->
  loop_inv (record_fact o w l)
           (facts ++ consequences (record_fact o w l) w l).
Proof.
  intros [M I C P] Hc.
  apply compatible_true_inv in Hc. destruct Hc as (Hne & Hlw & _).
  assert (M' : mirror (record_fact o w l)) by now apply mirror_record_fact.
  split; auto.
  - intros a. rewrite beats_record_fact, I. cbn [orb].
    destruct (keyb_spec a w) as [->|]; cbn [andb]; auto.
    now apply keyb_neq.
  - intros a b. rewrite !beats_record_fact.
    intros Hab Hba.
    apply orb_prop in Hab. apply orb_prop in Hba.
    destruct Hab as [Hab|Hab]; destruct Hba as [Hba|Hba];
      try (apply andb_prop in Hab; destruct Hab as [E1 E2];
           apply keyb_eq in E1; apply keyb_eq in E2; subst);
      try (apply andb_prop in Hba; destruct Hba as [E3 E4];
           apply keyb_eq in E3; apply keyb_eq in E4; subst);
      try congruence.
    eapply C; eauto.
  - intros x y z Hxy Hyz.
    assert (Hxy' := Hxy). assert (Hyz' := Hyz).
    rewrite beats_record_fact in Hxy, Hyz.
    apply orb_prop in Hxy. apply orb_prop in Hyz.
    destruct Hxy as [Hxy|Hxy]; destruct Hyz as [Hyz|Hyz];
      try (apply andb_prop in Hxy; destruct Hxy as [E1 E2];
           apply keyb_eq in E1; apply keyb_eq in E2; subst);
      try (apply andb_prop in Hyz; destruct Hyz as [E3 E4];
           apply keyb_eq in E3; apply keyb_eq in E4; subst).
    + destruct (P x y z Hxy Hyz) as [Hb|[E|Hin]].
      * left. rewrite beats_record_fact, Hb. reflexivity.
      * inversion E; subst. left.
        rewrite beats_record_fact, !keyb_refl. apply orb_true_r.
      * right. apply in_or_app. now left.
    + destruct (@in_consequences_higher (record_fact o w l) w l x Hxy') as [Hb|Hin];
        [now left | right; apply in_or_app; now right].
    + destruct (@in_consequences_lower (record_fact o w l) w l z M' Hyz') as [Hb|Hin];
        [now left | right; apply in_or_app; now right].
    + congruence.
Qed.

Lemma accept_loop_inv (fuel : nat) :
  forall (o : Outcome) (facts : list fact) (o' : Outcome),
    loop_inv o facts ->
    accept_loop fuel o facts = Some (Return o') ->
    loop_inv o' [].
Proof.
  induction fuel as [|fuel IH]; intros o facts o' Hinv Hrun.
  - destruct facts as [|[w l] facts]; simpl in Hrun; [|discriminate].
    inversion Hrun; subst. exact Hinv.
  - destruct facts as [|[w l] facts]; simpl in Hrun.
    + inversion Hrun; subst. exact Hinv.
    + destruct (compatible o w l) as [[|]|e] eqn:Hc; try discriminate.
      destruct (beats o w l) eqn:Hb.
      * eapply IH; [|exact Hrun]. eapply loop_inv_skip; eauto.
      * eapply IH; [|exact Hrun]. now apply loop_inv_record.
Qed.

Lemma loop_inv_start (o : Outcome) (a b : string) :
  mirror o -> irreflexive o -> contradiction_free o -> transitively_closed o ->
  loop_inv o [(a, b)].
Proof.
  intros M I C T. split; auto.
  intros x y z Hxy Hyz. left. eapply T; eauto.
Qed.

Lemma accept_returns_loop (o o' : Outcome) (a b : string) :
  accept o a b = Return o' ->
  accept_loop (accept_fuel o a b) o [(a, b)] = Some (Return o').
Proof.
  unfold accept.
  destruct (accept_loop (accept_fuel o a b) o [(a, b)]) as [r|]; [|discriminate].
  now intros ->.
Qed.

(** Every reachable outcome satisfies the invariants of the data model. *)
Lemma reachable_inv (o : Outcome) :
  reachable o ->
  mirror o /\ irreflexive o /\ contradiction_free o /\ transitively_closed o.
Proof.
  induction 1 as [c|o o' a b Hr (M & I & C & T) Hne Hacc].
  - repeat split; intro; intros; try reflexivity; discriminate.
  - apply accept_returns_loop in Hacc.
    apply accept_loop_inv in Hacc; [|now apply loop_inv_start].
    destruct Hacc as [M' I' C' P']. repeat split; auto.
    intros x y z Hxy Hyz. destruct (P' x y z Hxy Hyz) as [|[]]; auto.
Qed.

(** ** [accept] always returns or raises *)

Lemma table_size_set_some (t : table) (a : string) (old new : dict string bool) :
  get a t = Some old ->
  (table_size (set a new t) + List.length old = table_size t + List.length new)%nat.
Proof.
  unfold table_size. induction t as [|[k d] t IH]; simpl; [discriminate|].
  destruct (keyb_spec a k) as [->|Hne]; simpl.
  - intros E. inversion E; subst. lia.
  - intros E. specialize (IH E). lia.
Qed.

Lemma table_size_set_none (t : table) (a : string) (new : dict string bool) :
  get a t = None ->
  table_size (set a new t) = (table_size t + List.length new)%nat.
Proof.
  unfold table_size. induction t as [|[k d] t IH]; simpl; [lia|].
  destruct (keyb_spec a k) as [->|Hne]; simpl; [discriminate|].
  intros E. rewrite (IH E). lia.
Qed.

Lemma table_size_mark (t : table) (a b : string) :
  (table_size (mark t a b) <= S (table_size t))%nat.
Proof.
  unfold mark. destruct (get a t) as [[|kv dic]|] eqn:E.
  - pose proof (@table_size_set_some t a _ [(b, true)] E) as HS.
    cbn [List.length] in HS. lia.
  - pose proof (@table_size_set_some t a _ (set b true (kv :: dic)) E) as HS.
    pose proof (length_set_le b true (kv :: dic)). lia.
  - rewrite (@table_size_set_none t a [(b, true)] E). cbn [List.length]. lia.
Qed.

Lemma in_table_size (t : table) (a : string) (dic : dict string bool) :
  In (a, dic) t -> (List.length dic <= table_size t)%nat.
Proof.
  unfold table_size. induction t as [|[k d] t IH]; simpl; [tauto|].
  intros [E|Hin]; [inversion E; subst; lia | specialize (IH Hin); lia].
Qed.

Lemma keys_of_length (t : table) (a : string) :
  (List.length (keys_of t a) <= table_size t)%nat.
Proof.
  unfold keys_of. destruct (get a t) as [dic|] eqn:E; simpl; [|lia].
  unfold keys. rewrite length_map. eapply in_table_size, get_some_in, E.
Qed.

Lemma consequences_length (o : Outcome) (w l : string) :
  (List.length (consequences o w l) <= cells o)%nat.
Proof.
  unfold consequences, cells. rewrite length_app, !length_map.
  pose proof (filter_length_le (fun key => negb (beats o key l)) (keys_of (higher o) w)).
  pose proof (filter_length_le (fun key => negb (beats o w key)) (keys_of (lower o) l)).
  pose proof (keys_of_length (higher o) w).
  pose proof (keys_of_length (lower o) l). lia.
Qed.

Lemma cells_record_fact (o : Outcome) (w l : string) :
  (cells (record_fact o w l) <= cells o + 2)%nat.
Proof.
  unfold cells. simpl.
  pose proof (table_size_mark (higher o) l w).
  pose proof (table_size_mark (lower o) w l). lia.
Qed.

Lemma in_table_cands (t : table) (x : string) :
  In x (table_cands t) <->
  exists k dic, In (k, dic) t /\ (x = k \/ In x (keys dic)).
Proof.
  unfold table_cands. rewrite in_flat_map. split.
  - intros [[k dic] [Hin Hx]]. exists k, dic. simpl in Hx. intuition.
  - intros (k & dic & Hin & Hx). exists (k, dic). simpl. intuition.
Qed.

Lemma table_cands_mark (t : table) (a b x : string) :
  In x (table_cands (mark t a b)) -> x = a \/ x = b \/ In x (table_cands t).
Proof.
  rewrite !in_table_cands. intros (k & dic & Hin & Hx).
  unfold mark in Hin.
  destruct (get a t) as [[|kv old]|] eqn:E; apply in_set_inv in Hin;
    destruct Hin as [[-> ->]|Hin];
    try (right; right; exists k, dic; tauto).
  - destruct Hx as [->|[Hx|[]]]; simpl in *; auto.
  - destruct Hx as [->|Hx]; auto.
    apply keys_set_incl in Hx. destruct Hx as [->|Hx]; auto.
    right; right. exists a, (kv :: old). split; auto.
    now apply get_some_in.
  - destruct Hx as [->|[Hx|[]]]; simpl in *; auto.
Qed.

Lemma cands_record_fact (o : Outcome) (w l x : string) :
  In x (cands (record_fact o w l)) -> x = w \/ x = l \/ In x (cands o).
Proof.
  unfold cands. simpl. rewrite !in_app_iff.
  intros [Hin|Hin]; apply table_cands_mark in Hin; tauto.
Qed.

Lemma keys_of_in_cands (t : table) (a x : string) :
  In x (keys_of t a) -> In x (table_cands t).
Proof.
  unfold keys_of. destruct (get a t) as [dic|] eqn:E; [|intros []].
  intros Hin. apply in_table_cands. exists a, dic. split; auto.
  now apply get_some_in.
Qed.

Lemma consequences_in (o : Outcome) (w l : string) (p : fact) :
  In p (consequences o w l) ->
  (In (fst p) (cands o) \/ fst p = w) /\ (In (snd p) (cands o) \/ snd p = l).
Proof.
  unfold consequences, cands. rewrite in_app_iff, !in_map_iff.
  intros [(key & <- & Hin)|(key & <- & Hin)];
    apply filter_In in Hin; destruct Hin as [Hin _];
    apply keys_of_in_cands in Hin; simpl; rewrite ?in_app_iff; intuition.
Qed.

Lemma filter_length_mono {A : Type} (f g : A -> bool) (l : list A) :
  (forall x, In x l -> f x = true -> g x = true) ->
  (List.length (filter f l) <= List.length (filter g l))%nat.
Proof.
  induction l as [|x l IH]; simpl; intros Hfg; [lia|].
  assert (IH' := IH (fun y Hy => Hfg y (or_intror Hy))).
  pose proof (Hfg x (or_introl eq_refl)) as Hx.
  destruct (f x); destruct (g x); simpl; try lia;
    specialize (Hx eq_refl); discriminate.
Qed.

Lemma filter_length_strict {A : Type} (f g : A -> bool) (l : list A) (x0 : A) :
  (forall x, In x l -> f x = true -> g x = true) ->
  In x0 l -> f x0 = false -> g x0 = true ->
  (List.length (filter f l) < List.length (filter g l))%nat.
Proof.
  induction l as [|x l IH]; simpl; intros Hfg Hin Hf Hg; [tauto|].
  pose proof (@filter_length_mono A f g l (fun y Hy => Hfg y (or_intror Hy))) as Hle.
  destruct Hin as [->|Hin].
  - rewrite Hf, Hg. simpl. lia.
  - assert (IH' := IH (fun y Hy => Hfg y (or_intror Hy)) Hin Hf Hg).
    pose proof (Hfg x (or_introl eq_refl)) as Hx.
    destruct (f x); destruct (g x); simpl; try lia;
      specialize (Hx eq_refl); discriminate.
Qed.

Lemma missing_record_fact (U : list string) (o : Outcome) (w l : string) :
  In w U -> In l U -> beats o w l = false ->
  (missing U (record_fact o w l) < missing U o)%nat.
Proof.
  intros Hw Hl Hb. unfold missing.
  apply filter_length_strict with (x0 := (w, l)).
  - intros [a b] _. simpl. rewrite beats_record_fact.
    destruct (beats o a b); simpl; auto.
  - now apply in_prod.
  - simpl. rewrite beats_record_fact, !keyb_refl. now rewrite orb_true_r.
  - simpl. now rewrite Hb.
Qed.

Lemma potential_step (U : list string) (o : Outcome) (w l : string) (facts : list fact) :
  In w U -> In l U -> beats o w l = false ->
  (potential U (record_fact o w l) (facts ++ consequences (record_fact o w l) w l)
   < potential U o ((w, l) :: facts))%nat.
Proof.
  intros Hw Hl Hb. unfold potential. rewrite length_app. simpl.
  pose proof (missing_record_fact U o w l Hw Hl Hb) as Hm.
  pose proof (cells_record_fact o w l) as Hc.
  pose proof (consequences_length (record_fact o w l) w l) as Hq.
  set (m' := missing U (record_fact o w l)) in *.
  set (m := missing U o) in *.
  set (s' := cells (record_fact o w l)) in *.
  set (s := cells o) in *.
  set (q := List.length (consequences (record_fact o w l) w l)) in *.
  assert (m' * (s' + 2 * m' + 1) <= (m - 1) * (s + 2 + 2 * (m - 1) + 1))%nat
    by (apply Nat.mul_le_mono; lia).
  assert (m = S (m - 1)) as -> by lia.
  nia.
Qed.

(** With at least [potential] iterations the loop empties its work list or
    raises. *)
Lemma accept_loop_potential (U : list string) (fuel : nat) :
  forall (o : Outcome) (facts : list fact),
    (forall x, In x (cands o) -> In x U) ->
    (forall p, In p facts -> In (fst p) U /\ In (snd p) U) ->
    (potential U o facts <= fuel)%nat ->
    accept_loop fuel o facts <> None.
Proof.
  induction fuel as [|fuel IH]; intros o facts HU HF Hpot.
  - destruct facts as [|[w l] facts]; simpl; [discriminate|].
    unfold potential in Hpot. simpl in Hpot. lia.
  - destruct facts as [|[w l] facts]; simpl; [discriminate|].
    destruct (HF (w, l) (or_introl eq_refl)) as [Hw Hl]. simpl in Hw, Hl.
    destruct (compatible o w l) as [[|]|e]; try discriminate.
    destruct (beats o w l) eqn:Hb.
    + apply IH; auto.
      * intros p Hp. apply HF. now right.
      * unfold potential in *. simpl in Hpot. lia.
    + apply IH.
      * intros x Hx. apply cands_record_fact in Hx.
        destruct Hx as [->|[->|Hx]]; auto.
      * intros p Hp. apply in_app_or in Hp. destruct Hp as [Hp|Hp].
        -- apply HF. now right.
        -- apply consequences_in in Hp.
           destruct Hp as [[H1| ->] [H2| ->]]; split; auto;
             match goal with
             | H : In _ (cands (record_fact _ _ _)) |- _ =>
                 apply cands_record_fact in H; destruct H as [->|[->|H]]; auto
             end.
      * pose proof (@potential_step U o w l facts Hw Hl Hb). lia.
Qed.

(** The iterations [accept] allows are enough on every outcome. *)
Lemma accept_loop_fuel (o : Outcome) (winner loser : string) :
  accept_loop (accept_fuel o winner loser) o [(winner, loser)] <> None.
Proof.
  unfold accept_fuel.
  apply accept_loop_potential
    with (U := nodup string_dec (winner :: loser :: cands o)).
  - intros x Hx. apply nodup_In. right; right; exact Hx.
  - intros p [<-|[]]. split; apply nodup_In; simpl; auto.
  - lia.
Qed.

Lemma accept_loop_more_fuel (fuel : nat) :
  forall (o : Outcome) (facts : list fact) (r : Py Outcome) (fuel' : nat),
    accept_loop fuel o facts = Some r -> (fuel <= fuel')%nat ->
    accept_loop fuel' o facts = Some r.
Proof.
  induction fuel as [|fuel IH]; intros o facts r fuel' Hrun Hle.
  - destruct facts as [|[w l] facts]; simpl in Hrun; [|discriminate].
    destruct fuel'; exact Hrun.
  - destruct fuel' as [|fuel']; [lia|].
    destruct facts as [|[w l] facts]; simpl in *; auto.
    destruct (compatible o w l) as [[|]|e]; auto.
    destruct (beats o w l); apply IH; auto; lia.
Qed.

(** [accept] is the loop run to its end: whatever number of iterations
    empties the work list gives the result of [accept]. *)
Lemma accept_loop_accept (fuel : nat) (o : Outcome) (a b : string) (r : Py Outcome) :
  accept_loop fuel o [(a, b)] = Some r -> accept o a b = r.
Proof.
  intros Hrun. unfold accept.
  destruct (accept_loop (accept_fuel o a b) o [(a, b)]) as [r'|] eqn:E.
  - destruct (Nat.le_ge_cases fuel (accept_fuel o a b)) as [Hle|Hle].
    + rewrite (accept_loop_more_fuel _ _ _ _ _ Hrun Hle) in E. congruence.
    + rewrite (accept_loop_more_fuel _ _ _ _ _ E Hle) in Hrun. congruence.
  - now apply accept_loop_fuel in E.
Qed.

(** ** Reachable outcomes *)

Lemma reachable_accept_each (tups : list fact) :
  forall o o', reachable o ->
    accept_each o tups = Return o' -> reachable o'.
Proof.
  unfold accept_each.
  induction tups as [|[a b] tups IH] using rev_ind; intros o o' Hr Hrun.
  - simpl in Hrun. now inversion Hrun; subst.
  - rewrite fold_left_app in Hrun. simpl in Hrun.
    destruct (fold_left _ tups (Return o)) as [o1|e] eqn:E; [|discriminate].
    simpl in Hrun.
    assert (Hne : a <> b).
    { intros ->. unfold accept in Hrun. unfold accept_fuel in Hrun.
      simpl in Hrun. rewrite compatible_eq in Hrun. discriminate. }
    eapply reach_accept; [eapply IH; eauto | exact Hne | exact Hrun].
Qed.

Lemma five_outcome_accepts :
  accept_each (Outcome_init five) five_facts = Return five_outcome.
Proof. vm_compute. reflexivity. Qed.

Lemma five_outcome_reachable : reachable five_outcome.
Proof.
  eapply reachable_accept_each; [apply reach_blank | apply five_outcome_accepts].
Qed.

(** No candidate is ever recorded under itself. *)
Lemma no_self_mark (t : table) (a b : string) :
  a <> b -> no_self t -> no_self (mark t a b).
Proof.
  intros Hne Hn k dic Hin. unfold mark in Hin.
  destruct (get a t) as [[|kv old]|] eqn:E; apply in_set_inv in Hin;
    destruct Hin as [[-> ->]|Hin]; try (now apply Hn).
  - simpl. intros [->|[]]. now apply Hne.
  - intros Hk. apply keys_set_incl in Hk. destruct Hk as [->|Hk].
    + now apply Hne.
    + apply get_some_in in E. exact (Hn a (kv :: old) E Hk).
  - simpl. intros [->|[]]. now apply Hne.
Qed.

Lemma accept_loop_no_self (fuel : nat) :
  forall (o : Outcome) (facts : list fact) (o' : Outcome),
    no_self (higher o) -> no_self (lower o) ->
    accept_loop fuel o facts = Some (Return o') ->
    no_self (higher o') /\ no_self (lower o').
Proof.
  induction fuel as [|fuel IH]; intros o facts o' Hh Hl Hrun.
  - destruct facts as [|[w l] facts]; simpl in Hrun; [|discriminate].
    inversion Hrun; subst. auto.
  - destruct facts as [|[w l] facts]; simpl in Hrun.
    + inversion Hrun; subst. auto.
    + destruct (compatible o w l) as [[|]|e] eqn:Hc; try discriminate.
      apply compatible_true_inv in Hc. destruct Hc as (Hne & _).
      destruct (beats o w l).
      * eapply IH; eauto.
      * eapply IH; [| |exact Hrun]; simpl; apply no_self_mark; auto.
Qed.

Lemma reachable_no_self (o : Outcome) :
  reachable o -> no_self (higher o) /\ no_self (lower o).
Proof.
  induction 1 as [c|o o' a b Hr [Hh Hl] Hne Hacc].
  - split; intros a dic [].
  - apply accept_returns_loop in Hacc.
    eapply accept_loop_no_self; eauto.
Qed.

(** ** [clone] *)

(** Copying a table that is a dict (no key twice) gives the same table. *)
Lemma copy_table_same (t : table) : NoDup (keys t) -> copy_table t = t.
Proof.
  intros Hnd. unfold copy_table.
  assert (H : forall t2 t1, t = t1 ++ t2 ->
            fold_left (fun res key =>
                         match get key t with
                         | Some dic => set key dic res
                         | None => res
                         end) (keys t2) t1 = t).
  { induction t2 as [|[k d] t2 IH]; intros t1 E; simpl.
    - now rewrite app_nil_r in E.
    - assert (Hin : In (k, d) t) by (rewrite E; apply in_elt).
      rewrite (get_in_nodup t k d Hnd Hin).
      assert (Hfresh : ~ In k (keys t1)).
      { subst t. unfold keys in *. rewrite map_app in Hnd. simpl in Hnd.
        apply NoDup_remove_2 in Hnd. rewrite in_app_iff in Hnd. tauto. }
      rewrite (set_fresh k d t1 Hfresh). apply IH.
      rewrite E, <- app_assoc. reflexivity. }
  now apply (H t []).
Qed.

Lemma keys_mark_nodup (t : table) (a b : string) :
  NoDup (keys t) -> NoDup (keys (mark t a b)).
Proof.
  intros Hnd. unfold mark.
  destruct (get a t) as [[|kv dic]|]; now apply keys_set_nodup.
Qed.

Lemma accept_loop_nodup (fuel : nat) :
  forall (o : Outcome) (facts : list fact) (o' : Outcome),
    NoDup (keys (higher o)) -> NoDup (keys (lower o)) ->
    accept_loop fuel o facts = Some (Return o') ->
    NoDup (keys (higher o')) /\ NoDup (keys (lower o')).
Proof.
  induction fuel as [|fuel IH]; intros o facts o' Hh Hl Hrun.
  - destruct facts as [|[w l] facts]; simpl in Hrun; [|discriminate].
    inversion Hrun; subst. auto.
  - destruct facts as [|[w l] facts]; simpl in Hrun.
    + inversion Hrun; subst. auto.
    + destruct (compatible o w l) as [[|]|e]; try discriminate.
      destruct (beats o w l).
      * eapply IH; eauto.
      * eapply IH; [| |exact Hrun]; simpl; now apply keys_mark_nodup.
Qed.

(** On a reachable outcome [clone] returns an outcome with the same
    tables. *)
Lemma clone_reachable (o : Outcome) : reachable o -> clone o = o.
Proof.
  intros Hr.
  assert (Hnd : NoDup (keys (higher o)) /\ NoDup (keys (lower o))).
  { induction Hr as [c|o o' a b Hr [Hh Hl] Hne Hacc].
    - split; constructor.
    - apply accept_returns_loop in Hacc.
      eapply accept_loop_nodup; eauto. }
  destruct Hnd as [Hh Hl]. unfold clone.
  rewrite (copy_table_same _ Hh), (copy_table_same _ Hl).
  now destruct o.
Qed.

(** ** Claims about the Outcome relation *)

(** C3: every outcome obtained from a blank one by calls [accept(A, B)],
    A different from B, that all return is irreflexive (no candidate beats
    itself), free of contradictions (never both A beats B and B beats A) and
    transitively closed (A beats B and B beats C give A beats C). *)
Theorem accept_keeps_order (o : Outcome) :
  reachable o ->
  irreflexive o /\ contradiction_free o /\ transitively_closed o.
Proof.
  intros Hr. apply reachable_inv in Hr. tauto.
Qed.

Lemma accept_keeps_order_witness :
  reachable five_outcome /\
  irreflexive five_outcome /\ contradiction_free five_outcome /\
  transitively_closed five_outcome.
Proof.
  split; [exact five_outcome_reachable|].
  apply (accept_keeps_order five_outcome). exact five_outcome_reachable.
Defined.

(** C5: [compatible(A, B)] raises exactly when A = B; when A differs from B
    and [lower] mirrors [higher], it returns the negation of [beats(B, A)]. *)
Theorem compatible_is_not_beaten (o : Outcome) (a b : string) :
  (returned (compatible o a b) = false <-> a = b) /\
  (a <> b -> mirror o -> compatible o a b = Return (negb (beats o b a))).
Proof.
  split.
  - destruct (string_dec a b) as [->|Hne].
    + rewrite compatible_eq. simpl. tauto.
    + rewrite (compatible_neq o a b Hne). simpl. split; [discriminate | tauto].
  - apply compatible_neq_mirror.
Qed.

Lemma compatible_is_not_beaten_witness :
  compatible five_outcome "5" "3" = Return (negb (beats five_outcome "3" "5")).
Proof.
  apply (proj2 (compatible_is_not_beaten five_outcome "5" "3")).
  - discriminate.
  - exact (proj1 (reachable_inv five_outcome five_outcome_reachable)).
Defined.

(** Tables that mirror each other record a contradiction only when [beats]
    shows one. *)
Lemma mirror_no_contradiction (o : Outcome) :
  mirror o -> contradiction_free o -> no_contradiction_recorded o.
Proof.
  intros M C a b. unfold recorded. rewrite !M, !orb_diag, <- !beats_marked.
  apply C.
Qed.

(** C9: when [beats(A, B)] already holds in an outcome whose tables record
    no contradiction, [accept(A, B)] returns and leaves [higher] and [lower]
    as they were. *)
Theorem accept_known_fact (o : Outcome) (a b : string) :
  no_contradiction_recorded o -> beats o a b = true ->
  accept o a b = Return o.
Proof.
  intros C Hb.
  assert (Hab : recorded o a b = true).
  { unfold recorded. now rewrite <- beats_marked, Hb. }
  assert (Hne : a <> b) by (intros ->; exact (C b b Hab Hab)).
  assert (Hba : recorded o b a = false).
  { destruct (recorded o b a) eqn:E; auto. destruct (C a b Hab E). }
  unfold recorded in Hba. apply orb_false_elim in Hba. destruct Hba as [H1 H2].
  apply (accept_loop_accept 1). simpl.
  rewrite (compatible_neq o a b Hne), H1, H2. simpl.
  now rewrite Hb.
Qed.

Lemma accept_known_fact_witness :
  beats five_outcome "3" "5" = true /\
  accept five_outcome "3" "5" = Return five_outcome.
Proof.
  split; [reflexivity|].
  apply (accept_known_fact five_outcome "3" "5").
  - apply mirror_no_contradiction.
    + exact (proj1 (reachable_inv five_outcome five_outcome_reachable)).
    + exact (proj1 (proj2 (proj2 (reachable_inv five_outcome five_outcome_reachable)))).
  - reflexivity.
Defined.

(** C10: in every outcome reachable from a blank one by calls of [accept]
    that return, [beats(A, A)] is False for every candidate A ([beats] has no
    raising path), and neither [higher] nor [lower] records a candidate under
    itself. *)
Theorem beats_self_false (o : Outcome) (a : string) :
  reachable o ->
  beats o a a = false /\ no_self (higher o) /\ no_self (lower o).
Proof.
  intros Hr. split.
  - apply (proj1 (proj2 (reachable_inv o Hr))).
  - now apply reachable_no_self.
Qed.

Lemma beats_self_false_witness :
  beats five_outcome "3" "3" = false /\
  no_self (higher five_outcome) /\ no_self (lower five_outcome).
Proof.
  apply (beats_self_false five_outcome "3"). exact five_outcome_reachable.
Defined.

(** ** The margins table *)

Lemma fold_left_flat_map {A B C : Type} (g : A -> C -> A) (f : B -> list C)
  (l : list B) (acc : A) :
  fold_left (fun acc x => fold_left g (f x) acc) l acc
  = fold_left g (flat_map f l) acc.
Proof.
  revert acc. induction l as [|x l IH]; intros acc; simpl; auto.
  now rewrite fold_left_app, IH.
Qed.

Lemma fold_left_ext_in {A B : Type} (f g : A -> B -> A) (l : list B) :
  (forall acc x, In x l -> f acc x = g acc x) ->
  forall acc, fold_left f l acc = fold_left g l acc.
Proof.
  induction l as [|x l IH]; intros Hfg acc; simpl; auto.
  rewrite Hfg by now left. apply IH. intros; apply Hfg; now right.
Qed.

Lemma ballot_margins_calls (b : ballot) (m : dict fact Z) :
  ballot_margins b m = apply_calls (calls b) m.
Proof.
  unfold ballot_margins, apply_calls, calls.
  rewrite <- fold_left_flat_map. apply fold_left_ext_in. intros m1 ix _.
  rewrite <- fold_left_flat_map. apply fold_left_ext_in. intros m2 row _.
  rewrite <- fold_left_flat_map. apply fold_left_ext_in. intros m3 jx _.
  destruct (jx =? ix)%nat; simpl; auto.
  generalize (nth jx b []) as cols. intros cols. revert m3.
  induction cols as [|col cols IH]; intros m3; simpl; auto.
Qed.

Lemma all_margins_calls (bs : list ballot) (m : dict fact Z) :
  fold_left (fun m b => ballot_margins b m) bs m
  = apply_calls (flat_map calls bs) m.
Proof.
  unfold apply_calls. rewrite <- fold_left_flat_map.
  apply fold_left_ext_in. intros acc b _. apply ballot_margins_calls.
Qed.

Lemma weight_not_called (f : bool -> Z) (p : fact) (cs : list call) :
  called p cs = false -> weight f p cs = 0%Z.
Proof.
  unfold called, weight. induction cs as [|c cs IH]; simpl; auto.
  intros E. apply orb_false_elim in E. destruct E as [E1 E2].
  rewrite E1, (IH E2). reflexivity.
Qed.

(** The entry of a pair after a run of calls: untouched when no call names
    the pair, otherwise the old value (0 when missing) plus the signs of the
    calls for it. *)
Lemma get_apply_calls (p : fact) (cs : list call) :
  forall m : dict fact Z,
    get p (apply_calls cs m)
    = if called p cs
      then Some ((match get p m with Some v => v | None => 0 end)
                 + weight sign p cs)%Z
      else get p m.
Proof.
  unfold apply_calls.
  induction cs as [|[[row col] w] cs IH]; intros m; simpl; auto.
  rewrite IH. unfold applymargin. rewrite get_set.
  rewrite (keyb_sym (row, col) p).
  destruct (keyb p (row, col)) eqn:E; simpl.
  - apply keyb_eq in E. subst p.
    destruct (called (row, col) cs) eqn:Ec.
    + f_equal. unfold sign. destruct w; lia.
    + rewrite (weight_not_called sign _ _ Ec). f_equal. unfold sign.
      destruct w; lia.
  - destruct (called p cs); auto.
Qed.

Lemma called_in (p : fact) (cs : list call) :
  called p cs = true <-> exists w, In (p, w) cs.
Proof.
  unfold called. rewrite existsb_exists. split.
  - intros ([q w] & Hin & E). simpl in E. apply keyb_eq in E. subst q. eauto.
  - intros (w & Hin). exists (p, w). split; auto. simpl. apply keyb_refl.
Qed.

Lemma in_calls (bal : ballot) (a b : string) (w : bool) :
  In ((a, b), w) (calls bal) <->
  exists ix jx, ix <> jx /\ In a (nth ix bal []) /\ In b (nth jx bal [])
                /\ w = (ix <? jx)%nat.
Proof.
  unfold calls. rewrite in_flat_map. split.
  - intros (ix & Hix & H). apply in_flat_map in H. destruct H as (row & Hrow & H).
    apply in_flat_map in H. destruct H as (jx & Hjx & H).
    destruct (Nat.eqb_spec jx ix) as [E|Hne]; [destruct H|].
    apply in_map_iff in H. destruct H as (col & E & Hcol).
    inversion E; subst. exists ix, jx. auto.
  - intros (ix & jx & Hne & Ha & Hb & ->).
    assert (Hix : (ix < List.length bal)%nat).
    { destruct (Nat.lt_ge_cases ix (List.length bal)); auto.
      rewrite nth_overflow in Ha by auto. destruct Ha. }
    assert (Hjx : (jx < List.length bal)%nat).
    { destruct (Nat.lt_ge_cases jx (List.length bal)); auto.
      rewrite nth_overflow in Hb by auto. destruct Hb. }
    exists ix. split; [apply in_seq; lia|].
    apply in_flat_map. exists a. split; auto.
    apply in_flat_map. exists jx. split; [apply in_seq; lia|].
    destruct (Nat.eqb_spec jx ix) as [->|_]; [congruence|].
    apply in_map_iff. exists b. auto.
Qed.

Lemma called_ranked_apart (bs : list ballot) (a b : string) :
  called (a, b) (flat_map calls bs) = true <-> ranked_apart bs a b.
Proof.
  rewrite called_in. unfold ranked_apart. split.
  - intros (w & Hin). apply in_flat_map in Hin. destruct Hin as (bal & Hbal & Hin).
    apply in_calls in Hin. destruct Hin as (ix & jx & Hne & Ha & Hb & _).
    exists bal, ix, jx. auto.
  - intros (bal & ix & jx & Hbal & Hne & Ha & Hb).
    exists (ix <? jx)%nat. apply in_flat_map. exists bal. split; auto.
    apply in_calls. exists ix, jx. auto.
Qed.

Lemma ranked_apart_sym (bs : list ballot) (a b : string) :
  ranked_apart bs a b -> ranked_apart bs b a.
Proof.
  intros (bal & ix & jx & Hbal & Hne & Ha & Hb).
  exists bal, jx, ix. auto.
Qed.

Section Sums.
Local Open Scope Z_scope.

Lemma sumZ_app {A : Type} (f : A -> Z) (l1 l2 : list A) :
  sumZ f (l1 ++ l2) = sumZ f l1 + sumZ f l2.
Proof. induction l1 as [|x l1 IH]; simpl; [reflexivity | rewrite IH; lia]. Qed.

Lemma sumZ_ext_in {A : Type} (f g : A -> Z) (l : list A) :
  (forall x, In x l -> f x = g x) -> sumZ f l = sumZ g l.
Proof.
  induction l as [|x l IH]; simpl; intros Hfg; [reflexivity|].
  rewrite (Hfg x) by now left. rewrite IH; auto.
Qed.

Lemma sumZ_zero {A : Type} (l : list A) : sumZ (fun _ => 0) l = 0.
Proof. induction l as [|x l IH]; simpl; [reflexivity | rewrite IH; lia]. Qed.

Lemma sumZ_plus {A : Type} (f g : A -> Z) (l : list A) :
  sumZ (fun x => f x + g x) l = sumZ f l + sumZ g l.
Proof. induction l as [|x l IH]; simpl; [reflexivity | rewrite IH; lia]. Qed.

Lemma sumZ_mul_r {A : Type} (f : A -> Z) (c : Z) (l : list A) :
  sumZ (fun x => f x * c) l = sumZ f l * c.
Proof. induction l as [|x l IH]; simpl; [reflexivity | rewrite IH; lia]. Qed.

Lemma sumZ_opp {A : Type} (f : A -> Z) (l : list A) :
  sumZ (fun x => - f x) l = - sumZ f l.
Proof. induction l as [|x l IH]; simpl; [reflexivity | rewrite IH; lia]. Qed.

Lemma sumZ_swap {A B : Type} (F : A -> B -> Z) (l1 : list A) (l2 : list B) :
  sumZ (fun x => sumZ (fun y => F x y) l2) l1
  = sumZ (fun y => sumZ (fun x => F x y) l1) l2.
Proof.
  induction l1 as [|x l1 IH]; simpl.
  - now rewrite sumZ_zero.
  - now rewrite IH, sumZ_plus.
Qed.

Lemma weight_app (f : bool -> Z) (p : fact) (cs1 cs2 : list call) :
  weight f p (cs1 ++ cs2) = weight f p cs1 + weight f p cs2.
Proof. apply sumZ_app. Qed.

Lemma weight_flat_map {A : Type} (f : bool -> Z) (p : fact)
  (h : A -> list call) (l : list A) :
  weight f p (flat_map h l) = sumZ (fun x => weight f p (h x)) l.
Proof.
  induction l as [|x l IH]; simpl; [reflexivity|].
  now rewrite weight_app, IH.
Qed.

Lemma weight_opp (f : bool -> Z) (p : fact) (cs : list call) :
  weight (fun w => - f w) p cs = - weight f p cs.
Proof.
  unfold weight. rewrite <- sumZ_opp. apply sumZ_ext_in. intros c _.
  destruct (keyb (fst c) p); lia.
Qed.

Lemma weight_cols (f : bool -> Z) (a b row : string) (w : bool) (cols : list string) :
  weight f (a, b) (map (fun col => ((row, col), w)) cols)
  = if keyb row a then f w * occ b cols else 0.
Proof.
  unfold weight, occ. induction cols as [|col cols IH]; simpl.
  - destruct (keyb row a); lia.
  - rewrite IH. unfold keyb at 1. simpl.
    destruct (keyb_spec row a) as [->|Hne]; simpl; [|reflexivity].
    destruct (string_dec col b) as [->|Hne].
    + rewrite keyb_refl. lia.
    + apply keyb_neq in Hne. rewrite Hne. lia.
Qed.

Lemma sumZ_rows (a : string) (c : Z) (rows : list string) :
  sumZ (fun row => if keyb row a then c else 0) rows = occ a rows * c.
Proof.
  unfold occ. induction rows as [|row rows IH]; simpl; [reflexivity|].
  rewrite IH. destruct (string_dec row a) as [->|Hne].
  - rewrite keyb_refl. lia.
  - apply keyb_neq in Hne. rewrite Hne. lia.
Qed.

(** The weight of a pair over the calls of a ballot, rank by rank. *)
Lemma weight_calls (f : bool -> Z) (bal : ballot) (a b : string) :
  weight f (a, b) (calls bal)
  = sumZ (fun ix => sumZ (fun jx => rank_weight f bal a b ix jx)
                         (seq 0 (List.length bal)))
         (seq 0 (List.length bal)).
Proof.
  unfold calls. rewrite weight_flat_map. apply sumZ_ext_in. intros ix _.
  rewrite weight_flat_map.
  rewrite (sumZ_ext_in _
    (fun row => if keyb row a
                then sumZ (fun jx => if (jx =? ix)%nat then 0
                                     else f (ix <? jx)%nat * occ b (nth jx bal []))
                          (seq 0 (List.length bal))
                else 0)).
  - rewrite sumZ_rows, Z.mul_comm, <- sumZ_mul_r.
    apply sumZ_ext_in. intros jx _.
    unfold rank_weight. destruct (jx =? ix)%nat; lia.
  - intros row _. rewrite weight_flat_map.
    destruct (keyb row a) eqn:E.
    + apply sumZ_ext_in. intros jx _.
      destruct (jx =? ix)%nat; [reflexivity|].
      now rewrite weight_cols, E.
    + rewrite <- (sumZ_zero (seq 0 (List.length bal))).
      apply sumZ_ext_in. intros jx _.
      destruct (jx =? ix)%nat; [reflexivity|].
      now rewrite weight_cols, E.
Qed.

(** Swapping the pair swaps the roles of the two ranks. *)
Lemma weight_calls_flip (f g : bool -> Z) (bal : ballot) (a b : string) :
  (forall w, g (negb w) = f w) ->
  weight g (b, a) (calls bal) = weight f (a, b) (calls bal).
Proof.
  intros Hfg. rewrite !weight_calls, sumZ_swap.
  apply sumZ_ext_in. intros ix _. apply sumZ_ext_in. intros jx _.
  unfold rank_weight. rewrite Nat.eqb_sym.
  destruct (Nat.eqb_spec jx ix) as [->|Hne]; [reflexivity|].
  rewrite <- Hfg.
  replace (negb (ix <? jx)%nat) with (jx <? ix)%nat.
  - lia.
  - destruct (Nat.ltb_spec ix jx); destruct (Nat.ltb_spec jx ix); simpl; auto; lia.
Qed.

Lemma weight_sign_flip (bs : list ballot) (a b : string) :
  weight sign (b, a) (flat_map calls bs) = - weight sign (a, b) (flat_map calls bs).
Proof.
  rewrite !weight_flat_map, <- sumZ_opp. apply sumZ_ext_in. intros bal _.
  rewrite <- weight_opp. apply weight_calls_flip. now intros [|].
Qed.

End Sums.

(** The margins table after [computemargins], whether [margin_to_matrix]
    returned or raised. *)
Lemma computemargins_margins (c : Contest) :
  margins c = [] ->
  margins (fst (computemargins c)) = apply_calls (flat_map calls (ballots c)) [].
Proof.
  intros Hm. unfold computemargins.
  destruct (margin_to_matrix _); simpl; rewrite Hm; apply all_margins_calls.
Qed.

Lemma apply_calls_nodup (cs : list call) :
  forall m : dict fact Z, NoDup (keys m) -> NoDup (keys (apply_calls cs m)).
Proof.
  unfold apply_calls. induction cs as [|c cs IH]; intros m Hnd; simpl; auto.
  apply IH. unfold applymargin. now apply keys_set_nodup.
Qed.

(** The table [computemargins] builds is a dict in which no pair of a
    candidate with itself has a positive margin. *)
Lemma computemargins_nodup (c : Contest) :
  margins c = [] -> NoDup (keys (margins (fst (computemargins c)))).
Proof.
  intros Hm. rewrite (computemargins_margins c Hm).
  apply apply_calls_nodup. constructor.
Qed.

Lemma computemargins_no_positive_self (c : Contest) :
  margins c = [] -> no_positive_self (margins (fst (computemargins c))).
Proof.
  intros Hm a v. rewrite (computemargins_margins c Hm), get_apply_calls.
  destruct (called (a, a) (flat_map calls (ballots c))); [|discriminate].
  intros E. inversion E; subst.
  pose proof (weight_sign_flip (ballots c) a a). simpl. lia.
Qed.

(** C4: after [computemargins] on a contest whose margins table was still
    empty, the pair (A, B) is in the table exactly when (B, A) is, a pair is
    in the table exactly when some ballot lists A and B in different ranks,
    and the entry of (B, A) is the negation of the entry of (A, B). *)
Theorem margins_antisymmetric (c : Contest) (a b : string) :
  margins c = [] ->
  let m := margins (fst (computemargins c)) in
  (present m (a, b) <-> present m (b, a)) /\
  (present m (a, b) <-> ranked_apart (ballots c) a b) /\
  (forall v, get (a, b) m = Some v -> get (b, a) m = Some (- v)%Z).
Proof.
  intros Hm m.
  assert (Em : m = apply_calls (flat_map calls (ballots c)) [])
    by now apply computemargins_margins.
  assert (Hp : forall x y, present m (x, y) <-> ranked_apart (ballots c) x y).
  { intros x y. rewrite <- called_ranked_apart. unfold present.
    rewrite Em, get_apply_calls.
    destruct (called (x, y) (flat_map calls (ballots c))); simpl.
    - split; [auto | discriminate].
    - split; [congruence | discriminate]. }
  split; [|split].
  - rewrite !Hp. split; apply ranked_apart_sym.
  - apply Hp.
  - intros v Hv.
    assert (Hab : present m (a, b)) by (unfold present; congruence).
    assert (Hba : ranked_apart (ballots c) b a)
      by (apply ranked_apart_sym, Hp, Hab).
    apply Hp in Hab. apply called_ranked_apart in Hab, Hba.
    rewrite Em, get_apply_calls, Hab in Hv.
    rewrite Em, get_apply_calls, Hba. simpl in *.
    inversion Hv; subst. now rewrite weight_sign_flip.
Qed.

Lemma margins_antisymmetric_witness :
  let m := margins (fst (computemargins doc_contest)) in
  (present m (DDD, AAA) <-> present m (AAA, DDD)) /\
  (present m (DDD, AAA) <-> ranked_apart (ballots doc_contest) DDD AAA) /\
  (forall v, get (DDD, AAA) m = Some v -> get (AAA, DDD) m = Some (- v)%Z).
Proof.
  apply (margins_antisymmetric doc_contest DDD AAA). reflexivity.
Defined.

(** ** The order of the tally *)

Section InsertionSort.
Context {A : Type} (ltb : A -> A -> bool).

Hypothesis ltb_asym : forall x y, ltb x y = true -> ltb y x = false.
Hypothesis not_after_trans :
  forall x y z, not_after ltb x y -> not_after ltb y z -> not_after ltb x z.

Lemma insert_in (x : A) (l : list A) (y : A) :
  In y (insert ltb x l) <-> y = x \/ In y l.
Proof.
  induction l as [|z l IH]; simpl.
  - intuition.
  - destruct (ltb x z); simpl; rewrite ?IH; intuition.
Qed.

Lemma insert_keeps_sorted (x : A) (l : list A) :
  StronglySorted (not_after ltb) l -> StronglySorted (not_after ltb) (insert ltb x l).
Proof.
  induction 1 as [|y l Hs IH Hall]; simpl.
  - repeat constructor.
  - destruct (ltb x y) eqn:E.
    + constructor; [now constructor|].
      constructor; [now apply ltb_asym|].
      rewrite Forall_forall in *. intros z Hz.
      apply not_after_trans with y; [now apply ltb_asym | now apply Hall].
    + constructor; auto.
      rewrite Forall_forall in *. intros z Hz.
      apply insert_in in Hz. destruct Hz as [->|Hz]; [exact E | now apply Hall].
Qed.

Lemma isort_sorted (l : list A) : StronglySorted (not_after ltb) (isort ltb l).
Proof.
  unfold isort.
  assert (H : forall acc, StronglySorted (not_after ltb) acc ->
            StronglySorted (not_after ltb)
              (fold_left (fun sorted x => insert ltb x sorted) l acc)).
  { induction l as [|x l IH]; intros acc Hacc; simpl; auto.
    apply IH. now apply insert_keeps_sorted. }
  apply H. constructor.
Qed.

Lemma isort_in (l : list A) (y : A) : In y (isort ltb l) <-> In y l.
Proof.
  unfold isort.
  assert (H : forall acc,
            In y (fold_left (fun sorted x => insert ltb x sorted) l acc)
            <-> In y acc \/ In y l).
  { induction l as [|x l IH]; intros acc; simpl; [tauto|].
    rewrite IH, insert_in. intuition. }
  rewrite H. simpl. tauto.
Qed.

End InsertionSort.

Lemma sorted_nth_error {A : Type} (R : A -> A -> Prop) (l : list A) :
  StronglySorted R l ->
  forall i j x y, (i < j)%nat ->
    nth_error l i = Some x -> nth_error l j = Some y -> R x y.
Proof.
  induction 1 as [|z l Hs IH Hall]; intros i j x y Hij Hi Hj.
  - destruct i; discriminate.
  - destruct j as [|j]; [lia|]. simpl in Hj.
    destruct i as [|i]; simpl in Hi.
    + inversion Hi; subst. rewrite Forall_forall in Hall.
      apply Hall. eapply nth_error_In; eauto.
    + apply (IH i j); auto. lia.
Qed.

(** The monadic sort is the pure one when the comparisons return. *)
Lemma insert_sorted_pure {A : Type} (lt : A -> A -> Py bool) (ltb : A -> A -> bool)
  (x : A) (l : list A) :
  (forall y, In y l -> lt x y = Return (ltb x y)) ->
  insert_sorted lt x l = Return (insert ltb x l).
Proof.
  induction l as [|y l IH]; intros Hlt; simpl; auto.
  rewrite (Hlt y) by now left. simpl.
  destruct (ltb x y); auto.
  rewrite IH; auto. intros z Hz. apply Hlt. now right.
Qed.

Lemma list_sort_pure {A : Type} (lt : A -> A -> Py bool) (ltb : A -> A -> bool)
  (l : list A) :
  (forall x y, In x l -> In y l -> lt x y = Return (ltb x y)) ->
  list_sort lt l = Return (isort ltb l).
Proof.
  intros Hlt. unfold list_sort, isort.
  assert (H : forall l' acc, incl l' l -> incl acc l ->
            fold_left (fun acc x => sorted <- acc ;; insert_sorted lt x sorted)
                      l' (Return acc)
            = Return (fold_left (fun sorted x => insert ltb x sorted) l' acc)).
  { induction l' as [|x l' IH]; intros acc Hl' Hacc; simpl; auto.
    rewrite insert_sorted_pure with (ltb := ltb).
    - apply IH.
      + intros z Hz. apply Hl'. now right.
      + intros z Hz. apply insert_in in Hz. destruct Hz as [->|Hz].
        * apply Hl'. now left.
        * now apply Hacc.
    - intros y Hy. apply Hlt; [apply Hl'; now left | now apply Hacc]. }
  apply H; [apply incl_refl | intros z []].
Qed.

(** [result()] has an entry for every candidate. *)
Lemma get_fold_set {V : Type} (g : string -> V) (l : list string) (k : string) :
  forall init : dict string V,
    get k (fold_left (fun res row => set row (g row) res) l init)
    = if in_dec string_dec k l then Some (g k) else get k init.
Proof.
  induction l as [|x l IH]; intros init; simpl; auto.
  rewrite IH. destruct (in_dec string_dec k l) as [Hin|Hnin].
  - destruct (string_dec x k); reflexivity.
  - rewrite get_set. destruct (string_dec x k) as [->|Hne].
    + now rewrite keyb_refl.
    + assert (Hne' : k <> x) by congruence.
      apply keyb_neq in Hne'. now rewrite Hne'.
Qed.

Lemma get_result (o : Outcome) (key : string) :
  In key (entries (contest o)) ->
  get key (result o) = Some (result_row o key).
Proof.
  intros Hin. unfold result. rewrite get_fold_set.
  destruct (in_dec string_dec key (entries (contest o))); tauto.
Qed.

Lemma key_lt_pure (res : dict string (Z * Z * Z)) (key1 key2 : string) :
  get key1 res <> None -> get key2 res <> None ->
  key_lt res key1 key2 = Return (ranks_before res key1 key2).
Proof.
  unfold key_lt, func, getitem, ranks_before, standing, cmp.
  destruct (get key1 res) as [[[w1 l1] t1]|]; [|congruence].
  destruct (get key2 res) as [[[w2 l2] t2]|]; [|congruence].
  intros _ _. simpl. f_equal. unfold pair_lt; simpl.
  destruct (Z.ltb_spec w2 w1); destruct (Z.ltb_spec w1 w2);
    destruct (Z.eqb_spec w2 w1); destruct (Z.eqb_spec w1 w2);
    destruct (Z.ltb_spec t2 t1); destruct (Z.ltb_spec t1 t2);
    simpl; try reflexivity; lia.
Qed.

Lemma ranks_before_asym (res : dict string (Z * Z * Z)) (x y : string) :
  ranks_before res x y = true -> ranks_before res y x = false.
Proof.
  unfold ranks_before, pair_lt.
  destruct (standing res x) as [w1 t1], (standing res y) as [w2 t2]; simpl.
  destruct (Z.ltb_spec w2 w1); destruct (Z.ltb_spec w1 w2);
    destruct (Z.eqb_spec w2 w1); destruct (Z.eqb_spec w1 w2);
    destruct (Z.ltb_spec t2 t1); destruct (Z.ltb_spec t1 t2);
    simpl; try reflexivity; try discriminate; lia.
Qed.

(** [not_after] for the sort keys: more wins, or as many wins and at least
    as many unresolved. *)
Lemma not_after_standing (res : dict string (Z * Z * Z)) (x y : string) :
  not_after (ranks_before res) x y <->
  (fst (standing res y) < fst (standing res x)
   \/ fst (standing res y) = fst (standing res x)
      /\ snd (standing res y) <= snd (standing res x))%Z.
Proof.
  unfold not_after, ranks_before, pair_lt.
  destruct (standing res x) as [w1 t1], (standing res y) as [w2 t2]; simpl.
  destruct (Z.ltb_spec w1 w2); destruct (Z.eqb_spec w1 w2);
    destruct (Z.ltb_spec t1 t2); simpl; split; intros; try discriminate;
    try reflexivity; lia.
Qed.

Lemma not_after_standing_trans (res : dict string (Z * Z * Z)) (x y z : string) :
  not_after (ranks_before res) x y -> not_after (ranks_before res) y z ->
  not_after (ranks_before res) x z.
Proof. rewrite !not_after_standing. lia. Qed.

Lemma ranking_isort (o : Outcome) :
  ranking o = Return (isort (ranks_before (result o)) (entries (contest o))).
Proof.
  unfold ranking. apply list_sort_pure. intros x y Hx Hy.
  apply key_lt_pure; rewrite get_result by auto; discriminate.
Qed.

(** Every line of the printing loop shows the tally of the candidate at the
    same position of the list it walks. *)
Lemma print_places_nth (o : Outcome) (res : dict string (Z * Z * Z))
  (ls : list string) :
  forall ix lastkey i ln,
    nth_error (fst (print_places o res ix lastkey ls)) i = Some ln ->
    exists key place name tally,
      ln = Place place name tally /\
      nth_error ls i = Some key /\ get key res = Some tally.
Proof.
  induction ls as [|key ls IH]; intros ix lastkey i ln Hnth; simpl in Hnth.
  - destruct i; discriminate.
  - destruct (place_line o res ix lastkey key) as [ln0|e] eqn:E.
    + destruct i as [|i]; simpl in Hnth.
      * inversion Hnth; subst. unfold place_line, getitem in E.
        destruct (get key res) as [tally|] eqn:G; [|discriminate].
        simpl in E.
        destruct (if negb (truthy_key lastkey) then Return true else _)
          as [np|]; [|discriminate].
        simpl in E.
        destruct (get key (labels (contest o))) as [name|]; [|discriminate].
        simpl in E. inversion E; subst. eexists key, _, _, tally. auto.
      * apply IH in Hnth. destruct Hnth as (k & p & n & t & H1 & H2 & H3).
        exists k, p, n, t. auto.
    + destruct i; discriminate.
Qed.

(** C2, as the code has it: [printresult] lists the candidates by
    descending wins, and of two lines with the same number of wins the one
    printed first has the larger or equal unresolved count (the fewer
    losses). *)
Theorem printresult_descending (o : Outcome) (i j : nat)
  (p1 n1 : string) (w1 l1 t1 : Z) (p2 n2 : string) (w2 l2 t2 : Z) :
  (i < j)%nat ->
  nth_error (fst (printresult o)) i = Some (Place p1 n1 (w1, l1, t1)) ->
  nth_error (fst (printresult o)) j = Some (Place p2 n2 (w2, l2, t2)) ->
  (w2 <= w1)%Z /\ (w1 = w2 -> (t2 <= t1)%Z).
Proof.
  intros Hij Hi Hj. unfold printresult in Hi, Hj.
  rewrite ranking_isort in Hi, Hj. simpl in Hi, Hj.
  destruct i as [|i]; [discriminate|].
  destruct j as [|j]; [lia|]. simpl in Hi, Hj.
  apply print_places_nth in Hi. destruct Hi as (kx & ? & ? & ? & Ex & Hx & Gx).
  apply print_places_nth in Hj. destruct Hj as (ky & ? & ? & ? & Ey & Hy & Gy).
  inversion Ex; subst. inversion Ey; subst.
  assert (Hs : not_after (ranks_before (result o)) kx ky).
  { apply (sorted_nth_error _ _
             (isort_sorted (ranks_before (result o))
                (ranks_before_asym (result o))
                (not_after_standing_trans (result o))
                (entries (contest o)))
             i j); auto. lia. }
  apply not_after_standing in Hs. unfold standing in Hs.
  rewrite Gx, Gy in Hs. simpl in Hs. lia.
Qed.

Lemma printresult_descending_witness :
  nth_error (fst (printresult five_outcome)) 2
    = Some (Place "  2:" "  1" (1, 0, 3)%Z) /\
  nth_error (fst (printresult five_outcome)) 3
    = Some (Place "  3:" "  4" (1, 1, 2)%Z) /\
  (1 <= 1)%Z /\ (1 = 1 -> 2 <= 3)%Z.
Proof.
  split; [reflexivity|]. split; [reflexivity|].
  apply (printresult_descending five_outcome 2 3
           "  2:" "  1" 1 0 3 "  3:" "  4" 1 1 2).
  - lia.
  - reflexivity.
  - reflexivity.
Defined.

(** C2 as stated fails: in the tally of [five_outcome] candidate 1, with
    one win and three unresolved, is printed before candidate 4, with one
    win and two unresolved. *)
Lemma ties_not_by_ascending_unresolved :
  ~ ties_by_ascending_unresolved five_outcome.
Proof.
  intros H.
  specialize (H 2%nat 3%nat "  2:" "  1" 1%Z 0%Z 3%Z "  3:" "  4" 1%Z 1%Z 2%Z).
  assert (3 <= 2)%Z; [|lia].
  apply H; [lia | reflexivity | reflexivity | reflexivity].
Qed.

(** ** The resolution driver *)

Lemma member_in (P : fact) (l : list fact) : member P l = true <-> In P l.
Proof.
  unfold member. rewrite existsb_exists. split.
  - intros (q & Hq & E). apply keyb_eq in E. now subst.
  - intros Hin. exists P. split; auto. apply keyb_refl.
Qed.

Lemma member_filter (f : fact -> bool) (l : list fact) (P : fact) :
  In P l -> member P (filter f l) = f P.
Proof.
  intros Hin. destruct (f P) eqn:E.
  - apply member_in, filter_In. auto.
  - destruct (member P (filter f l)) eqn:M; auto.
    apply member_in, filter_In in M. destruct M; congruence.
Qed.

Lemma len_filter_zero {A : Type} (f : A -> bool) (l : list A) :
  (len (filter (fun x => negb (f x)) l) =? 0)%Z = forallb f l.
Proof.
  unfold len. induction l as [|x l IH]; simpl; auto.
  destruct (f x); simpl; auto.
Qed.

Lemma len_filter_all {A : Type} (f : A -> bool) (l : list A) :
  (len (filter (fun x => negb (f x)) l) =? len l)%Z = negb (truthy (filter f l)).
Proof.
  unfold len. induction l as [|x l IH]; [reflexivity|].
  cbn [filter]. destruct (f x); cbn [negb truthy List.length].
  - pose proof (filter_length_le (fun x => negb (f x)) l).
    apply Z.eqb_neq. lia.
  - rewrite <- IH.
    destruct (Z.eqb_spec (Z.of_nat (List.length (filter (fun x => negb (f x)) l)))
                         (Z.of_nat (List.length l)));
      [apply Z.eqb_eq | apply Z.eqb_neq]; lia.
Qed.

Lemma forallb_ext_in {A : Type} (f g : A -> bool) (l : list A) :
  (forall x, In x l -> f x = g x) -> forallb f l = forallb g l.
Proof.
  induction l as [|x l IH]; simpl; intros Hfg; auto.
  rewrite (Hfg x) by now left. f_equal. apply IH. intros; apply Hfg; now right.
Qed.

(** The facts the code keeps are those outside the exclusion set. *)
Lemma notguilty_not_excluded (outcome : Outcome) (remaining : list fact) :
  notguilty_of outcome remaining
  = filter (fun P => negb (member P (exclusion_set outcome remaining))) remaining.
Proof.
  unfold notguilty_of, exclusion_set. apply filter_ext_in. intros P Hin.
  now rewrite member_filter.
Qed.

Lemma give_up_tests (outcome : Outcome) (remaining : list fact) :
  ((len (notguilty_of outcome remaining) =? 0)%Z
   || (len (notguilty_of outcome remaining) =? len remaining)%Z)
  = (negb (truthy (exclusion_set outcome remaining))
     || forallb (fun P => member P (exclusion_set outcome remaining)) remaining).
Proof.
  unfold notguilty_of. rewrite len_filter_zero, len_filter_all.
  fold (exclusion_set outcome remaining). rewrite orb_comm. f_equal.
  apply forallb_ext_in. intros P Hin. unfold exclusion_set.
  now rewrite member_filter.
Qed.

(** A level with facts, once the compatibility tests have returned. *)
Lemma level_step_facts (dic : dict Z (list fact)) (outcome : Outcome) (level : Z)
  (ls compatls : list fact) :
  get level dic = Some ls -> ls <> [] ->
  compatible_facts outcome ls = Return compatls ->
  level_step dic outcome level
  = Return (match accept_all outcome compatls with
            | Return newout => newout
            | Raise _ => leave_one_out outcome compatls
            end).
Proof.
  intros Hget Hne Hc. unfold level_step. rewrite Hget.
  destruct ls as [|tup ls]; [congruence|]. rewrite Hc. simpl.
  destruct (accept_all outcome compatls) as [newout|e]; auto.
  unfold leave_one_out. rewrite give_up_tests.
  destruct (negb (truthy (exclusion_set outcome compatls))
            || forallb (fun P => member P (exclusion_set outcome compatls)) compatls);
    auto.
  rewrite notguilty_not_excluded.
  destruct (accept_all outcome _); reflexivity.
Qed.

(** When the bulk accept of a level raises, [level_step] goes on with the
    leave-one-out pass. *)
Lemma level_step_leave_one_out (dic : dict Z (list fact)) (outcome : Outcome)
  (level : Z) (ls compatls : list fact) (e : exn) :
  get level dic = Some ls -> ls <> [] ->
  compatible_facts outcome ls = Return compatls ->
  accept_all outcome compatls = Raise e ->
  level_step dic outcome level = Return (leave_one_out outcome compatls).
Proof.
  intros Hget Hne Hc Hraise.
  rewrite (level_step_facts dic outcome level ls compatls Hget Hne Hc).
  now rewrite Hraise.
Qed.

(** *** The gathered margins *)

Lemma fold_left_keys {A K V : Type} (f : A -> K -> A) (m : dict K V) (acc : A) :
  fold_left f (map fst m) acc = fold_left (fun a e => f a (fst e)) m acc.
Proof.
  revert acc. induction m as [|e m IH]; intros acc; simpl; auto.
Qed.

Lemma gather_entries (m : dict fact Z) :
  NoDup (keys m) ->
  gather m = fold_left (fun dic e => file_fact (snd e) (fst e) dic) m [].
Proof.
  intros Hnd. unfold gather, keys. rewrite fold_left_keys.
  apply fold_left_ext_in. intros dic [tup v] Hin. simpl.
  now rewrite (get_in_nodup m tup v Hnd Hin).
Qed.

(** The facts filed under [v]: those of margin [v] when [v] is positive. *)
Lemma file_fact_set (val : Z) (tup : fact) (dic : dict Z (list fact)) :
  (0 < val)%Z ->
  file_fact val tup dic
  = set val ((match get val dic with Some ls => ls | None => [] end) ++ [tup]) dic.
Proof.
  intros Hpos. unfold file_fact.
  destruct (Z.leb_spec val 0); [lia|].
  destruct (get val dic) as [[|x ls]|]; reflexivity.
Qed.

Lemma get_filed (es : dict fact Z) (v : Z) :
  forall dic : dict Z (list fact),
    (forall w ls, get w dic = Some ls -> ls <> []) ->
    get v (fold_left (fun dic e => file_fact (snd e) (fst e) dic) es dic)
    = match (match get v dic with Some ls => ls | None => [] end)
            ++ (if (0 <? v)%Z then facts_at es v else [])
      with
      | [] => None
      | l => Some l
      end.
Proof.
  induction es as [|[tup val] es IH]; intros dic Hwf; simpl.
  - destruct (0 <? v)%Z; rewrite app_nil_r;
      destruct (get v dic) as [[|x ls]|] eqn:E; auto;
      now destruct (Hwf v [] E).
  - destruct (Z.ltb_spec 0 val) as [Hpos|Hnp].
    + rewrite (file_fact_set val tup dic Hpos). rewrite IH.
      * rewrite get_set. unfold facts_at. simpl.
        unfold keyb at 1. simpl. rewrite Z.eqb_sym.
        destruct (Z.eqb_spec val v) as [->|Hne].
        -- destruct (Z.ltb_spec 0 v); [|lia]. simpl.
           now rewrite <- app_assoc.
        -- reflexivity.
      * intros w ls. rewrite get_set.
        destruct (keyb w val); [|apply Hwf].
        intros E. inversion E. now destruct (match get val dic with Some _ => _ | None => _ end).
    + assert (E : file_fact val tup dic = dic).
      { unfold file_fact. destruct (Z.leb_spec val 0); auto. lia. }
      rewrite E, IH by auto. unfold facts_at. simpl.
      destruct (Z.ltb_spec 0 v); auto.
      destruct (Z.eqb_spec val v); [lia | reflexivity].
Qed.

Lemma get_gather (m : dict fact Z) (v : Z) :
  NoDup (keys m) ->
  get v (gather m)
  = match (if (0 <? v)%Z then facts_at m v else []) with
    | [] => None
    | l => Some l
    end.
Proof.
  intros Hnd. rewrite (gather_entries m Hnd), get_filed; [reflexivity|].
  intros w ls. discriminate.
Qed.

Lemma facts_at_in (m : dict fact Z) (v : Z) (tup : fact) :
  In tup (facts_at m v) <-> In (tup, v) m.
Proof.
  unfold facts_at. rewrite in_map_iff. split.
  - intros ([t w] & <- & Hin). apply filter_In in Hin. destruct Hin as [Hin E].
    simpl in *. apply Z.eqb_eq in E. now subst.
  - intros Hin. exists (tup, v). split; auto. apply filter_In. split; auto.
    simpl. apply Z.eqb_refl.
Qed.

Lemma truthy_in {A : Type} (l : list A) : truthy l = true <-> exists x, In x l.
Proof.
  destruct l as [|x l]; simpl; split; try discriminate; auto.
  - intros (x & []).
  - intros _. exists x. now left.
Qed.

Lemma in_keys_gather (m : dict fact Z) (v : Z) :
  NoDup (keys m) ->
  (In v (keys (gather m)) <-> (0 < v)%Z /\ exists tup, In (tup, v) m).
Proof.
  intros Hnd.
  assert (E : In v (keys (gather m)) <-> get v (gather m) <> None).
  { rewrite get_none_not_in. destruct (in_dec Z.eq_dec v (keys (gather m))); tauto. }
  rewrite E, (get_gather m v Hnd).
  destruct (Z.ltb_spec 0 v) as [Hpos|Hnp].
  - destruct (facts_at m v) as [|tup l] eqn:F.
    + split; [congruence|]. intros (_ & tup & Hin).
      apply facts_at_in in Hin. rewrite F in Hin. destruct Hin.
    + split; [|discriminate]. intros _. split; auto. exists tup.
      apply facts_at_in. rewrite F. now left.
  - split; [congruence | lia].
Qed.

(** *** The largest margin *)

Lemma fold_max_spec (l : list Z) :
  forall a, let M := fold_left Z.max l a in
    (a <= M)%Z /\ (forall x, In x l -> (x <= M)%Z) /\ (M = a \/ In M l).
Proof.
  induction l as [|x l IH]; intros a; simpl.
  - split; [lia|]. split; [intros x []|]. now left.
  - destruct (IH (Z.max a x)) as (H1 & H2 & H3). split; [lia|]. split.
    + intros y [->|Hy]; [lia | auto].
    + destruct H3 as [H3|H3]; [|auto]. rewrite H3.
      destruct (Z.max_spec a x) as [[_ E]|[_ E]]; rewrite E; auto.
Qed.

Lemma max_list_gather (m : dict fact Z) (M : Z) :
  NoDup (keys m) ->
  max_list (keys (gather m)) = Return M -> M = max_margin m.
Proof.
  intros Hnd Hmax. unfold max_list in Hmax.
  destruct (keys (gather m)) as [|k ks] eqn:K; [discriminate|].
  inversion Hmax as [E]; clear Hmax.
  destruct (fold_max_spec ks k) as (H1 & H2 & H3). rewrite E in H1, H2, H3.
  assert (HM : In M (keys (gather m))).
  { rewrite K. destruct H3 as [->|H3]; [now left | now right]. }
  assert (Hle : forall x, In x (keys (gather m)) -> (x <= M)%Z).
  { rewrite K. intros x [<-|Hx]; auto. }
  apply (in_keys_gather m M Hnd) in HM. destruct HM as (Hpos & tup & Hin).
  unfold max_margin.
  destruct (fold_max_spec (map snd m) 0%Z) as (G1 & G2 & G3).
  set (M2 := fold_left Z.max (map snd m) 0%Z) in *.
  assert (M <= M2)%Z.
  { apply G2. apply in_map_iff. exists (tup, M). auto. }
  destruct G3 as [G3|G3]; [lia|].
  apply in_map_iff in G3. destruct G3 as ([tup2 v2] & Ev & Hin2). simpl in Ev. subst v2.
  assert (M2 <= M)%Z; [|lia].
  apply Hle. apply (in_keys_gather m M2 Hnd). split; [lia|]. eauto.
Qed.

Lemma in_levels_down (M v : Z) :
  In v (levels_down M) <-> (0 < v <= M)%Z.
Proof.
  unfold levels_down. rewrite in_map_iff. split.
  - intros (k & <- & Hk). apply in_seq in Hk. lia.
  - intros Hv. exists (Z.to_nat (M - v)). split; [lia|]. apply in_seq. lia.
Qed.

Lemma levels_down_sorted (M : Z) : StronglySorted Z.gt (levels_down M).
Proof.
  unfold levels_down.
  assert (H : forall n s, StronglySorted Z.gt
            (map (fun k => (M - Z.of_nat k)%Z) (seq s n))).
  { induction n as [|n IH]; intros s; simpl; constructor; auto.
    apply Forall_forall. intros x Hx. apply in_map_iff in Hx.
    destruct Hx as (k & <- & Hk). apply in_seq in Hk. lia. }
  apply H.
Qed.

Lemma filter_sorted {A : Type} (R : A -> A -> Prop) (f : A -> bool) (l : list A) :
  StronglySorted R l -> StronglySorted R (filter f l).
Proof.
  induction 1 as [|x l Hs IH Hall]; simpl; [constructor|].
  destruct (f x); auto. constructor; auto.
  rewrite Forall_forall in *. intros y Hy. apply filter_In in Hy.
  apply Hall. tauto.
Qed.

Lemma max_margin_bound (m : dict fact Z) (tup : fact) (v : Z) :
  In (tup, v) m -> (v <= max_margin m)%Z.
Proof.
  intros Hin. unfold max_margin.
  destruct (fold_max_spec (map snd m) 0%Z) as (_ & G2 & _).
  apply G2. apply in_map_iff. exists (tup, v). auto.
Qed.

Lemma in_magnitudes (m : dict fact Z) (v : Z) :
  In v (magnitudes m) <-> (0 < v)%Z /\ exists tup, In (tup, v) m.
Proof.
  unfold magnitudes. rewrite filter_In, in_levels_down, truthy_in. split.
  - intros (Hv & tup & Hin). apply facts_at_in in Hin. split; [lia | eauto].
  - intros (Hv & tup & Hin). split.
    + split; auto. now apply max_margin_bound with tup.
    + exists tup. now apply facts_at_in.
Qed.

(** *** The levels *)

Lemma compatible_facts_filter (outcome : Outcome) (ls : list fact) :
  (forall tup, In tup ls -> fst tup <> snd tup) ->
  compatible_facts outcome ls = Return (filter (is_compatible outcome) ls).
Proof.
  induction ls as [|tup ls IH]; intros Hne; simpl; auto.
  unfold is_compatible at 1.
  rewrite (compatible_neq outcome (fst tup) (snd tup)) by (apply Hne; now left).
  simpl. rewrite IH by (intros; apply Hne; now right). reflexivity.
Qed.

Lemma positive_fact_not_self (m : dict fact Z) (v : Z) (tup : fact) :
  NoDup (keys m) -> no_positive_self m -> (0 < v)%Z ->
  In tup (facts_at m v) -> fst tup <> snd tup.
Proof.
  intros Hnd Hself Hpos Hin E. apply facts_at_in in Hin.
  destruct tup as [a b]. simpl in E. subst b.
  apply (get_in_nodup m (a, a) v Hnd) in Hin.
  apply Hself in Hin. lia.
Qed.

Lemma level_step_outcome (m : dict fact Z) (outcome : Outcome) (v : Z) :
  NoDup (keys m) -> no_positive_self m -> (0 < v)%Z ->
  level_step (gather m) outcome v
  = Return (if truthy (facts_at m v)
            then level_outcome outcome (facts_at m v)
            else outcome).
Proof.
  intros Hnd Hself Hpos.
  pose proof (get_gather m v Hnd) as G.
  destruct (Z.ltb_spec 0 v); [|lia].
  destruct (facts_at m v) as [|tup l] eqn:F.
  - unfold level_step. now rewrite G.
  - rewrite (level_step_facts (gather m) outcome v (tup :: l)
               (filter (is_compatible outcome) (tup :: l))); auto.
    + discriminate.
    + apply compatible_facts_filter. intros t Ht. rewrite <- F in Ht.
      now apply (positive_fact_not_self m v t).
Qed.

Lemma levels_fold (m : dict fact Z) (levels : list Z) :
  NoDup (keys m) -> no_positive_self m ->
  (forall v, In v levels -> (0 < v)%Z) ->
  forall outcome,
    fold_left (fun acc level => outcome <- acc ;; level_step (gather m) outcome level)
              levels (Return outcome)
    = Return (fold_left (fun outcome v => level_outcome outcome (facts_at m v))
                        (filter (fun v => truthy (facts_at m v)) levels) outcome).
Proof.
  intros Hnd Hself. induction levels as [|v levels IH]; intros Hpos outcome; simpl; auto.
  rewrite (level_step_outcome m outcome v Hnd Hself) by (apply Hpos; now left).
  destruct (truthy (facts_at m v)); simpl; apply IH; intros; apply Hpos; now right.
Qed.

(** The magnitudes of a table that is a dict: the strictly positive margins
    that occur in it, in strictly descending order. *)
Lemma magnitudes_spec (m : dict fact Z) :
  NoDup (keys m) ->
  StronglySorted Z.gt (magnitudes m) /\
  (forall v, In v (magnitudes m) <->
             (0 < v)%Z /\ exists tup, get tup m = Some v).
Proof.
  intros Hnd. split.
  - unfold magnitudes. apply filter_sorted, levels_down_sorted.
  - intros v. rewrite in_magnitudes. split; intros (Hpos & tup & H); split; auto;
      exists tup.
    + now apply get_in_nodup.
    + now apply get_some_in.
Qed.

(** ** Contests without information *)

Lemma fold_addballot (bs : list ballot) :
  forall c, let c' := fold_left addballot bs c in
    ballots c' = ballots c ++ bs /\ margins c' = margins c /\
    entries c' = entries c /\ count c' = count c.
Proof.
  induction bs as [|b bs IH]; intros c; simpl.
  - now rewrite app_nil_r.
  - destruct (IH (addballot c b)) as (H1 & H2 & H3 & H4).
    rewrite H1, H2, H3, H4. simpl. now rewrite <- app_assoc.
Qed.

Lemma make_contest_fields (ents : list string) (bs : list ballot) (c : Contest) :
  make_contest ents bs = Return c ->
  ballots c = bs /\ margins c = [] /\ entries c = ents /\ count c = len ents.
Proof.
  unfold make_contest, Contest_init.
  destruct (max_list _) as [w|e]; [|discriminate]. simpl.
  intros E. inversion E; subst.
  destruct (fold_addballot bs (Contest_fields ents w)) as (H1 & H2 & H3 & H4).
  rewrite H1, H2, H3, H4. auto.
Qed.

Lemma flat_map_nil {A B : Type} (f : A -> list B) (l : list A) :
  (forall x, In x l -> f x = []) -> flat_map f l = [].
Proof.
  induction l as [|x l IH]; simpl; intros Hf; auto.
  rewrite (Hf x) by now left. apply IH. intros; apply Hf; now right.
Qed.

(** A ballot of one rank makes no call of [applymargin]. *)
Lemma calls_single_rank (b : ballot) : List.length b = 1%nat -> calls b = [].
Proof.
  intros Hlen. unfold calls. rewrite Hlen. simpl. rewrite app_nil_r.
  apply flat_map_nil. reflexivity.
Qed.

Lemma result_row_blank (c : Contest) (row : string) :
  result_row (Outcome_init c) row = (0, 0, count c - 1)%Z.
Proof.
  unfold result_row. simpl.
  assert (H : fold_left (fun (wl : Z * Z) (col : string) =>
                if keyb col row then wl else (fst wl, snd wl))
              (entries c) (0%Z, 0%Z) = (0%Z, 0%Z)).
  { induction (entries c) as [|col l IH]; simpl; auto.
    destruct (keyb col row); exact IH. }
  rewrite H. simpl. f_equal. lia.
Qed.

(** C8: when every ballot is a single rank (or there is no ballot),
    [computemargins] returns and leaves the margins table empty, [compute]
    returns the blank outcome, and [result()] gives every candidate
    (0, 0, n - 1), so that the sorting function of the tally finds any two
    candidates equal. *)
Theorem single_rank_ballots_tie (ents : list string) (bs : list ballot) (c : Contest) :
  make_contest ents bs = Return c ->
  (forall b, In b bs -> List.length b = 1%nat) ->
  let c' := fst (computemargins c) in
  snd (computemargins c) = Return tt /\
  margins c' = [] /\
  compute c' = Return (Outcome_init c') /\
  (forall x, In x ents ->
     get x (result (Outcome_init c')) = Some (0, 0, len ents - 1)%Z) /\
  (forall x y, In x ents -> In y ents ->
     func (result (Outcome_init c')) x y = Return 0%Z).
Proof.
  intros Hmake Hsingle c'.
  destruct (make_contest_fields ents bs c Hmake) as (Hb & Hm & He & Hc).
  assert (Em : fold_left (fun m b => ballot_margins b m) (ballots c) (margins c) = []).
  { rewrite all_margins_calls, Hm, Hb.
    rewrite flat_map_nil; [reflexivity|].
    intros b Hin. now apply calls_single_rank, Hsingle. }
  assert (Ec : computemargins c
               = (set_margin_matrix (set_margins c [])
                    (np_full (Z.to_nat (count c)) 0%Z), Return tt)).
  { unfold computemargins. rewrite Em. reflexivity. }
  unfold c'. rewrite Ec. simpl.
  assert (Hres : forall x, In x ents ->
            get x (result (Outcome_init
                     (set_margin_matrix (set_margins c [])
                        (np_full (Z.to_nat (count c)) 0%Z))))
            = Some (0, 0, len ents - 1)%Z).
  { intros x Hx. rewrite get_result by (simpl; now rewrite He).
    rewrite result_row_blank. simpl. now rewrite Hc. }
  repeat split; auto.
  intros x y Hx Hy. unfold func, getitem.
  rewrite (Hres x Hx), (Hres y Hy). simpl. unfold cmp, pair_lt. simpl.
  rewrite Z.ltb_irrefl. reflexivity.
Qed.

Lemma single_rank_ballots_tie_witness :
  let c' := fst (computemargins tied_contest) in
  snd (computemargins tied_contest) = Return tt /\
  margins c' = [] /\
  compute c' = Return (Outcome_init c') /\
  (forall x, In x [AAA; BBB; CCC; DDD] ->
     get x (result (Outcome_init c')) = Some (0, 0, len [AAA; BBB; CCC; DDD] - 1)%Z) /\
  (forall x y, In x [AAA; BBB; CCC; DDD] -> In y [AAA; BBB; CCC; DDD] ->
     func (result (Outcome_init c')) x y = Return 0%Z).
Proof.
  apply (single_rank_ballots_tie [AAA; BBB; CCC; DDD] tied_ballots tied_contest).
  - reflexivity.
  - intros b [<-|[]]. reflexivity.
Defined.

(** ** The contest of the documentation *)

(** C1, at the contest of the module's documentation: the ballots give the
    margins the documentation shows and [compute] on them gives its tally
    and ranking, but [computemargins] itself raises [ValueError], because
    [margin_to_matrix] applies [int] to the candidate names; and
    [printresult] raises [KeyError] on the first candidate, its labels being
    keyed by numbers. *)
Theorem doc_contest_computemargins_raises :
  make_contest [AAA; BBB; CCC; DDD] doc_ballots = Return doc_contest /\
  snd (computemargins doc_contest) = Raise ValueError /\
  let c := fst (computemargins doc_contest) in
  get (AAA, BBB) (margins c) = Some 1%Z /\
  get (DDD, AAA) (margins c) = Some 3%Z /\
  get (CCC, AAA) (margins c) = Some 2%Z /\
  get (DDD, CCC) (margins c) = Some 1%Z /\
  match compute c with
  | Return o =>
      result o = [(AAA, (1, 2, 0)); (BBB, (0, 3, 0));
                  (CCC, (2, 1, 0)); (DDD, (3, 0, 0))]%Z /\
      ranking o = Return [DDD; CCC; AAA; BBB] /\
      printresult o = ([Heading "Place: Name (wins, losses, unresolved)"],
                       Raise (KeyError DDD))
  | Raise _ => False
  end.
Proof. vm_compute. repeat split. Qed.

(** With the candidates named 1 to 4 the same ballots go through:
    [computemargins] returns, and the tally printed is the one of the
    documentation. *)
Lemma numbered_contest_tally :
  snd (computemargins numbered_contest) = Return tt /\
  let c := fst (computemargins numbered_contest) in
  margin_matrix c = Some [[0; 1; -2; -3]; [-1; 0; -3; -3];
                          [2; 3; 0; -1]; [3; 3; 1; 0]]%Z /\
  match compute c with
  | Return o =>
      printresult o
      = ([Heading "Place: Name (wins, losses, unresolved)";
          Place "  1:" "  4" (3, 0, 0)%Z;
          Place "  2:" "  3" (2, 1, 0)%Z;
          Place "  3:" "  1" (1, 2, 0)%Z;
          Place "  4:" "  2" (0, 3, 0)%Z], Return tt)
  | Raise _ => False
  end.
Proof. vm_compute. repeat split. Qed.

(** * Further properties of the code *)

(** ** What [accept] records *)

Lemma all_true_mark (t : table) (a b : string) :
  all_true t -> all_true (mark t a b).
Proof.
  intros Ht x dic k v Hin Hkv. unfold mark in Hin.
  destruct (get a t) as [[|kv old]|] eqn:E; apply in_set_inv in Hin;
    destruct Hin as [[-> ->]|Hin]; try (now apply (Ht x dic k v)).
  - destruct Hkv as [E'|[]]. now inversion E'.
  - apply in_set_inv in Hkv. destruct Hkv as [[_ ->]|Hkv]; auto.
    apply get_some_in in E. exact (Ht a (kv :: old) k v E Hkv).
  - destruct Hkv as [E'|[]]. now inversion E'.
Qed.

(** In a table whose values are all [True], the keys of an inner dict are
    exactly the candidates marked in it. *)
Lemma keys_of_marked (t : table) (a k : string) :
  all_true t -> In k (keys_of t a) -> marked t a k = true.
Proof.
  intros Ht Hin. unfold keys_of in Hin. unfold marked.
  destruct (get a t) as [dic|] eqn:E; [|destruct Hin].
  destruct (get k dic) as [v|] eqn:G.
  - rewrite (Ht a dic k v (get_some_in _ _ _ E) (get_some_in _ _ _ G)).
    destruct dic; [discriminate | reflexivity].
  - apply get_none_not_in in G. tauto.
Qed.

Lemma accept_loop_all_true (fuel : nat) :
  forall (o : Outcome) (facts : list fact) (o' : Outcome),
    all_true (higher o) -> all_true (lower o) ->
    accept_loop fuel o facts = Some (Return o') ->
    all_true (higher o') /\ all_true (lower o').
Proof.
  induction fuel as [|fuel IH]; intros o facts o' Hh Hl Hrun.
  - destruct facts as [|[w l] facts]; simpl in Hrun; [|discriminate].
    inversion Hrun; subst. auto.
  - destruct facts as [|[w l] facts]; simpl in Hrun.
    + inversion Hrun; subst. auto.
    + destruct (compatible o w l) as [[|]|e]; try discriminate.
      destruct (beats o w l).
      * eapply IH; eauto.
      * eapply IH; [| |exact Hrun]; simpl; now apply all_true_mark.
Qed.

Lemma reachable_all_true (o : Outcome) :
  reachable o -> all_true (higher o) /\ all_true (lower o).
Proof.
  induction 1 as [c|o o' a b Hr [Hh Hl] Hne Hacc].
  - split; intros a dic k v [].
  - apply accept_returns_loop in Hacc.
    eapply accept_loop_all_true; eauto.
Qed.

(** The loop never takes a fact back, and it records the fact at the head
    of the work list. *)
Lemma accept_loop_keeps (fuel : nat) :
  forall (o : Outcome) (facts : list fact) (o' : Outcome) (x y : string),
    accept_loop fuel o facts = Some (Return o') ->
    beats o x y = true -> beats o' x y = true.
Proof.
  induction fuel as [|fuel IH]; intros o facts o' x y Hrun Hb.
  - destruct facts as [|[w l] facts]; simpl in Hrun; [|discriminate].
    inversion Hrun; subst. auto.
  - destruct facts as [|[w l] facts]; simpl in Hrun.
    + inversion Hrun; subst. auto.
    + destruct (compatible o w l) as [[|]|e]; try discriminate.
      destruct (beats o w l).
      * eapply IH; eauto.
      * eapply IH; [exact Hrun|]. rewrite beats_record_fact, Hb. reflexivity.
Qed.

Lemma accept_loop_head (fuel : nat) (o : Outcome) (w l : string)
  (facts : list fact) (o' : Outcome) :
  accept_loop fuel o ((w, l) :: facts) = Some (Return o') ->
  beats o' w l = true.
Proof.
  destruct fuel as [|fuel]; simpl; [discriminate|].
  destruct (compatible o w l) as [[|]|e]; try discriminate.
  destruct (beats o w l) eqn:Hb; intros Hrun.
  - eapply accept_loop_keeps; eauto.
  - eapply accept_loop_keeps; [exact Hrun|].
    rewrite beats_record_fact, !keyb_refl. apply orb_true_r.
Qed.

Section Closure.
Variables (o0 : Outcome) (a b : string).
Hypothesis o0_closed : transitively_closed o0.

Lemma closure_with_cases (x y : string) :
  closure_with o0 a b x y = true <->
  beats o0 x y = true \/
  ((x = a \/ beats o0 x a = true) /\ (y = b \/ beats o0 b y = true)).
Proof.
  unfold closure_with.
  rewrite orb_true_iff, andb_true_iff, !orb_true_iff, !keyb_eq. tauto.
Qed.

Lemma closure_with_trans (x y z : string) :
  closure_with o0 a b x y = true -> closure_with o0 a b y z = true ->
  closure_with o0 a b x z = true.
Proof.
  rewrite !closure_with_cases.
  intros [Hxy|[Hx Hy]] [Hyz|[Hy' Hz]].
  - left. eapply o0_closed; eauto.
  - right. split; auto. right.
    destruct Hy' as [<-|Hya]; auto. eapply o0_closed; eauto.
  - right. split; auto. right.
    destruct Hy as [->|Hby]; auto. eapply o0_closed; eauto.
  - right. tauto.
Qed.

Lemma within_closure_record (o : Outcome) (w l : string) (facts : list fact) :
  within_closure o0 a b o ((w, l) :: facts) ->
  within_closure o0 a b (record_fact o w l)
                 (facts ++ consequences (record_fact o w l) w l).
Proof.
  intros [M Hh Hl Hb Hf].
  assert (Hwl : closure_with o0 a b w l = true)
    by exact (Hf (w, l) (or_introl eq_refl)).
  assert (Hb' : forall x y, beats (record_fact o w l) x y = true ->
                            closure_with o0 a b x y = true).
  { intros x y. rewrite beats_record_fact, orb_true_iff, andb_true_iff, !keyb_eq.
    intros [H|[-> ->]]; auto. }
  assert (M' : mirror (record_fact o w l)) by now apply mirror_record_fact.
  split; auto.
  - simpl. now apply all_true_mark.
  - simpl. now apply all_true_mark.
  - intros p Hp. apply in_app_or in Hp. destruct Hp as [Hp|Hp].
    + apply Hf. now right.
    + unfold consequences in Hp. apply in_app_or in Hp.
      destruct Hp as [Hp|Hp]; apply in_map_iff in Hp;
        destruct Hp as (key & <- & Hk); apply filter_In in Hk;
        destruct Hk as [Hk _]; simpl.
      * apply closure_with_trans with w; auto. apply Hb'.
        rewrite beats_marked. apply keys_of_marked; auto.
        simpl. now apply all_true_mark.
      * apply closure_with_trans with l; auto. apply Hb'.
        rewrite beats_marked, <- M'. apply keys_of_marked; auto.
        simpl. now apply all_true_mark.
Qed.

Lemma accept_loop_within (fuel : nat) :
  forall (o : Outcome) (facts : list fact) (o' : Outcome),
    within_closure o0 a b o facts ->
    accept_loop fuel o facts = Some (Return o') ->
    within_closure o0 a b o' [].
Proof.
  induction fuel as [|fuel IH]; intros o facts o' Hinv Hrun.
  - destruct facts as [|[w l] facts]; simpl in Hrun; [|discriminate].
    inversion Hrun; subst. exact Hinv.
  - destruct facts as [|[w l] facts]; simpl in Hrun.
    + inversion Hrun; subst. exact Hinv.
    + destruct (compatible o w l) as [[|]|e]; try discriminate.
      destruct (beats o w l).
      * eapply IH; [|exact Hrun]. destruct Hinv as [M Hh Hl Hb Hf].
        split; auto. intros p Hp. apply Hf. now right.
      * eapply IH; [|exact Hrun]. now apply within_closure_record.
Qed.

(** When the closure has no loop the run meets no contradiction. *)
Lemma accept_loop_no_raise (fuel : nat) :
  (forall x, closure_with o0 a b x x = false) ->
  forall (o : Outcome) (facts : list fact) (e : exn),
    within_closure o0 a b o facts ->
    accept_loop fuel o facts <> Some (Raise e).
Proof.
  intros Hirr.
  induction fuel as [|fuel IH]; intros o facts e Hinv.
  - destruct facts as [|[w l] facts]; simpl; discriminate.
  - destruct facts as [|[w l] facts]; simpl; [discriminate|].
    assert (Hwl : closure_with o0 a b w l = true)
      by exact (wc_facts _ _ _ _ _ Hinv (w, l) (or_introl eq_refl)).
    assert (Hne : w <> l).
    { intros ->. rewrite Hirr in Hwl. discriminate. }
    assert (Hlw : beats o l w = false).
    { destruct (beats o l w) eqn:E; auto.
      apply (wc_beats _ _ _ _ _ Hinv) in E.
      pose proof (closure_with_trans w l w Hwl E) as H.
      rewrite Hirr in H. discriminate. }
    rewrite (compatible_neq_mirror o w l Hne (wc_mirror _ _ _ _ _ Hinv)), Hlw. simpl.
    destruct (beats o w l).
    + apply IH. destruct Hinv as [M Hh Hl Hb Hf].
      split; auto. intros p Hp. apply Hf. now right.
    + apply IH. now apply within_closure_record.
Qed.

End Closure.

Lemma within_closure_start (o : Outcome) (a b : string) :
  mirror o -> all_true (higher o) -> all_true (lower o) ->
  within_closure o a b o [(a, b)].
Proof.
  intros M Hh Hl. split; auto.
  - intros x y Hb. unfold closure_with. now rewrite Hb.
  - intros p [<-|[]]. simpl. unfold closure_with.
    rewrite !keyb_refl. simpl. apply orb_true_r.
Qed.

Lemma accept_closure_with (o o' : Outcome) (a b x y : string) :
  reachable o -> accept o a b = Return o' ->
  beats o' x y = closure_with o a b x y.
Proof.
  intros Hr Hacc.
  destruct (reachable_inv o Hr) as (M & I & C & T).
  destruct (reachable_all_true o Hr) as [Hh Hl].
  apply accept_returns_loop in Hacc.
  pose proof (accept_loop_within o a b T _ _ _ _
                (within_closure_start o a b M Hh Hl) Hacc) as W.
  pose proof (accept_loop_inv _ _ _ _ (loop_inv_start o a b M I C T) Hacc) as L.
  pose proof (accept_loop_head _ _ _ _ _ _ Hacc) as Hab.
  assert (T' : transitively_closed o').
  { intros u v w Huv Hvw.
    destruct (inv_pending _ _ L u v w Huv Hvw) as [|[]]; auto. }
  destruct (beats o' x y) eqn:E.
  - symmetry. now apply (wc_beats _ _ _ _ _ W).
  - destruct (closure_with o a b x y) eqn:F; auto.
    apply closure_with_cases in F. rewrite <- E.
    destruct F as [F|[Fx Fy]].
    + eapply accept_loop_keeps; eauto.
    + assert (Hxa : x = a \/ beats o' x a = true).
      { destruct Fx as [->|Fx]; auto. right. eapply accept_loop_keeps; eauto. }
      assert (Hby : y = b \/ beats o' b y = true).
      { destruct Fy as [->|Fy]; auto. right. eapply accept_loop_keeps; eauto. }
      destruct Hxa as [->|Hxa]; destruct Hby as [->|Hby]; auto.
      * eapply T'; eauto.
      * eapply T'; eauto.
      * eapply T'; [exact Hxa|]. eapply T'; eauto.
Qed.

(** X1: on a reachable outcome, a call [accept(a, b)] that returns leaves
    exactly the transitive closure of the old facts with the new one: X
    beats Y afterwards exactly when X beat Y before, or X is [a] or beat [a]
    and Y is [b] or was beaten by [b]. *)
Theorem accept_records_closure (o o' : Outcome) (a b x y : string) :
  reachable o -> accept o a b = Return o' ->
  beats o' x y = closure_with o a b x y.
Proof. apply accept_closure_with. Qed.

Lemma accept_records_closure_witness :
  beats five_outcome "3" "5" = closure_with
    {| contest := five;
       higher := [("2", [("1", true)]); ("4", [("3", true)])];
       lower := [("1", [("2", true)]); ("3", [("4", true)])] |}
    "4" "5" "3" "5".
Proof.
  apply (accept_records_closure _ five_outcome "4" "5" "3" "5").
  - apply (reachable_accept_each [("1", "2"); ("3", "4")] (Outcome_init five)).
    + apply reach_blank.
    + vm_compute. reflexivity.
  - vm_compute. reflexivity.
Defined.

Lemma accept_returned (o : Outcome) (a b : string) :
  reachable o ->
  returned (accept o a b) = negb (keyb a b) && negb (beats o b a).
Proof.
  intros Hr.
  destruct (reachable_inv o Hr) as (M & I & C & T).
  destruct (reachable_all_true o Hr) as [Hh Hl].
  destruct (keyb_spec a b) as [->|Hne]; simpl.
  - unfold accept, accept_fuel. simpl. now rewrite compatible_eq.
  - destruct (beats o b a) eqn:Hba; simpl.
    + unfold accept, accept_fuel. simpl.
      now rewrite (compatible_neq_mirror o a b Hne M), Hba.
    + unfold accept.
      destruct (accept_loop (accept_fuel o a b) o [(a, b)]) as [[o'|e]|] eqn:E.
      * reflexivity.
      * exfalso. revert E. apply (accept_loop_no_raise o a b T); auto.
        -- intros x. destruct (closure_with o a b x x) eqn:F; auto.
           apply closure_with_cases in F. destruct F as [F|[Fx Fy]].
           ++ rewrite I in F. discriminate.
           ++ exfalso.
              assert (beats o b a = true); [|congruence].
              destruct Fx as [Ea|Fx]; destruct Fy as [Eb|Fy]; subst; auto;
                try congruence; try (eapply T; eauto).
        -- now apply within_closure_start.
      * now apply accept_loop_fuel in E.
Qed.

(** X2: on a reachable outcome [accept(a, b)] returns exactly when [a] and
    [b] differ and [beats(b, a)] is false; a single fact that [compatible]
    lets through is never the cause of a contradiction. *)
Theorem accept_returns_iff_compatible (o : Outcome) (a b : string) :
  reachable o ->
  returned (accept o a b) = negb (keyb a b) && negb (beats o b a).
Proof. apply accept_returned. Qed.

Lemma accept_returns_iff_compatible_witness :
  returned (accept five_outcome "5" "3")
  = negb (keyb "5" "3") && negb (beats five_outcome "3" "5").
Proof.
  apply (accept_returns_iff_compatible five_outcome "5" "3").
  exact five_outcome_reachable.
Defined.

(** X3: the work-list loop of [accept] terminates on every outcome, reachable
    or not: some number of iterations empties the work list or raises, and
    any larger number gives the same result, which is the result of
    [accept]. *)
Theorem accept_terminates (o : Outcome) (a b : string) :
  exists fuel, forall fuel', (fuel <= fuel')%nat ->
    accept_loop fuel' o [(a, b)] = Some (accept o a b).
Proof.
  exists (accept_fuel o a b). intros fuel' Hle.
  destruct (accept_loop (accept_fuel o a b) o [(a, b)]) as [r|] eqn:E.
  - rewrite (accept_loop_accept _ _ _ _ _ E).
    eapply accept_loop_more_fuel; eauto.
  - now apply accept_loop_fuel in E.
Qed.

(** X4: [clone()] of a reachable outcome has the same contest and the same
    two tables, key for key and in the same order. *)
Theorem clone_is_copy (o : Outcome) : reachable o -> clone o = o.
Proof. apply clone_reachable. Qed.

Lemma clone_is_copy_witness : clone five_outcome = five_outcome.
Proof. apply (clone_is_copy five_outcome). exact five_outcome_reachable. Defined.

(** ** What [compute] returns *)

Lemma accepted_from_reachable (P : string -> string -> Prop) (o : Outcome) :
  accepted_from P o -> reachable o.
Proof.
  induction 1 as [c|o o' a b Hf IH HP Hacc].
  - apply reach_blank.
  - apply (reach_accept o o' a b); auto.
    intros ->. unfold accept, accept_fuel in Hacc. simpl in Hacc.
    rewrite compatible_eq in Hacc. discriminate.
Qed.

Lemma accept_each_from (P : string -> string -> Prop) (tups : list fact) :
  forall o o', accepted_from P o ->
    (forall tup, In tup tups -> P (fst tup) (snd tup)) ->
    accept_each o tups = Return o' -> accepted_from P o'.
Proof.
  unfold accept_each.
  induction tups as [|[a b] tups IH] using rev_ind; intros o o' Hf HP Hrun.
  - simpl in Hrun. now inversion Hrun; subst.
  - rewrite fold_left_app in Hrun. simpl in Hrun.
    destruct (fold_left _ tups (Return o)) as [o1|e] eqn:E; [|discriminate].
    simpl in Hrun.
    apply (from_accept P o1 o' a b); auto.
    + apply (IH o o1); auto. intros tup Hin. apply HP, in_or_app. now left.
    + apply (HP (a, b)), in_or_app. right. now left.
Qed.

Lemma accept_all_from (P : string -> string -> Prop) (outcome newout : Outcome)
  (tups : list fact) :
  accepted_from P outcome ->
  (forall tup, In tup tups -> P (fst tup) (snd tup)) ->
  accept_all outcome tups = Return newout -> accepted_from P newout.
Proof.
  intros Hf HP Hrun. unfold accept_all in Hrun.
  rewrite (clone_reachable outcome (accepted_from_reachable P outcome Hf)) in Hrun.
  now apply (accept_each_from P tups outcome newout).
Qed.

Lemma compatible_facts_incl (outcome : Outcome) (ls : list fact) :
  forall compatls, compatible_facts outcome ls = Return compatls ->
    incl compatls ls.
Proof.
  induction ls as [|tup ls IH]; intros compatls Hc; simpl in Hc.
  - inversion Hc. intros x [].
  - destruct (compatible outcome (fst tup) (snd tup)) as [b|e]; [|discriminate].
    simpl in Hc.
    destruct (compatible_facts outcome ls) as [rest|e]; [|discriminate].
    simpl in Hc. inversion Hc; subst.
    specialize (IH rest eq_refl).
    destruct b; intros x Hx.
    + destruct Hx as [->|Hx]; [now left | right; now apply IH].
    + right. now apply IH.
Qed.

Lemma level_step_from (P : string -> string -> Prop) (dic : dict Z (list fact))
  (outcome o' : Outcome) (level : Z) :
  accepted_from P outcome ->
  (forall ls tup, get level dic = Some ls -> In tup ls -> P (fst tup) (snd tup)) ->
  level_step dic outcome level = Return o' -> accepted_from P o'.
Proof.
  intros Hf HP Hrun. unfold level_step in Hrun.
  destruct (get level dic) as [[|tup0 ls]|] eqn:G;
    try (inversion Hrun; subst; exact Hf).
  destruct (compatible_facts outcome (tup0 :: ls)) as [compatls|e] eqn:Hc;
    [|discriminate].
  simpl in Hrun.
  assert (HPc : forall tup, In tup compatls -> P (fst tup) (snd tup)).
  { intros tup Hin. apply (HP (tup0 :: ls)); auto.
    now apply (compatible_facts_incl outcome (tup0 :: ls) compatls Hc). }
  destruct (accept_all outcome compatls) as [newout|e] eqn:Ha.
  - inversion Hrun; subst. now apply (accept_all_from P outcome o' compatls).
  - destruct ((len (notguilty_of outcome compatls) =? 0)%Z
              || (len (notguilty_of outcome compatls) =? len compatls)%Z).
    + inversion Hrun; subst. exact Hf.
    + destruct (accept_all outcome (notguilty_of outcome compatls))
        as [newout|e'] eqn:Hn; inversion Hrun; subst; auto.
      apply (accept_all_from P outcome o' (notguilty_of outcome compatls)); auto.
      intros tup Hin. apply HPc. unfold notguilty_of in Hin.
      apply filter_In in Hin. tauto.
Qed.

(** Every fact filed by the gathering loop has a strictly positive margin. *)
Lemma gather_positive (m : dict fact Z) (v : Z) (ls : list fact) (tup : fact) :
  get v (gather m) = Some ls -> In tup ls ->
  positive_margin m (fst tup) (snd tup).
Proof.
  unfold gather.
  assert (H : forall ks dic,
            (forall w l t, get w dic = Some l -> In t l ->
                           positive_margin m (fst t) (snd t)) ->
            forall w l t,
              get w (fold_left (fun dic tup =>
                       file_fact (match get tup m with Some v => v | None => 0%Z end)
                                 tup dic) ks dic) = Some l ->
              In t l -> positive_margin m (fst t) (snd t)).
  { induction ks as [|k ks IH]; intros dic Hdic w l t; simpl.
    - apply Hdic.
    - apply IH. clear w l t. intros w l t.
      destruct (get k m) as [val|] eqn:G; unfold file_fact.
      + destruct (Z.leb_spec val 0) as [Hle|Hpos]; [apply Hdic|].
        assert (Hk : positive_margin m (fst k) (snd k)).
        { exists val. destruct k; simpl. auto. }
        destruct (get val dic) as [[|x old]|] eqn:Gd; rewrite get_set;
          destruct (keyb w val) eqn:Ew;
          try (apply Hdic);
          intros E Hin; inversion E; subst.
        * destruct Hin as [<-|[]]. exact Hk.
        * apply keyb_eq in Ew. subst w.
          change (In t ((x :: old) ++ [k])) in Hin.
          apply in_app_or in Hin. destruct Hin as [Hin|[<-|[]]]; auto.
          now apply (Hdic val (x :: old) t).
        * destruct Hin as [<-|[]]. exact Hk.
      + simpl. apply Hdic. }
  intros Hg Hin. apply (H (keys m) [] ) with (w := v) (l := ls); auto.
  intros w l t. discriminate.
Qed.

Lemma compute_accepted_from (c : Contest) (o : Outcome) :
  compute c = Return o -> accepted_from (positive_margin (margins c)) o.
Proof.
  unfold compute.
  destruct (negb (truthy (gather (margins c)))).
  - intros E. inversion E. apply from_blank.
  - destruct (max_list (keys (gather (margins c)))) as [M|e]; [|discriminate].
    simpl. generalize (levels_down M) as levels.
    assert (H : forall levels o0 o',
              accepted_from (positive_margin (margins c)) o0 ->
              fold_left (fun acc level =>
                           outcome <- acc ;;
                           level_step (gather (margins c)) outcome level)
                        levels (Return o0) = Return o' ->
              accepted_from (positive_margin (margins c)) o').
    { induction levels as [|v levels IH] using rev_ind; intros o0 o' Hf Hrun.
      - simpl in Hrun. now inversion Hrun; subst.
      - rewrite fold_left_app in Hrun. simpl in Hrun.
        destruct (fold_left _ levels (Return o0)) as [o1|e] eqn:E; [|discriminate].
        simpl in Hrun.
        apply (level_step_from _ (gather (margins c)) o1 o' v); auto.
        + now apply (IH o0).
        + intros ls tup Hg Hin. now apply (gather_positive (margins c) v ls). }
    intros levels. apply H. apply from_blank.
Qed.

Lemma compute_outcome_reachable (c : Contest) (o : Outcome) :
  compute c = Return o -> reachable o.
Proof.
  intros Hc. now apply compute_accepted_from, accepted_from_reachable in Hc.
Qed.

(** X5: whatever [compute] returns is an outcome reached from the blank one
    by successful calls of [accept], whichever levels were abandoned on the
    way: it is irreflexive, free of contradictions and transitively closed,
    and its two tables mirror each other. *)
Theorem compute_outcome_consistent (c : Contest) (o : Outcome) :
  compute c = Return o ->
  reachable o /\ mirror o /\ irreflexive o /\ contradiction_free o /\
  transitively_closed o.
Proof.
  intros Hc. apply compute_accepted_from, accepted_from_reachable in Hc.
  split; auto. now apply reachable_inv.
Qed.

Lemma beats_accepted_from (P : string -> string -> Prop) (o : Outcome) :
  accepted_from P o ->
  forall x y, beats o x y = true -> clos_trans string P x y.
Proof.
  induction 1 as [c|o o' a b Hf IH HP Hacc]; intros x y Hb.
  - discriminate.
  - rewrite (accept_closure_with o o' a b x y
               (accepted_from_reachable P o Hf) Hacc) in Hb.
    unfold closure_with in Hb.
    apply orb_true_iff in Hb. destruct Hb as [Hb|Hb]; auto.
    apply andb_true_iff in Hb. destruct Hb as [Hx Hy].
    apply orb_true_iff in Hx. apply orb_true_iff in Hy.
    assert (Hab : clos_trans string P a b) by now apply t_step.
    assert (Hxb : clos_trans string P x b).
    { destruct Hx as [Hx|Hx].
      - apply keyb_eq in Hx. now subst.
      - apply t_trans with a; auto. }
    destruct Hy as [Hy|Hy].
    + apply keyb_eq in Hy. now subst.
    + apply t_trans with b; auto.
Qed.

(** X6: [compute] never makes A beat B without evidence: if A beats B in the
    outcome it returns, a chain of pairs with strictly positive margins
    leads from A to B in the margins table. *)
Theorem compute_beats_from_margins (c : Contest) (o : Outcome) (x y : string) :
  compute c = Return o -> beats o x y = true ->
  clos_trans string (positive_margin (margins c)) x y.
Proof.
  intros Hc. apply beats_accepted_from. now apply compute_accepted_from.
Qed.

Lemma doc_outcome_computed : compute doc_margins = Return doc_outcome.
Proof. vm_compute. reflexivity. Qed.

Lemma compute_outcome_consistent_witness :
  reachable doc_outcome /\ mirror doc_outcome /\ irreflexive doc_outcome /\
  contradiction_free doc_outcome /\ transitively_closed doc_outcome.
Proof.
  apply (compute_outcome_consistent doc_margins doc_outcome).
  exact doc_outcome_computed.
Defined.

Lemma compute_beats_from_margins_witness :
  clos_trans string (positive_margin (margins doc_margins)) DDD BBB.
Proof.
  apply (compute_beats_from_margins doc_margins doc_outcome DDD BBB).
  - exact doc_outcome_computed.
  - reflexivity.
Defined.

(** On a table that is a dict without a positive margin for a candidate
    against itself, [compute] returns. *)
Lemma compute_ranked (c : Contest) :
  NoDup (keys (margins c)) -> no_positive_self (margins c) ->
  compute c = Return (ranked_pairs c).
Proof.
  intros Hnd Hself. unfold compute, ranked_pairs.
  destruct (gather (margins c)) as [|kv dic] eqn:G.
  - simpl. f_equal.
    assert (E : magnitudes (margins c) = []).
    { destruct (magnitudes (margins c)) as [|v vs] eqn:M; auto.
      assert (Hv : In v (magnitudes (margins c))) by (rewrite M; now left).
      apply in_magnitudes in Hv.
      apply (in_keys_gather (margins c) v Hnd) in Hv.
      rewrite G in Hv. destruct Hv. }
    now rewrite E.
  - rewrite <- G.
    assert (T : truthy (gather (margins c)) = true) by now rewrite G.
    rewrite T. cbn [negb].
    destruct (max_list (keys (gather (margins c)))) as [M|e] eqn:EM.
    + simpl. apply (max_list_gather (margins c) M Hnd) in EM. subst M.
      apply levels_fold; auto. intros v Hv. apply in_levels_down in Hv. lia.
    + rewrite G in EM. discriminate.
Qed.

(** X7: [compute] never raises on a table built by [computemargins] from an
    empty one, whatever the ballots: a candidate listed in two ranks of a
    ballot does put a pair (A, A) in the table, but always with margin 0, so
    that [compatible] is never asked about a candidate against itself.  This
    holds also when [computemargins] ended by raising in
    [margin_to_matrix]. *)
Theorem compute_after_computemargins (c : Contest) :
  margins c = [] ->
  exists o, compute (fst (computemargins c)) = Return o /\
    forall a v, get (a, a) (margins (fst (computemargins c))) = Some v -> v = 0%Z.
Proof.
  intros Hm. exists (ranked_pairs (fst (computemargins c))). split.
  - apply compute_ranked.
    + now apply computemargins_nodup.
    + now apply computemargins_no_positive_self.
  - intros a v. rewrite (computemargins_margins c Hm), get_apply_calls.
    destruct (called (a, a) (flat_map calls (ballots c))); [|discriminate].
    intros E. inversion E; subst.
    pose proof (weight_sign_flip (ballots c) a a). simpl. lia.
Qed.

Lemma compute_after_computemargins_witness :
  get ("1", "1") (margins (fst (computemargins repeated_contest))) = Some 0%Z /\
  exists o, compute (fst (computemargins repeated_contest)) = Return o /\
    forall a v, get (a, a) (margins (fst (computemargins repeated_contest))) = Some v ->
                v = 0%Z.
Proof.
  split; [reflexivity|].
  apply (compute_after_computemargins repeated_contest). reflexivity.
Defined.

(** ** [result] *)

Lemma result_row_fold (o : Outcome) (row : string) (l : list string) :
  forall w0 l0 : Z,
    fold_left (fun (wl : Z * Z) col =>
                 if keyb col row then wl
                 else
                   let losses := if marked (higher o) row col
                                 then (snd wl + 1)%Z else snd wl in
                   let wins := if marked (lower o) row col
                               then (fst wl + 1)%Z else fst wl in
                   (wins, losses)) l (w0, l0)
    = ((w0 + len (filter (fun col => negb (keyb col row)
                                     && marked (lower o) row col) l))%Z,
       (l0 + len (filter (fun col => negb (keyb col row)
                                     && marked (higher o) row col) l))%Z).
Proof.
  unfold len. induction l as [|col l IH]; intros w0 l0; simpl.
  - f_equal; lia.
  - destruct (keyb col row); simpl; [apply IH|].
    rewrite IH.
    destruct (marked (lower o) row col); destruct (marked (higher o) row col);
      cbn [List.length]; f_equal; lia.
Qed.

Lemma three_filters {A : Type} (f g h : A -> bool) (l : list A) :
  (forall x, f x = true -> g x = false) ->
  (forall x, f x = true -> h x = false) ->
  (forall x, g x = true -> h x = false) ->
  (List.length (filter f l) + List.length (filter g l)
   + List.length (filter h l) <= List.length l)%nat.
Proof.
  intros Hfg Hfh Hgh. induction l as [|x l IH]; simpl; [lia|].
  specialize (Hfg x). specialize (Hfh x). specialize (Hgh x).
  destruct (f x); destruct (g x); destruct (h x); simpl; try lia;
    try (specialize (Hfg eq_refl); discriminate);
    try (specialize (Hfh eq_refl); discriminate);
    try (specialize (Hgh eq_refl); discriminate).
Qed.

Lemma filter_one {A : Type} (f : A -> bool) (l : list A) (x : A) :
  In x l -> f x = true -> (1 <= List.length (filter f l))%nat.
Proof.
  intros Hin Hf.
  assert (H : In x (filter f l)) by (apply filter_In; auto).
  destruct (filter f l); [destruct H | simpl; lia].
Qed.

Lemma result_row_beats (o : Outcome) (row : string) :
  mirror o -> irreflexive o ->
  result_row o row
  = (len (filter (beats o row) (entries (contest o))),
     len (filter (fun col => beats o col row) (entries (contest o))),
     (count (contest o) - 1
      - (len (filter (beats o row) (entries (contest o)))
         + len (filter (fun col => beats o col row) (entries (contest o)))))%Z).
Proof.
  intros M I. unfold result_row. rewrite result_row_fold. simpl.
  assert (EW : filter (fun col => negb (keyb col row) && marked (lower o) row col)
                 (entries (contest o))
               = filter (beats o row) (entries (contest o))).
  { apply filter_ext. intros col. rewrite M, <- beats_marked.
    destruct (keyb_spec col row) as [->|]; simpl; auto. }
  assert (EL : filter (fun col => negb (keyb col row) && marked (higher o) row col)
                 (entries (contest o))
               = filter (fun col => beats o col row) (entries (contest o))).
  { apply filter_ext. intros col. rewrite <- beats_marked.
    destruct (keyb_spec col row) as [->|]; simpl; auto. }
  now rewrite EW, EL.
Qed.

(** X8: in the tally of a reachable outcome, the wins of a candidate are the
    candidates it beats, its losses the candidates that beat it, and the
    unresolved count is never negative: no opponent is counted on both
    sides. *)
Theorem result_counts_beats (o : Outcome) (row : string) :
  reachable o ->
  count (contest o) = len (entries (contest o)) ->
  In row (entries (contest o)) ->
  exists t,
    get row (result o)
    = Some (len (filter (beats o row) (entries (contest o))),
            len (filter (fun col => beats o col row) (entries (contest o))),
            t) /\
    (0 <= t)%Z /\
    (len (filter (beats o row) (entries (contest o)))
     + len (filter (fun col => beats o col row) (entries (contest o)))
     + t = len (entries (contest o)) - 1)%Z.
Proof.
  intros Hr Hc Hin.
  destruct (reachable_inv o Hr) as (M & I & C & _).
  rewrite (get_result o row Hin), (result_row_beats o row M I), Hc.
  eexists. split; [reflexivity|].
  pose proof (three_filters (beats o row) (fun col => beats o col row)
                (fun col => keyb col row) (entries (contest o))) as H3.
  pose proof (filter_one (fun col => keyb col row) (entries (contest o)) row
                Hin (keyb_refl row)) as H1.
  unfold len. split; [|lia].
  assert (List.length (filter (beats o row) (entries (contest o)))
          + List.length (filter (fun col => beats o col row) (entries (contest o)))
          + List.length (filter (fun col => keyb col row) (entries (contest o)))
          <= List.length (entries (contest o)))%nat; [|lia].
  apply H3.
  - intros x Hx. destruct (beats o x row) eqn:E; auto. destruct (C row x Hx E).
  - intros x Hx. destruct (keyb_spec x row) as [->|]; auto.
    rewrite I in Hx. discriminate.
  - intros x Hx. destruct (keyb_spec x row) as [->|]; auto.
    rewrite I in Hx. discriminate.
Qed.

Lemma result_counts_beats_witness :
  exists t,
    get CCC (result doc_outcome)
    = Some (len (filter (beats doc_outcome CCC) (entries (contest doc_outcome))),
            len (filter (fun col => beats doc_outcome col CCC)
                        (entries (contest doc_outcome))),
            t) /\
    (0 <= t)%Z /\
    (len (filter (beats doc_outcome CCC) (entries (contest doc_outcome)))
     + len (filter (fun col => beats doc_outcome col CCC)
                   (entries (contest doc_outcome)))
     + t = len (entries (contest doc_outcome)) - 1)%Z.
Proof.
  apply (result_counts_beats doc_outcome CCC).
  - apply (compute_outcome_reachable doc_margins). exact doc_outcome_computed.
  - reflexivity.
  - simpl. auto.
Defined.

(** ** What the margins count *)

Lemma listed_in (a : string) (rank : list string) :
  listed a rank = true <-> In a rank.
Proof.
  unfold listed. rewrite existsb_exists. split.
  - intros (x & Hx & E). apply keyb_eq in E. now subst.
  - intros Hin. exists a. split; auto. apply keyb_refl.
Qed.

Lemma in_rank_lt (bal : ballot) (ix : nat) (a : string) :
  In a (nth ix bal []) -> (ix < List.length bal)%nat.
Proof.
  intros Hin. destruct (Nat.lt_ge_cases ix (List.length bal)); auto.
  rewrite nth_overflow in Hin by auto. destruct Hin.
Qed.

Lemma prefersb_prefers (bal : ballot) (a b : string) :
  prefersb bal a b = true <-> prefers bal a b.
Proof.
  unfold prefersb, prefers. rewrite existsb_exists. split.
  - intros (ix & _ & H). apply andb_true_iff in H. destruct H as [Ha H].
    apply existsb_exists in H. destruct H as (jx & _ & H).
    apply andb_true_iff in H. destruct H as [Hlt Hb].
    exists ix, jx. apply Nat.ltb_lt in Hlt.
    apply listed_in in Ha. apply listed_in in Hb. auto.
  - intros (ix & jx & Hlt & Ha & Hb).
    exists ix. split; [apply in_seq; pose proof (in_rank_lt bal ix a Ha); lia|].
    apply andb_true_iff. split; [now apply listed_in|].
    apply existsb_exists. exists jx.
    split; [apply in_seq; pose proof (in_rank_lt bal jx b Hb); lia|].
    apply andb_true_iff. split; [now apply Nat.ltb_lt | now apply listed_in].
Qed.

Lemma weight_count_occ (f : bool -> Z) (p : fact) (cs : list call) :
  weight f p cs
  = (f true * Z.of_nat (count_occ call_dec cs (p, true))
     + f false * Z.of_nat (count_occ call_dec cs (p, false)))%Z.
Proof.
  induction cs as [|[q w] cs IH]; [simpl; lia|].
  change (weight f p ((q, w) :: cs))
    with ((if keyb q p then f w else 0) + weight f p cs)%Z.
  rewrite IH. clear IH.
  destruct (keyb_spec q p) as [->|Hne].
  - destruct w.
    + rewrite (count_occ_cons_eq call_dec cs eq_refl).
      rewrite (count_occ_cons_neq call_dec cs (x := (p, true)) (y := (p, false)))
        by discriminate.
      lia.
    + rewrite (count_occ_cons_eq call_dec cs eq_refl).
      rewrite (count_occ_cons_neq call_dec cs (x := (p, false)) (y := (p, true)))
        by discriminate.
      lia.
  - rewrite !(count_occ_cons_neq call_dec cs) by congruence. lia.
Qed.

Lemma count_occ_nodup (cs : list call) (c : call) :
  NoDup cs ->
  Z.of_nat (count_occ call_dec cs c) = if in_dec call_dec c cs then 1%Z else 0%Z.
Proof.
  intros Hnd. destruct (in_dec call_dec c cs) as [Hin|Hnin].
  - pose proof (proj1 (NoDup_count_occ call_dec cs) Hnd c).
    pose proof (proj1 (count_occ_In call_dec cs c) Hin). lia.
  - apply (count_occ_not_In call_dec) in Hnin. lia.
Qed.

Lemma NoDup_flat_map {A B : Type} (f : A -> list B) (l : list A) :
  NoDup l ->
  (forall x, In x l -> NoDup (f x)) ->
  (forall x y z, In x l -> In y l -> x <> y -> In z (f x) -> In z (f y) -> False) ->
  NoDup (flat_map f l).
Proof.
  induction 1 as [|x l Hnin Hnd IH]; intros Hf Hdis; simpl; [constructor|].
  apply NoDup_app.
  - apply Hf. now left.
  - apply IH.
    + intros y Hy. apply Hf. now right.
    + intros y1 y2 z H1 H2. apply Hdis; now right.
  - intros z Hz Hz'. apply in_flat_map in Hz'. destruct Hz' as (y & Hy & Hzy).
    apply (Hdis x y z); auto; [now left | now right | congruence].
Qed.

Lemma nodup_app_disjoint {A : Type} (l1 l2 : list A) (x : A) :
  NoDup (l1 ++ l2) -> In x l1 -> In x l2 -> False.
Proof.
  induction l1 as [|y l1 IH]; simpl; intros Hnd H1 H2; [tauto|].
  inversion Hnd as [|? ? Hnin Hnd']; subst.
  destruct H1 as [->|H1]; [|now apply IH].
  apply Hnin, in_or_app. now right.
Qed.

Lemma ranks_disjoint (bal : ballot) :
  NoDup (List.concat bal) ->
  forall i j x, i <> j -> In x (nth i bal []) -> In x (nth j bal []) -> False.
Proof.
  induction bal as [|g bal IH]; intros Hnd i j x Hne Hi Hj.
  - destruct i; destruct Hi.
  - simpl in Hnd.
    assert (Hcross : forall k, In x g -> In x (nth k bal []) -> False).
    { intros k Hg Hk.
      assert (Hc : In x (List.concat bal)).
      { apply in_concat. exists (nth k bal []). split; auto.
        apply nth_In. now apply in_rank_lt with x. }
      exact (nodup_app_disjoint g (List.concat bal) x Hnd Hg Hc). }
    destruct i as [|i]; destruct j as [|j]; simpl in Hi, Hj.
    + congruence.
    + now apply (Hcross j).
    + now apply (Hcross i).
    + apply (IH (NoDup_app_remove_l _ _ Hnd) i j x); auto.
Qed.

Lemma rank_nodup (bal : ballot) (i : nat) :
  NoDup (List.concat bal) -> NoDup (nth i bal []).
Proof.
  revert i. induction bal as [|g bal IH]; intros i Hnd.
  - destruct i; constructor.
  - simpl in Hnd. destruct i as [|i]; simpl.
    + now apply NoDup_app_remove_r in Hnd.
    + apply IH. now apply NoDup_app_remove_l in Hnd.
Qed.

(** A ballot that lists no candidate twice makes no call twice. *)
Lemma calls_nodup (bal : ballot) : NoDup (List.concat bal) -> NoDup (calls bal).
Proof.
  intros Hnd. unfold calls.
  apply NoDup_flat_map; [apply seq_NoDup| |].
  - intros ix _. apply NoDup_flat_map; [now apply rank_nodup| |].
    + intros row _. apply NoDup_flat_map; [apply seq_NoDup| |].
      * intros jx _. destruct (jx =? ix)%nat; [constructor|].
        apply NoDup_map_NoDup_ForallPairs; [|now apply rank_nodup].
        intros c1 c2 _ _ E. now inversion E.
      * intros j1 j2 z _ _ Hne H1 H2.
        destruct (j1 =? ix)%nat; [destruct H1|].
        destruct (j2 =? ix)%nat; [destruct H2|].
        apply in_map_iff in H1. destruct H1 as (c1 & <- & Hc1).
        apply in_map_iff in H2. destruct H2 as (c2 & E & Hc2).
        inversion E; subst.
        exact (ranks_disjoint bal Hnd j1 j2 c1 Hne Hc1 Hc2).
    + intros r1 r2 z _ _ Hne H1 H2.
      apply in_flat_map in H1. destruct H1 as (j1 & _ & H1).
      apply in_flat_map in H2. destruct H2 as (j2 & _ & H2).
      destruct (j1 =? ix)%nat; [destruct H1|].
      destruct (j2 =? ix)%nat; [destruct H2|].
      apply in_map_iff in H1. destruct H1 as (c1 & <- & Hc1).
      apply in_map_iff in H2. destruct H2 as (c2 & E & Hc2).
      inversion E. congruence.
  - intros i1 i2 z _ _ Hne H1 H2.
    apply in_flat_map in H1. destruct H1 as (r1 & Hr1 & H1).
    apply in_flat_map in H2. destruct H2 as (r2 & Hr2 & H2).
    apply in_flat_map in H1. destruct H1 as (j1 & _ & H1).
    apply in_flat_map in H2. destruct H2 as (j2 & _ & H2).
    destruct (j1 =? i1)%nat; [destruct H1|].
    destruct (j2 =? i2)%nat; [destruct H2|].
    apply in_map_iff in H1. destruct H1 as (c1 & <- & Hc1).
    apply in_map_iff in H2. destruct H2 as (c2 & E & Hc2).
    inversion E; subst.
    exact (ranks_disjoint bal Hnd i1 i2 r1 Hne Hr1 Hr2).
Qed.

Lemma in_calls_won (bal : ballot) (a b : string) :
  In ((a, b), true) (calls bal) <-> prefers bal a b.
Proof.
  rewrite in_calls. unfold prefers. split.
  - intros (ix & jx & Hne & Ha & Hb & E). exists ix, jx.
    symmetry in E. apply Nat.ltb_lt in E. auto.
  - intros (ix & jx & Hlt & Ha & Hb). exists ix, jx.
    repeat split; auto; [lia|]. symmetry. now apply Nat.ltb_lt.
Qed.

Lemma in_calls_lost (bal : ballot) (a b : string) :
  In ((a, b), false) (calls bal) <-> prefers bal b a.
Proof.
  rewrite in_calls. unfold prefers. split.
  - intros (ix & jx & Hne & Ha & Hb & E). exists jx, ix.
    symmetry in E. apply Nat.ltb_ge in E. repeat split; auto. lia.
  - intros (jx & ix & Hlt & Hb & Ha). exists ix, jx.
    repeat split; auto; [lia|]. symmetry. apply Nat.ltb_ge. lia.
Qed.

(** One ballot without repetition moves the margin of (a, b) up by one when
    it prefers [a], down by one when it prefers [b]. *)
Lemma weight_ballot (bal : ballot) (a b : string) :
  NoDup (List.concat bal) ->
  weight sign (a, b) (calls bal)
  = ((if prefersb bal a b then 1 else 0)
     - (if prefersb bal b a then 1 else 0))%Z.
Proof.
  intros Hnd. rewrite weight_count_occ.
  rewrite !(count_occ_nodup _ _ (calls_nodup bal Hnd)). unfold sign.
  destruct (in_dec call_dec (a, b, true) (calls bal)) as [H1|H1];
    destruct (in_dec call_dec (a, b, false) (calls bal)) as [H2|H2];
    rewrite in_calls_won in H1; rewrite in_calls_lost in H2;
    rewrite <- prefersb_prefers in H1; rewrite <- prefersb_prefers in H2;
    destruct (prefersb bal a b); destruct (prefersb bal b a);
    try lia; congruence.
Qed.

Lemma sumZ_indicator {A : Type} (f : A -> bool) (l : list A) :
  sumZ (fun x => if f x then 1%Z else 0%Z) l = len (filter f l).
Proof.
  unfold len. induction l as [|x l IH]; simpl; auto.
  rewrite IH. destruct (f x); cbn [List.length]; lia.
Qed.

Lemma weight_ballots (bs : list ballot) (a b : string) :
  (forall bal, In bal bs -> NoDup (List.concat bal)) ->
  weight sign (a, b) (flat_map calls bs)
  = (preferring bs a b - preferring bs b a)%Z.
Proof.
  intros Hv. unfold preferring. rewrite weight_flat_map.
  rewrite <- !sumZ_indicator.
  rewrite (sumZ_ext_in _ (fun bal => ((if prefersb bal a b then 1 else 0)
                                      + - (if prefersb bal b a then 1 else 0))%Z)).
  - rewrite sumZ_plus, sumZ_opp. lia.
  - intros bal Hin. rewrite (weight_ballot bal a b (Hv bal Hin)). lia.
Qed.

(** X9: when no ballot lists a candidate twice, the table has an entry for
    (A, B) exactly when some ballot lists A and B in two different ranks,
    and the entry is the number of ballots that rank A before B minus the
    number that rank B before A; for a pair without entry both numbers
    are 0. *)
Theorem margin_counts_preferences (c : Contest) (a b : string) :
  margins c = [] ->
  (forall bal, In bal (ballots c) -> NoDup (List.concat bal)) ->
  match get (a, b) (margins (fst (computemargins c))) with
  | Some v =>
      ranked_apart (ballots c) a b /\
      v = (preferring (ballots c) a b - preferring (ballots c) b a)%Z
  | None =>
      ~ ranked_apart (ballots c) a b /\
      preferring (ballots c) a b = 0%Z /\ preferring (ballots c) b a = 0%Z
  end.
Proof.
  intros Hm Hv. rewrite (computemargins_margins c Hm), get_apply_calls.
  destruct (called (a, b) (flat_map calls (ballots c))) eqn:Hc.
  - split; [now apply called_ranked_apart|]. simpl. now apply weight_ballots.
  - assert (H : forall x y, called (x, y) (flat_map calls (ballots c)) = false ->
              preferring (ballots c) x y = 0%Z).
    { intros x y Hxy. unfold preferring, len.
      destruct (filter (fun bal => prefersb bal x y) (ballots c)) as [|bal l] eqn:F;
        [reflexivity|].
      assert (Hin : In bal (filter (fun bal => prefersb bal x y) (ballots c)))
        by (rewrite F; now left).
      apply filter_In in Hin. destruct Hin as [Hin Hp].
      apply prefersb_prefers, in_calls_won in Hp.
      assert (called (x, y) (flat_map calls (ballots c)) = true); [|congruence].
      apply called_in. exists true. apply in_flat_map. eauto. }
    split; [|split; [now apply H|]].
    + intros Hr. apply called_ranked_apart in Hr. congruence.
    + apply H.
      destruct (called (b, a) (flat_map calls (ballots c))) eqn:Hba; auto.
      apply called_ranked_apart, ranked_apart_sym, called_ranked_apart in Hba.
      congruence.
Qed.

Lemma margin_counts_preferences_witness :
  match get (DDD, AAA) (margins (fst (computemargins doc_contest))) with
  | Some v =>
      ranked_apart (ballots doc_contest) DDD AAA /\
      v = (preferring (ballots doc_contest) DDD AAA
           - preferring (ballots doc_contest) AAA DDD)%Z
  | None =>
      ~ ranked_apart (ballots doc_contest) DDD AAA /\
      preferring (ballots doc_contest) DDD AAA = 0%Z
      /\ preferring (ballots doc_contest) AAA DDD = 0%Z
  end.
Proof.
  apply (margin_counts_preferences doc_contest DDD AAA).
  - reflexivity.
  - intros bal Hin. simpl in Hin.
    repeat (destruct Hin as [<-|Hin];
            [repeat constructor; simpl; intuition discriminate|]).
    destruct Hin.
Defined.

(** ** [Contest] and [read_file] *)

Lemma fold_raise {A B : Type} (f : A -> B -> Py A) (l : list B) (e : exn) :
  fold_left (fun acc x => a <- acc ;; f a x) l (Raise e) = Raise e.
Proof. induction l as [|x l IH]; simpl; auto. Qed.

Lemma has_key_in {V : Type} (k : string) (d : dict string V) :
  has_key k d = true <-> In k (keys d).
Proof.
  unfold has_key. destruct (get k d) eqn:E.
  - split; auto. intros _. eapply get_some_in_keys; eauto.
  - split; [discriminate|]. intros Hin. now apply get_none_not_in in E.
Qed.

Lemma keys_fold_set (l : list string) :
  forall (d : dict string bool) (k : string),
    In k (keys (fold_left (fun d key => set key true d) l d))
    <-> In k (keys d) \/ In k l.
Proof.
  induction l as [|x l IH]; intros d k; simpl; [tauto|].
  rewrite IH. split.
  - intros [H|H]; auto. apply keys_set_incl in H. destruct H as [->|H]; auto.
  - intros [H|[->|H]]; auto.
    + left. now apply keys_set_keep.
    + left. destruct (in_dec string_dec k (keys d)) as [Hin|Hnin].
      * now apply keys_set_keep.
      * rewrite (set_fresh k true d Hnin). unfold keys. rewrite map_app.
        apply in_or_app. right. now left.
Qed.

Lemma iskey_fields (ents : list string) (w : Z) (key : string) :
  iskey (Contest_fields ents w) key = true <-> In key ents.
Proof.
  unfold iskey. simpl.
  change (has_key key (fold_left (fun d k => set k true d) ents []) = true
          <-> In key ents).
  rewrite has_key_in, keys_fold_set. simpl. tauto.
Qed.

(** The table built from a list of names has as many entries as the list
    only when no name comes twice. *)
Lemma fold_set_length (l : list string) :
  forall d : dict string bool,
    (List.length (fold_left (fun d key => set key true d) l d)
     <= List.length d + List.length l)%nat /\
    (List.length (fold_left (fun d key => set key true d) l d)
     = (List.length d + List.length l)%nat ->
     NoDup l /\ forall x, In x l -> ~ In x (keys d)).
Proof.
  induction l as [|x l IH]; intros d; simpl.
  - split; [lia|]. intros _. split; [constructor | intros x []].
  - destruct (IH (set x true d)) as [Hle Heq].
    destruct (in_dec string_dec x (keys d)) as [Hin|Hnin].
    + assert (Hlen : List.length (set x true d) = List.length d).
      { clear -Hin. unfold keys in Hin.
        induction d as [|[k v] d IHd]; simpl in *; [tauto|].
        destruct (keyb_spec x k) as [->|Hne]; simpl; auto.
        destruct Hin as [->|Hin]; [congruence|]. now rewrite IHd. }
      split; [lia|]. intros E. lia.
    + rewrite (set_fresh x true d Hnin) in *. rewrite length_app in *. simpl in *.
      split; [lia|]. intros E.
      destruct Heq as [Hnd Hdis]; [lia|]. split.
      * constructor; auto. intros Hx. apply (Hdis x Hx).
        unfold keys. rewrite map_app. apply in_or_app. right. now left.
      * intros y [<-|Hy]; auto. intros Hyd. apply (Hdis y Hy).
        unfold keys. rewrite map_app. apply in_or_app. now left.
Qed.

Lemma check_rank_keys (contest : Contest) (subls : list string) :
  forall dic dic', check_rank contest dic subls = Return dic' ->
    keys dic' = keys dic ++ subls /\
    (forall v, In v subls -> iskey contest v = true) /\
    (NoDup (keys dic) -> NoDup (keys dic')).
Proof.
  unfold check_rank.
  induction subls as [|val subls IH]; intros dic dic' Hrun; simpl in Hrun.
  - inversion Hrun; subst. rewrite app_nil_r. repeat split; auto; intros v [].
  - destruct (iskey contest val) eqn:Hk; simpl in Hrun;
      [|rewrite fold_raise in Hrun; discriminate].
    destruct (has_key val dic) eqn:Hh; simpl in Hrun;
      [rewrite fold_raise in Hrun; discriminate|].
    assert (Hnin : ~ In val (keys dic)).
    { intros Hin. apply has_key_in in Hin. congruence. }
    destruct (IH _ _ Hrun) as (E & Hall & Hnd).
    rewrite (set_fresh val true dic Hnin) in E, Hnd.
    unfold keys in E, Hnd. rewrite map_app in E, Hnd. simpl in E, Hnd.
    rewrite <- app_assoc in E. simpl in E.
    repeat split; auto.
    + intros v [<-|Hv]; auto.
    + intros Hd. apply Hnd. apply NoDup_app; auto.
      * constructor; [intros [] | constructor].
      * intros a Ha [<-|[]]. contradiction.
Qed.

Lemma check_ranks_keys (contest : Contest) (ls : ballot) :
  forall dic dic',
    fold_left (fun acc subls => dic <- acc ;; check_rank contest dic subls)
              ls (Return dic) = Return dic' ->
    keys dic' = keys dic ++ List.concat ls /\
    (forall v, In v (List.concat ls) -> iskey contest v = true) /\
    (NoDup (keys dic) -> NoDup (keys dic')).
Proof.
  induction ls as [|subls ls IH]; intros dic dic' Hrun; simpl in Hrun.
  - inversion Hrun; subst. simpl. rewrite app_nil_r. repeat split; auto;
      intros v [].
  - destruct (check_rank contest dic subls) as [dic1|e] eqn:E; simpl in Hrun;
      [|rewrite fold_raise in Hrun; discriminate].
    destruct (check_rank_keys contest subls dic dic1 E) as (E1 & H1 & N1).
    destruct (IH dic1 dic' Hrun) as (E2 & H2 & N2).
    simpl. split; [now rewrite E2, E1, <- app_assoc|]. split; auto.
    intros v Hv. apply in_app_or in Hv. destruct Hv; auto.
Qed.

Lemma concat_snoc {A : Type} (ls : list (list A)) (l : list A) :
  List.concat (ls ++ [l]) = List.concat ls ++ l.
Proof. rewrite concat_app. simpl. now rewrite app_nil_r. Qed.

(** What one ballot line adds to the contest. *)
Lemma read_ballot_adds (ac : bool) (contest c' : Contest) (ln : string) :
  NoDup (entries contest) ->
  (forall key, iskey contest key = true <-> In key (entries contest)) ->
  read_ballot ac contest ln = Return c' ->
  exists bal,
    c' = addballot contest bal /\
    valid_ballot (entries contest) bal /\
    (ac = true -> forall e, In e (entries contest) -> In e (List.concat bal)).
Proof.
  intros Hnd Hkey Hrun. unfold read_ballot in Hrun.
  destruct (fold_left _ (map (split_on "/") (split_ws ln)) (Return []))
    as [dic|e] eqn:E; [|discriminate].
  simpl in Hrun. inversion Hrun as [Hc']; clear Hrun.
  destruct (check_ranks_keys contest _ [] dic E) as (Ek & Hall & Hn).
  simpl in Ek. specialize (Hn (NoDup_nil _)). rewrite Ek in Hn.
  set (ls := map (split_on "/") (split_ws ln)) in *.
  assert (Hv : valid_ballot (entries contest) ls).
  { split; auto. intros x Hx. now apply Hkey, Hall. }
  destruct ac.
  - remember (filter (fun val => negb (has_key val dic)) (entries contest))
      as final eqn:F.
    assert (Hfinal : forall x, In x final <->
                               In x (entries contest) /\ ~ In x (List.concat ls)).
    { intros x. rewrite F, filter_In, negb_true_iff.
      rewrite <- Ek, <- has_key_in.
      destruct (has_key x dic); split; intros [H1 H2]; split; auto; congruence. }
    assert (Hfnd : NoDup final) by (rewrite F; now apply NoDup_filter).
    clear F. destruct final as [|f0 final']; simpl in Hc'.
    + exists ls. split; [now symmetry|]. split; auto.
      intros _ e0 He.
      destruct (in_dec string_dec e0 (List.concat ls)) as [|Hn0]; auto.
      destruct (proj2 (Hfinal e0) (conj He Hn0)).
    + exists (ls ++ [f0 :: final']).
      split; [now symmetry|]. unfold valid_ballot. rewrite concat_snoc. split.
      * split.
        -- apply NoDup_app; [apply Hv | assumption |].
           intros x Hx Hf. apply Hfinal in Hf. tauto.
        -- intros x Hx. apply in_app_or in Hx. destruct Hx as [Hx|Hx].
           ++ now apply Hv.
           ++ now apply Hfinal in Hx.
      * intros _ e0 He. apply in_or_app.
        destruct (in_dec string_dec e0 (List.concat ls)) as [|Hn0]; auto.
        right. apply Hfinal. auto.
  - exists ls. split; [now symmetry|]. split; auto. discriminate.
Qed.

Lemma read_ballots_valid (ac : bool) (lns : list string) :
  forall c0 c,
    NoDup (entries c0) ->
    (forall key, iskey c0 key = true <-> In key (entries c0)) ->
    fold_left (fun acc ln => contest <- acc ;; read_ballot ac contest ln)
              lns (Return c0) = Return c ->
    entries c = entries c0 /\ margins c = margins c0 /\ count c = count c0 /\
    labels c = labels c0 /\
    exists added,
      ballots c = ballots c0 ++ added /\
      List.length added = List.length lns /\
      forall bal, In bal added ->
        valid_ballot (entries c0) bal /\
        (ac = true -> forall e, In e (entries c0) -> In e (List.concat bal)).
Proof.
  induction lns as [|ln lns IH]; intros c0 c Hnd Hkey Hrun; simpl in Hrun.
  - inversion Hrun; subst. do 4 (split; [reflexivity|]).
    exists []. rewrite app_nil_r. do 2 (split; [reflexivity|]). intros b0 [].
  - destruct (read_ballot ac c0 ln) as [c1|e] eqn:E; simpl in Hrun;
      [|rewrite fold_raise in Hrun; discriminate].
    destruct (read_ballot_adds ac c0 c1 ln Hnd Hkey E) as (bal & -> & Hv & Hc).
    destruct (IH (addballot c0 bal) c Hnd Hkey Hrun)
      as (He & Hm & Hcnt & Hl & added & Hb & Hlen & Hall).
    simpl in *. do 4 (split; [assumption|]).
    exists (bal :: added). rewrite Hb, <- app_assoc. simpl.
    split; [reflexivity|]. split; [now rewrite Hlen|].
    intros b0 [<-|Hb0]; [split; assumption | now apply Hall].
Qed.

(** What [read_file] checked when it returns a contest. *)
Lemma read_file_checked (lines : list string) (ac : bool) (c : Contest) :
  read_file lines ac = Return c ->
  entries c <> [] /\ NoDup (entries c) /\ margins c = [] /\
  count c = len (entries c) /\
  forall bal, In bal (ballots c) ->
    valid_ballot (entries c) bal /\
    (ac = true -> forall e, In e (entries c) -> In e (List.concat bal)).
Proof.
  unfold read_file.
  destruct (read_lines lines None []) as [[contents lns]|e]; [|discriminate].
  simpl.
  destruct (truthy_contents contents); [|discriminate]. simpl.
  set (ents := split_ws (drop_first match contents with
                                     | Some s => s
                                     | None => EmptyString
                                     end)).
  destruct (truthy ents) eqn:Ht; [|discriminate]. simpl.
  destruct (Z.eqb_spec (len (fold_left (fun d val => set val true d) ents
                                       ([] : list (string * bool))))
                       (len ents)) as [El|]; [|discriminate].
  simpl. unfold Contest_init.
  destruct (max_list _) as [w|e]; [|discriminate]. simpl.
  intros Hrun.
  assert (Hnd : NoDup ents).
  { destruct (fold_set_length ents []) as [_ H]. apply H.
    unfold len in El. simpl. lia. }
  destruct (read_ballots_valid ac lns (Contest_fields ents w) c Hnd
              (iskey_fields ents w) Hrun)
    as (He & Hm & Hcnt & _ & added & Hb & _ & Hall).
  simpl in *. rewrite He, Hm, Hcnt.
  split; [intros E; rewrite E in Ht; discriminate|].
  split; [assumption|]. do 2 (split; [reflexivity|]).
  intros bal Hbal. rewrite Hb in Hbal. now apply Hall.
Qed.

(** X10: a contest that [read_file] returns has been checked: the star line
    named at least one candidate and none twice, the margins table is still
    empty, and every ballot lists only candidates of the contest and none of
    them twice. *)
Theorem read_file_validates (lines : list string) (ac : bool) (c : Contest) :
  read_file lines ac = Return c ->
  entries c <> [] /\ NoDup (entries c) /\ margins c = [] /\
  count c = len (entries c) /\
  forall bal, In bal (ballots c) ->
    NoDup (List.concat bal) /\ forall x, In x (List.concat bal) -> In x (entries c).
Proof.
  intros Hrun. destruct (read_file_checked lines ac c Hrun) as (H1 & H2 & H3 & H4 & H5).
  repeat (split; [assumption|]). intros bal Hbal. now apply H5.
Qed.

Lemma read_file_validates_witness :
  entries doc_contest <> [] /\ NoDup (entries doc_contest) /\
  margins doc_contest = [] /\ count doc_contest = len (entries doc_contest) /\
  forall bal, In bal (ballots doc_contest) ->
    NoDup (List.concat bal) /\
    forall x, In x (List.concat bal) -> In x (entries doc_contest).
Proof.
  apply (read_file_validates doc_file false doc_contest). vm_compute. reflexivity.
Defined.

Lemma read_lines_spec (lines : list string) :
  forall (contents : option string) (b : list string),
    read_lines lines contents b =
    match starred lines with
    | [] => Return (contents, b ++ ballot_lines_of lines)
    | s :: more =>
        if truthy_contents contents
        then Raise (Exception "More than one line in the input file begins with *.")
        else match more with
             | [] => Return (Some s, b ++ ballot_lines_of lines)
             | _ :: _ =>
                 Raise (Exception "More than one line in the input file begins with *.")
             end
    end.
Proof.
  unfold starred, ballot_lines_of.
  induction lines as [|raw rest IH]; intros contents b; simpl.
  - now rewrite app_nil_r.
  - destruct (truthy_string raw); simpl; [|now rewrite app_nil_r].
    destruct (strip_string raw) as [|c0 s0].
    + change (is_ballot_line EmptyString) with false. simpl. apply IH.
    + change (is_ballot_line (String c0 s0))
        with (negb (Ascii.eqb c0 "#") && negb (Ascii.eqb c0 "*")).
      simpl.
      destruct (Ascii.eqb_spec c0 "#") as [E1|N1];
        destruct (Ascii.eqb_spec c0 "*") as [E2|N2]; subst; try discriminate;
        simpl.
      * apply IH.
      * destruct (truthy_contents contents) eqn:T; [reflexivity|].
        rewrite IH. simpl.
        destruct (filter (startswith "*") (read_until_eof rest)); reflexivity.
      * rewrite IH, <- app_assoc. reflexivity.
Qed.

(** The ballot a line adds, exactly. *)
Lemma read_ballot_exact (ac : bool) (contest c' : Contest) (ln : string) :
  read_ballot ac contest ln = Return c' ->
  c' = addballot contest
         (if ac then complete_ballot (entries contest) (parse_ballot ln)
          else parse_ballot ln).
Proof.
  unfold read_ballot. fold (parse_ballot ln). intros Hrun.
  destruct (fold_left _ (parse_ballot ln) (Return [])) as [dic|e] eqn:E;
    [|discriminate].
  cbn [bind] in Hrun. inversion Hrun as [Hc']; clear Hrun.
  destruct (check_ranks_keys contest _ [] dic E) as (Ek & _ & _).
  simpl in Ek. destruct ac; [|reflexivity].
  unfold complete_ballot.
  rewrite (filter_ext_in (fun val => negb (has_key val dic))
             (fun e => negb (listed e (List.concat (parse_ballot ln))))).
  - reflexivity.
  - intros e _. f_equal. apply eq_true_iff_eq.
    rewrite has_key_in, listed_in, Ek. reflexivity.
Qed.

Lemma read_ballots_exact (ac : bool) (lns : list string) :
  forall c0 c,
    fold_left (fun acc ln => contest <- acc ;; read_ballot ac contest ln)
              lns (Return c0) = Return c ->
    entries c = entries c0 /\
    ballots c
    = ballots c0
      ++ map (fun ln => if ac then complete_ballot (entries c0) (parse_ballot ln)
                        else parse_ballot ln) lns.
Proof.
  induction lns as [|ln lns IH]; intros c0 c Hrun; simpl in Hrun.
  - inversion Hrun; subst. now rewrite app_nil_r.
  - destruct (read_ballot ac c0 ln) as [c1|e] eqn:E; simpl in Hrun;
      [|rewrite fold_raise in Hrun; discriminate].
    apply read_ballot_exact in E. subst c1.
    destruct (IH _ _ Hrun) as [He Hb]. simpl in He, Hb.
    split; auto. rewrite Hb, <- app_assoc. reflexivity.
Qed.

(** The ballots of the contest [read_file] returns, one per ballot line. *)
Lemma read_file_ballots (lines : list string) (ac : bool) (c : Contest) :
  read_file lines ac = Return c ->
  ballots c
  = map (fun ln => if ac then complete_ballot (entries c) (parse_ballot ln)
                   else parse_ballot ln)
        (ballot_lines_of lines).
Proof.
  unfold read_file. rewrite (read_lines_spec lines None []).
  destruct (starred lines) as [|s [|s' more]]; cbn [truthy_contents bind];
    try discriminate.
  cbn [fst snd truthy_contents app].
  destruct (negb (truthy_string s)); [discriminate|].
  destruct (negb (truthy _)); [discriminate|].
  destruct (negb _); [discriminate|]. unfold Contest_init.
  destruct (max_list _) as [w|e]; [|discriminate]. cbn [bind]. intros Hrun.
  apply read_ballots_exact in Hrun. destruct Hrun as [He Hb].
  rewrite Hb, He. reflexivity.
Qed.

(** X11: with [assume_complete] the ballots of the returned contest are, in
    the order of the file, the ballots of the ballot lines, each completed:
    the candidates the line leaves out, when there are any, are appended as
    one last rank, in the order of the star line.  Every ballot then ranks
    every candidate of the contest, and only those. *)
Theorem read_file_completes_ballots (lines : list string) (c : Contest) :
  read_file lines true = Return c ->
  ballots c
  = map (fun ln =>
           let bal := parse_ballot ln in
           let final := filter (fun e => negb (listed e (List.concat bal)))
                               (entries c) in
           if truthy final then bal ++ [final] else bal)
        (ballot_lines_of lines) /\
  forall bal e, In bal (ballots c) ->
    (In e (entries c) <-> In e (List.concat bal)).
Proof.
  intros Hrun. split.
  - exact (read_file_ballots lines true c Hrun).
  - intros bal e Hbal.
    destruct (read_file_checked lines true c Hrun) as (_ & _ & _ & _ & H).
    destruct (H bal Hbal) as [[_ Hin] Hall]. split; auto.
Qed.

Lemma read_file_completes_ballots_witness :
  ballots doc_file_complete
  = [ [[DDD]; [CCC]; [BBB]; [AAA]];
      [[DDD]; [AAA]; [BBB]; [CCC]];
      [[DDD]; [AAA; CCC]; [BBB]];
      [[CCC]; [AAA; DDD; BBB]];
      [[AAA]; [BBB; CCC; DDD]];
      [[AAA; DDD]; [BBB; CCC]] ] /\
  forall bal e, In bal (ballots doc_file_complete) ->
    (In e (entries doc_file_complete) <-> In e (List.concat bal)).
Proof.
  destruct (read_file_completes_ballots doc_file doc_file_complete) as [Hb Hall].
  - vm_compute. reflexivity.
  - split; [rewrite Hb; vm_compute; reflexivity | exact Hall].
Defined.

(** X12: [read_file] wants exactly one line that begins with a star among
    the lines before the end of the file: with none, and with two or more, it
    raises the matching exception whatever else the file holds, and with one
    the candidates of a returned contest are the words after that star. *)
Theorem read_file_star_lines (lines : list string) (ac : bool) :
  match starred lines with
  | [] => read_file lines ac
          = Raise (Exception "No line in the input file begins with *.")
  | [s] => forall c, read_file lines ac = Return c ->
                     entries c = split_ws (drop_first s)
  | _ :: _ :: _ =>
      read_file lines ac
      = Raise (Exception "More than one line in the input file begins with *.")
  end.
Proof.
  unfold read_file. rewrite (read_lines_spec lines None []).
  cbn [truthy_contents app].
  destruct (starred lines) as [|s [|s' more]] eqn:S; try reflexivity.
  assert (Hs : In s (starred lines)) by (rewrite S; now left).
  unfold starred in Hs. apply filter_In in Hs. destruct Hs as [_ Hs].
  assert (Ts : truthy_string s = true) by (destruct s; [discriminate|reflexivity]).
  cbn [bind fst snd truthy_contents]. rewrite Ts. cbn [negb].
  set (ents := split_ws (drop_first s)).
  intros c.
  destruct (truthy ents); [|discriminate]. cbn [negb].
  destruct (Z.eqb_spec (len (fold_left (fun d val => set val true d) ents
                                       ([] : list (string * bool))))
                       (len ents)) as [El|]; [|discriminate].
  cbn [negb]. unfold Contest_init.
  destruct (max_list _) as [w|e]; [|discriminate]. cbn [bind]. intros Hrun.
  assert (Hnd : NoDup ents).
  { destruct (fold_set_length ents []) as [_ H]. apply H.
    unfold len in El. simpl. lia. }
  destruct (read_ballots_valid ac _ (Contest_fields ents w) c Hnd
              (iskey_fields ents w) Hrun) as (He & _).
  exact He.
Qed.

Lemma read_file_star_lines_witness :
  entries nbsp_contest = ["1"; "2"; "3"].
Proof.
  apply (read_file_star_lines nbsp_file false nbsp_contest).
  vm_compute. reflexivity.
Defined.

Lemma read_lines_skips (raw : string) (l1 l2 : list string) :
  truthy_string raw = true ->
  is_ballot_line (strip_string raw) = false ->
  startswith "*" (strip_string raw) = false ->
  forall contents b,
    read_lines (l1 ++ raw :: l2) contents b = read_lines (l1 ++ l2) contents b.
Proof.
  intros Hraw Hb Hs.
  induction l1 as [|r l1 IH]; intros contents b; simpl.
  - rewrite Hraw. simpl. unfold is_ballot_line in Hb.
    destruct (strip_string raw) as [|c0 s0]; simpl in *; auto.
    rewrite Hs in *. simpl in Hb. rewrite andb_true_r in Hb.
    apply negb_false_iff in Hb. now rewrite Hb.
  - destruct (negb (truthy_string r)); auto.
    destruct (negb (truthy_string (strip_string r))); auto.
    destruct (startswith "#" (strip_string r)); auto.
    destruct (startswith "*" (strip_string r)); auto.
    destruct (truthy_contents contents); auto.
Qed.

(** X13: blank lines and comment lines of the file are ignored: a line that
    is not the end of the file and that is empty once stripped, or begins
    with [#] once stripped, can be put anywhere in the file or taken out
    without any change to what [read_file] returns or raises. *)
Theorem read_file_ignores_comments (raw : string) (l1 l2 : list string) (ac : bool) :
  truthy_string raw = true ->
  strip_string raw = EmptyString \/ startswith "#" (strip_string raw) = true ->
  read_file (l1 ++ raw :: l2) ac = read_file (l1 ++ l2) ac.
Proof.
  intros Hraw Hc. unfold read_file.
  rewrite (read_lines_skips raw l1 l2 Hraw); auto.
  - unfold is_ballot_line. destruct Hc as [->|Hc]; [reflexivity|].
    rewrite Hc. simpl. now rewrite andb_false_r.
  - destruct Hc as [->|Hc]; [reflexivity|].
    destruct (strip_string raw) as [|c0 s0]; [reflexivity|]. simpl in *.
    destruct (Ascii.eqb_spec c0 "#"); [subst; reflexivity|discriminate].
Qed.

Lemma read_file_ignores_comments_witness :
  read_file (firstn 1 doc_file
             ++ String.append "  # four candidates" newline :: skipn 1 doc_file)
            false
  = read_file (firstn 1 doc_file ++ skipn 1 doc_file) false.
Proof.
  apply read_file_ignores_comments.
  - reflexivity.
  - right. reflexivity.
Defined.

Lemma read_lines_second_star (star : string) (l1 l2 : list string) :
  truthy_string star = true ->
  startswith "*" (strip_string star) = true ->
  (forall raw, In raw l1 -> truthy_string raw = true) ->
  forall contents b,
    truthy_contents contents = true ->
    read_lines (l1 ++ star :: l2) contents b
    = Raise (Exception "More than one line in the input file begins with *.").
Proof.
  intros Hstar Hs. induction l1 as [|r l1 IH]; intros Hl1 contents b Hc; simpl.
  - rewrite Hstar. simpl.
    destruct (strip_string star) as [|c0 s0]; [discriminate|]. simpl in *.
    rewrite Hs.
    destruct (Ascii.eqb_spec c0 "#") as [->|_]; [discriminate|].
    now rewrite Hc.
  - rewrite (Hl1 r (or_introl eq_refl)). simpl.
    assert (Hl1' : forall raw, In raw l1 -> truthy_string raw = true)
      by (intros raw Hraw; apply Hl1; now right).
    destruct (negb (truthy_string (strip_string r))); auto.
    destruct (startswith "#" (strip_string r)); auto.
    destruct (startswith "*" (strip_string r)); auto.
    now rewrite Hc.
Qed.

Lemma read_lines_star_first (star : string) (l1 l2 : list string) :
  truthy_string star = true ->
  startswith "*" (strip_string star) = true ->
  (forall raw, In raw l1 -> truthy_string raw = true) ->
  forall b,
    read_lines (l1 ++ star :: l2) None b = read_lines (star :: l1 ++ l2) None b.
Proof.
  intros Hstar Hs.
  assert (Hhead : forall l b,
             read_lines (star :: l) None b
             = read_lines l (Some (strip_string star)) b).
  { intros l b. simpl. rewrite Hstar. simpl.
    destruct (strip_string star) as [|c0 s0]; [discriminate|]. simpl in *.
    rewrite Hs.
    destruct (Ascii.eqb_spec c0 "#") as [->|_]; [discriminate|]. reflexivity. }
  assert (Hnonempty : truthy_contents (Some (strip_string star)) = true).
  { simpl. destruct (strip_string star); [discriminate|reflexivity]. }
  induction l1 as [|r l1 IH]; intros Hl1 b; [reflexivity|].
  assert (Hl1' : forall raw, In raw l1 -> truthy_string raw = true)
    by (intros raw Hraw; apply Hl1; now right).
  rewrite Hhead. simpl. rewrite (Hl1 r (or_introl eq_refl)). simpl.
  destruct (negb (truthy_string (strip_string r))) eqn:B;
    [rewrite <- Hhead; now apply IH|].
  destruct (startswith "#" (strip_string r)) eqn:C;
    [rewrite <- Hhead; now apply IH|].
  destruct (startswith "*" (strip_string r)) eqn:S.
  - simpl in Hnonempty. rewrite Hnonempty. apply negb_false_iff in B.
    assert (T : truthy_contents (Some (strip_string r)) = true) by exact B.
    now apply read_lines_second_star.
  - rewrite <- Hhead. now apply IH.
Qed.

(** X14: the star line need not come first: moving it to the head of the
    file from anywhere before the end of the file changes neither the contest
    returned nor the exception raised. *)
Theorem read_file_star_anywhere (star : string) (l1 l2 : list string) (ac : bool) :
  truthy_string star = true ->
  startswith "*" (strip_string star) = true ->
  (forall raw, In raw l1 -> truthy_string raw = true) ->
  read_file (l1 ++ star :: l2) ac = read_file (star :: l1 ++ l2) ac.
Proof.
  intros Hstar Hs Hl1. unfold read_file.
  now rewrite (read_lines_star_first star l1 l2 Hstar Hs Hl1).
Qed.

Lemma read_file_star_anywhere_witness :
  read_file (skipn 1 doc_file ++ firstn 1 doc_file) false = Return doc_contest.
Proof.
  change (skipn 1 doc_file ++ firstn 1 doc_file)
    with (skipn 1 doc_file ++ String.append "  * AAA BBB CCC DDD" newline :: []).
  rewrite (read_file_star_anywhere (String.append "  * AAA BBB CCC DDD" newline)
             (skipn 1 doc_file) [] false).
  - vm_compute. reflexivity.
  - reflexivity.
  - vm_compute. reflexivity.
  - intros raw Hin. simpl in Hin.
    repeat (destruct Hin as [<-|Hin]; [reflexivity|]). destruct Hin.
Defined.

(** ** From the file to the margins *)

Lemma in_rank_concat (bal : ballot) (ix : nat) (a : string) :
  In a (nth ix bal []) -> In a (List.concat bal).
Proof.
  intros Hin. apply in_concat. exists (nth ix bal []). split; auto.
  apply nth_In. now apply in_rank_lt in Hin.
Qed.

Lemma uncalled_not_preferred (bs : list ballot) (x y : string) :
  called (x, y) (flat_map calls bs) = false -> preferring bs x y = 0%Z.
Proof.
  intros Hxy. unfold preferring, len.
  destruct (filter (fun bal => prefersb bal x y) bs) as [|bal l] eqn:F;
    [reflexivity|].
  assert (Hin : In bal (filter (fun bal => prefersb bal x y) bs))
    by (rewrite F; now left).
  apply filter_In in Hin. destruct Hin as [Hin Hp].
  apply prefersb_prefers, in_calls_won in Hp.
  assert (called (x, y) (flat_map calls bs) = true); [|congruence].
  apply called_in. exists true. apply in_flat_map. eauto.
Qed.

(** The entries of the margins table of a contest whose ballots are valid. *)
Lemma valid_margin_entry (c : Contest) (a b : string) :
  margins c = [] ->
  (forall bal, In bal (ballots c) -> valid_ballot (entries c) bal) ->
  match get (a, b) (margins (fst (computemargins c))) with
  | Some v =>
      a <> b /\ In a (entries c) /\ In b (entries c) /\
      v = (preferring (ballots c) a b - preferring (ballots c) b a)%Z
  | None => preferring (ballots c) a b = 0%Z /\ preferring (ballots c) b a = 0%Z
  end.
Proof.
  intros Hm Hb. rewrite (computemargins_margins c Hm), get_apply_calls.
  destruct (called (a, b) (flat_map calls (ballots c))) eqn:Hc.
  - pose proof Hc as Hr. apply called_ranked_apart in Hr.
    destruct Hr as (bal & ix & jx & Hbal & Hne & Ha & Hbb).
    destruct (Hb bal Hbal) as [Hnd Hin].
    repeat split.
    + intros ->. exact (ranks_disjoint bal Hnd ix jx b Hne Ha Hbb).
    + apply Hin. eapply in_rank_concat; eauto.
    + apply Hin. eapply in_rank_concat; eauto.
    + simpl. apply weight_ballots. intros bal' Hbal'. now apply Hb.
  - split; [now apply uncalled_not_preferred|].
    apply uncalled_not_preferred.
    destruct (called (b, a) (flat_map calls (ballots c))) eqn:Hba; auto.
    apply called_ranked_apart, ranked_apart_sym, called_ranked_apart in Hba.
    congruence.
Qed.

(** X15: from the file to the margins.  For a contest that [read_file]
    returned, the table [computemargins] fills has an entry only for two
    different candidates of the contest, the entry is the number of ballots
    that rank the first before the second minus the number that rank them the
    other way round, a pair without an entry is ranked apart by no ballot, and
    [compute] returns an outcome for that table. *)
Theorem read_file_margins (lines : list string) (ac : bool) (c : Contest)
  (a b : string) :
  read_file lines ac = Return c ->
  (exists o, compute (fst (computemargins c)) = Return o) /\
  match get (a, b) (margins (fst (computemargins c))) with
  | Some v =>
      a <> b /\ In a (entries c) /\ In b (entries c) /\
      v = (preferring (ballots c) a b - preferring (ballots c) b a)%Z
  | None => preferring (ballots c) a b = 0%Z /\ preferring (ballots c) b a = 0%Z
  end.
Proof.
  intros Hrun.
  destruct (read_file_checked lines ac c Hrun) as (_ & _ & Hm & _ & Hb).
  split.
  - exists (ranked_pairs (fst (computemargins c))). apply compute_ranked.
    + now apply computemargins_nodup.
    + now apply computemargins_no_positive_self.
  - apply valid_margin_entry; auto. intros bal Hbal. now apply Hb.
Qed.

Lemma read_file_margins_witness :
  (exists o, compute (fst (computemargins doc_contest)) = Return o) /\
  match get (DDD, AAA) (margins (fst (computemargins doc_contest))) with
  | Some v =>
      DDD <> AAA /\ In DDD (entries doc_contest) /\ In AAA (entries doc_contest) /\
      v = (preferring (ballots doc_contest) DDD AAA
           - preferring (ballots doc_contest) AAA DDD)%Z
  | None => preferring (ballots doc_contest) DDD AAA = 0%Z
            /\ preferring (ballots doc_contest) AAA DDD = 0%Z
  end.
Proof.
  apply (read_file_margins doc_file false doc_contest DDD AAA).
  vm_compute. reflexivity.
Defined.

(** ** Decimal numerals *)

Lemma parse_digits_uint (d : Decimal.uint) :
  forall (acc : nat) (b : bool),
    d <> Decimal.Nil \/ b = true ->
    parse_digits (Z.of_nat acc) b
      (list_ascii_of_string (DecimalString.NilEmpty.string_of_uint d))
    = Some (Z.of_nat (Nat.of_uint_acc d acc)).
Proof.
  induction d; intros acc b H;
    cbn [DecimalString.NilEmpty.string_of_uint list_ascii_of_string
         parse_digits Nat.of_uint_acc];
    try (destruct H as [H|H]; [congruence | now subst]);
    rewrite Nat.tail_mul_spec;
    match goal with
    | |- context [digit_val ?c] =>
        let v := eval vm_compute in (digit_val c) in
        change (digit_val c) with v
    end;
    cbv iota;
    match goal with
    | |- parse_digits ?z true _ = Some (Z.of_nat (Nat.of_uint_acc _ ?k)) =>
        replace z with (Z.of_nat k) by lia
    end;
    apply IHd; auto.
Qed.

Lemma str_of_nat_digits (n : nat) :
  Forall (fun ch => digit_val ch <> None) (list_ascii_of_string (str_of_nat n)).
Proof.
  unfold str_of_nat. generalize (Nat.to_uint n). intros d.
  induction d; simpl; constructor; auto; vm_compute; discriminate.
Qed.

Lemma to_uint_not_nil (n : nat) : Nat.to_uint n <> Decimal.Nil.
Proof.
  intros E. pose proof (DecimalNat.Unsigned.of_to n) as H. rewrite E in H.
  simpl in H. subst n. discriminate.
Qed.

Lemma digit_code (ch : ascii) :
  digit_val ch <> None -> (48 <= nat_of_ascii ch <= 57)%nat.
Proof.
  unfold digit_val. intros H.
  destruct ((48 <=? nat_of_ascii ch)%nat && (nat_of_ascii ch <=? 57)%nat) eqn:E;
    [|congruence].
  apply andb_true_iff in E. destruct E as [E1 E2].
  apply Nat.leb_le in E1. apply Nat.leb_le in E2. lia.
Qed.

Lemma digit_not_space (ch : ascii) : digit_val ch <> None -> c_isspace ch = false.
Proof.
  intros H. apply digit_code in H. unfold c_isspace.
  apply orb_false_iff. split.
  - apply andb_false_iff. right. apply Nat.leb_gt. lia.
  - apply Nat.eqb_neq. lia.
Qed.

Lemma lstrip_no_space (l : list ascii) :
  match l with ch :: _ => c_isspace ch = false | [] => True end -> lstrip l = l.
Proof. destruct l as [|ch l]; simpl; auto. now intros ->. Qed.

Lemma strip_digits (l : list ascii) :
  Forall (fun ch => digit_val ch <> None) l -> strip l = l.
Proof.
  intros H. unfold strip.
  assert (H1 : lstrip l = l).
  { apply lstrip_no_space. destruct H; auto. now apply digit_not_space. }
  rewrite H1.
  assert (H2 : lstrip (rev l) = rev l).
  { apply lstrip_no_space.
    assert (Hr : Forall (fun ch => digit_val ch <> None) (rev l))
      by now apply Forall_rev.
    destruct Hr; auto. now apply digit_not_space. }
  rewrite H2. apply rev_involutive.
Qed.

(** A string of ASCII digits has one character per byte, and [int] leaves
    its characters as they are. *)
Lemma chars_digits (l : list ascii) :
  Forall (fun ch => digit_val ch <> None) l -> chars l = map (fun b => [b]) l.
Proof.
  induction 1 as [|b l Hb Hl IH]; [reflexivity|].
  cbn [chars map]. rewrite IH. destruct Hl as [|c l Hc Hl]; [reflexivity|].
  cbn [map]. apply digit_code in Hc.
  assert (E : is_continuation c = false).
  { unfold is_continuation. apply andb_false_iff. left. apply Nat.leb_gt. lia. }
  now rewrite E.
Qed.

Lemma to_ascii_digits (l : list ascii) :
  Forall (fun ch => digit_val ch <> None) l ->
  to_ascii (map (fun b => [b]) l) = Some l.
Proof.
  induction 1 as [|b l Hb Hl IH]; [reflexivity|].
  cbn [map to_ascii]. rewrite IH.
  assert (E : to_ascii_char [b] = Some b).
  { apply digit_code in Hb. unfold to_ascii_char, code_point. cbn [fold_left].
    assert (Hn : (N_of_ascii b < 127)%N).
    { rewrite <- (N2Nat.id (N_of_ascii b)). fold (nat_of_ascii b). lia. }
    assert (H1 : (N_of_ascii b <? 128)%N = true) by (apply N.ltb_lt; lia).
    rewrite H1. apply N.ltb_lt in Hn. rewrite Hn.
    now rewrite ascii_N_embedding. }
  now rewrite E.
Qed.

(** [int(str(n))] is [n]. *)
Lemma int_str_of_nat (n : nat) : int (str_of_nat n) = Return (Z.of_nat n).
Proof.
  pose proof (str_of_nat_digits n) as Hd.
  unfold int, chars_of.
  rewrite (chars_digits _ Hd), (to_ascii_digits _ Hd), (strip_digits _ Hd).
  assert (P : parse_digits 0 false (list_ascii_of_string (str_of_nat n))
              = Some (Z.of_nat n)).
  { unfold str_of_nat.
    pose proof (parse_digits_uint (Nat.to_uint n) 0 false
                  (or_introl (to_uint_not_nil n))) as Q.
    change (Z.of_nat 0) with 0%Z in Q. rewrite Q.
    change (Nat.of_uint_acc (Nat.to_uint n) 0) with (Nat.of_uint (Nat.to_uint n)).
    now rewrite DecimalNat.Unsigned.of_to. }
  destruct (list_ascii_of_string (str_of_nat n)) as [|ch l] eqn:E.
  - now rewrite P.
  - assert (Hch : digit_val ch <> None) by now inversion Hd.
    clear Hd E. revert P Hch.
    destruct ch as [[] [] [] [] [] [] [] []]; intros P Hch; cbv beta iota;
      try (rewrite P; reflexivity); exfalso; apply Hch; reflexivity.
Qed.

Lemma str_of_nat_inj (n m : nat) : str_of_nat n = str_of_nat m -> n = m.
Proof.
  intros E. pose proof (int_str_of_nat n) as Hn. rewrite E, int_str_of_nat in Hn.
  inversion Hn. lia.
Qed.

(** ** [Contest.__init__] *)

Lemma numeral_index_some (n : nat) (s : string) (i : nat) :
  numeral_index n s = Some i <-> (i < n)%nat /\ s = str_of_nat (S i).
Proof.
  unfold numeral_index. split.
  - intros H. apply find_some in H. destruct H as [Hin E].
    apply in_seq in Hin. apply keyb_eq in E. split; [lia | assumption].
  - intros [Hlt ->].
    assert (G : forall m s0, (s0 <= i < s0 + m)%nat ->
              find (fun j => keyb (str_of_nat (S i)) (str_of_nat (S j))) (seq s0 m)
              = Some i).
    { induction m as [|m IH]; intros s0 Hr; [lia|]. simpl.
      destruct (keyb_spec (str_of_nat (S i)) (str_of_nat (S s0))) as [E|N].
      - apply str_of_nat_inj in E. congruence.
      - apply IH. destruct (Nat.eq_dec s0 i) as [->|]; [congruence | lia]. }
    apply G. lia.
Qed.

Lemma numeral_index_none (n : nat) (s : string) :
  numeral_index n s = None <-> forall i, (i < n)%nat -> s <> str_of_nat (S i).
Proof.
  split.
  - intros H i Hlt E.
    assert (numeral_index n s = Some i) by (apply numeral_index_some; auto).
    congruence.
  - intros H. destruct (numeral_index n s) as [i|] eqn:E; auto.
    apply numeral_index_some in E. destruct E as [Hlt E]. now apply H in E.
Qed.

Lemma get_labels_fold (k : string) (l : list string) :
  forall (s : nat) (d : dict string string),
    get k (fold_left (fun d ix => set (str_of_nat (fst ix + 1)) (snd ix) d)
                     (enumerate_from s l) d)
    = match find (fun i => keyb k (str_of_nat (S i))) (seq s (List.length l)) with
      | Some i => nth_error l (i - s)
      | None => get k d
      end.
Proof.
  induction l as [|x l IH]; intros s d; simpl; auto.
  rewrite IH. rewrite Nat.add_1_r.
  destruct (keyb_spec k (str_of_nat (S s))) as [E|N].
  - assert (F : find (fun i => keyb k (str_of_nat (S i))) (seq (S s) (List.length l))
                = None).
    { destruct (find _ (seq (S s) (List.length l))) as [i|] eqn:F; auto.
      apply find_some in F. destruct F as [Hin Ei]. apply in_seq in Hin.
      apply keyb_eq in Ei. rewrite E in Ei. apply str_of_nat_inj in Ei. lia. }
    rewrite F, Nat.sub_diag. subst k. simpl. apply get_set_same.
  - destruct (find _ (seq (S s) (List.length l))) as [i|] eqn:F.
    + apply find_some in F. destruct F as [Hin _]. apply in_seq in Hin.
      replace (i - s)%nat with (S (i - S s)) by lia. reflexivity.
    + apply get_set_other. congruence.
Qed.

Lemma get_labels (ents : list string) (w : Z) (k : string) :
  get k (labels (Contest_fields ents w))
  = match numeral_index (List.length ents) k with
    | Some i => nth_error ents i
    | None => None
    end.
Proof.
  simpl. rewrite get_labels_fold. unfold numeral_index.
  destruct (find _ _) as [i|]; auto. now rewrite Nat.sub_0_r.
Qed.

(** X16: [Contest(ents)] raises [ValueError] exactly on an empty list of
    candidates.  In the contest it builds otherwise, [iskey] is membership in
    [ents], the column width is the largest of 3 and of the lengths of the
    names, counted in characters, and [labels] maps the decimal numeral of
    each position, counted from 1, to the candidate at that position, and no
    other key. *)
Theorem Contest_init_contest (ents : list string) :
  match Contest_init ents with
  | Raise e => ents = [] /\ e = ValueError
  | Return c =>
      ents <> [] /\ entries c = ents /\ count c = len ents /\
      (forall k, iskey c k = true <-> In k ents) /\
      (3 <= colwidth c)%Z /\
      (forall k, In k ents -> (Z.of_nat (py_len k) <= colwidth c)%Z) /\
      (colwidth c = 3%Z \/
       exists k, In k ents /\ colwidth c = Z.of_nat (py_len k)) /\
      (forall i, get (str_of_nat (S i)) (labels c) = nth_error ents i) /\
      (forall k, get k (labels c) <> None ->
                 exists i, (i < List.length ents)%nat /\ k = str_of_nat (S i))
  end.
Proof.
  unfold Contest_init. destruct ents as [|e ents]; [simpl; auto|].
  set (l := e :: ents).
  change (max_list (map (fun key => Z.of_nat (py_len key)) l))
    with (Return (fold_left Z.max
                    (map (fun key => Z.of_nat (py_len key)) ents)
                    (Z.of_nat (py_len e)))).
  cbn [bind].
  destruct (fold_max_spec (map (fun key => Z.of_nat (py_len key)) ents)
              (Z.of_nat (py_len e))) as (H1 & H2 & H3).
  set (w := fold_left Z.max _ _) in *.
  split; [discriminate|]. split; [reflexivity|]. split; [reflexivity|].
  split; [apply iskey_fields|]. split; [simpl; lia|]. split; [|split; [|split]].
  - intros k [<-|Hk]; simpl; [lia|].
    assert (Z.of_nat (py_len k) <= w)%Z; [|lia].
    apply H2. apply in_map_iff. eauto.
  - cbn [colwidth Contest_fields].
    destruct (Z.max_spec w 3) as [[_ E]|[_ E]]; rewrite E; [now left|].
    right. destruct H3 as [H3|H3].
    + exists e. split; [now left | exact H3].
    + apply in_map_iff in H3. destruct H3 as (k & Ek & Hk).
      exists k. split; [now right | now rewrite Ek].
  - intros i. rewrite get_labels.
    destruct (numeral_index (List.length l) (str_of_nat (S i))) as [j|] eqn:E.
    + apply numeral_index_some in E. destruct E as [_ E].
      apply str_of_nat_inj in E. congruence.
    + symmetry. apply nth_error_None.
      destruct (Nat.lt_ge_cases i (List.length l)) as [Hlt|]; auto.
      exfalso. exact (proj1 (numeral_index_none _ _) E i Hlt eq_refl).
  - intros k. rewrite get_labels.
    destruct (numeral_index (List.length l) k) as [j|] eqn:E; [|congruence].
    intros _. apply numeral_index_some in E. eauto.
Qed.

(** ** [margin_to_matrix] *)

Lemma length_list_update {A : Type} (f : A -> A) (l : list A) :
  forall i, List.length (list_update i f l) = List.length l.
Proof. induction l as [|x l IH]; intros [|i]; simpl; auto. Qed.

Lemma nth_list_update {A : Type} (f : A -> A) (d : A) (l : list A) :
  forall i k, (i < List.length l)%nat ->
    nth k (list_update i f l) d = if (k =? i)%nat then f (nth i l d) else nth k l d.
Proof.
  induction l as [|x l IH]; intros i k Hi; simpl in Hi; [lia|].
  destruct i as [|i]; destruct k as [|k]; simpl; auto.
  apply IH. lia.
Qed.

Lemma in_list_update {A : Type} (f : A -> A) (l : list A) :
  forall i y, In y (list_update i f l) -> In y l \/ exists x, In x l /\ y = f x.
Proof.
  induction l as [|x l IH]; intros i y Hin; [destruct i; destruct Hin|].
  destruct i as [|i]; simpl in Hin.
  - destruct Hin as [<-|Hin]; [right; exists x; split; [now left | reflexivity]|].
    left. now right.
  - destruct Hin as [<-|Hin]; [left; now left|].
    destruct (IH i y Hin) as [H|(x0 & H & E)]; [left; now right|].
    right. exists x0. split; [now right | assumption].
Qed.

Lemma shape_np_full (n : nat) (v : Z) : shape n (np_full n v).
Proof.
  unfold shape, np_full. split; [apply repeat_length|].
  intros row Hin. apply repeat_spec in Hin. subst. apply repeat_length.
Qed.

Lemma cell_at_np_full (n : nat) (v : Z) (r k : nat) :
  (r < n)%nat -> (k < n)%nat -> cell_at (np_full n v) r k = v.
Proof.
  intros Hr Hk. unfold cell_at, np_full.
  rewrite nth_repeat_lt by exact Hr.
  now apply nth_repeat_lt.
Qed.

Lemma shape_update (n : nat) (M : matrix) (r k : nat) (v : Z) :
  shape n M -> shape n (list_update r (list_update k (fun _ => v)) M).
Proof.
  intros [HL HR]. split; [now rewrite length_list_update|].
  intros row Hin. apply in_list_update in Hin.
  destruct Hin as [Hin|(row0 & Hin & ->)]; auto.
  rewrite length_list_update. auto.
Qed.

Lemma cell_at_update (n : nat) (M : matrix) (r k r' k' : nat) (v : Z) :
  shape n M -> (r < n)%nat -> (k < n)%nat -> (r' < n)%nat ->
  cell_at (list_update r (list_update k (fun _ => v)) M) r' k'
  = if ((r' =? r) && (k' =? k))%nat then v else cell_at M r' k'.
Proof.
  intros [HL HR] Hr Hk Hr'. unfold cell_at.
  rewrite nth_list_update by lia.
  destruct (Nat.eqb_spec r' r) as [->|Hne]; simpl; auto.
  rewrite nth_list_update.
  - destruct (k' =? k)%nat; reflexivity.
  - rewrite (HR (nth r M [])); auto. apply nth_In. lia.
Qed.

Lemma np_index_in_axis (n : nat) (i : Z) :
  np_index n i = if in_axis n i then Return (axis_pos n i) else Raise IndexError.
Proof. reflexivity. Qed.

Lemma margin_to_matrix_fold (c : Contest) :
  margin_to_matrix c
  = fold_left (fun acc item => M <- acc ;; margin_store (Z.to_nat (count c)) M item)
              (margins c) (Return (np_full (Z.to_nat (count c)) 0%Z)).
Proof. reflexivity. Qed.

Lemma int_raises (s : string) (e : exn) : int s = Raise e -> e = ValueError.
Proof.
  unfold int. destruct (to_ascii (chars_of s)) as [l|];
    [|intros E; now inversion E].
  destruct (match strip l with [] => _ | _ => _ end);
    intros E; inversion E; auto.
Qed.

Lemma margin_store_item (n : nat) (M : matrix) (a b : string) (v : Z) :
  margin_store n M ((a, b), v)
  = match int a, int b with
    | Return i, Return j =>
        if (i - 1 =? j - 1)%Z then Return M
        else if in_axis n (i - 1) && in_axis n (j - 1)
        then if fits_int64 v
             then Return (list_update (axis_pos n (i - 1))
                            (list_update (axis_pos n (j - 1)) (fun _ => v)) M)
             else Raise OverflowError
        else Raise IndexError
    | _, _ => Raise ValueError
    end.
Proof.
  unfold margin_store. cbn [fst snd].
  destruct (int a) as [i|e] eqn:Ea; cbn [bind];
    [|apply int_raises in Ea; now subst].
  destruct (int b) as [j|e] eqn:Eb; cbn [bind];
    [|apply int_raises in Eb; now subst].
  destruct (i - 1 =? j - 1)%Z; [reflexivity|].
  unfold matrix_setitem. rewrite !np_index_in_axis.
  destruct (in_axis n (i - 1)); cbn [bind andb]; [|reflexivity].
  destruct (in_axis n (j - 1)); cbn [bind andb]; reflexivity.
Qed.

(** The loop of [margin_to_matrix], from any matrix of the right shape. *)
Lemma margin_loop_returns (n : nat) (l : list (fact * Z)) :
  forall M0, shape n M0 ->
    match fold_left (fun acc item => M <- acc ;; margin_store n M item)
                    l (Return M0) with
    | Return M => forallb (storable n) l = true /\ shape n M
    | Raise e => forallb (storable n) l = false /\
                 (e = ValueError \/ e = IndexError \/ e = OverflowError)
    end.
Proof.
  induction l as [|[[a b] v] l IH]; intros M0 HS;
    cbn [fold_left forallb bind]; auto.
  rewrite margin_store_item.
  change (storable n (a, b, v))
    with (match int a, int b with
          | Return i, Return j =>
              (i - 1 =? j - 1)%Z
              || (in_axis n (i - 1) && in_axis n (j - 1) && fits_int64 v)
          | _, _ => false
          end).
  destruct (int a) as [i|e]; [|rewrite fold_raise; auto].
  destruct (int b) as [j|e]; [|rewrite fold_raise; auto].
  destruct (i - 1 =? j - 1)%Z; cbn [orb]; [now apply IH|].
  destruct (in_axis n (i - 1) && in_axis n (j - 1)); cbn [andb];
    [|rewrite fold_raise; auto].
  destruct (fits_int64 v); [|rewrite fold_raise; auto].
  apply IH. now apply shape_update.
Qed.

(** X17: [margin_to_matrix] returns exactly when every item of the margins
    table can be stored: both names of its pair are integers for [int], and
    either they are the same integer or both, less one, are indices of the
    matrix and the margin fits a 64-bit cell.  The matrix returned has
    [count] rows of [count] cells; the exception raised otherwise is the
    [ValueError] of [int], the [IndexError] of the subscript or the
    [OverflowError] of the assignment.  The names are taken to have at most
    4300 characters, which [int] converts whatever limit it puts on the
    number of digits. *)
Theorem margin_to_matrix_returns (c : Contest) :
  (forall a b v, In ((a, b), v) (margins c) ->
                 (py_len a <= 4300)%nat /\ (py_len b <= 4300)%nat) ->
  match margin_to_matrix c with
  | Return M =>
      forallb (storable (Z.to_nat (count c))) (margins c) = true /\
      shape (Z.to_nat (count c)) M
  | Raise e =>
      forallb (storable (Z.to_nat (count c))) (margins c) = false /\
      (e = ValueError \/ e = IndexError \/ e = OverflowError)
  end.
Proof.
  intros _. rewrite margin_to_matrix_fold. apply margin_loop_returns.
  apply shape_np_full.
Qed.

Lemma margin_to_matrix_returns_witness :
  forallb (storable (Z.to_nat (count doc_margins))) (margins doc_margins) = false /\
  margin_to_matrix doc_margins = Raise ValueError.
Proof.
  assert (H : forall a b v, In ((a, b), v) (margins doc_margins) ->
                            (py_len a <= 4300)%nat /\ (py_len b <= 4300)%nat).
  { intros a b v Hin.
    assert (F : forallb (fun e => (py_len (fst (fst e)) <=? 4300)%nat
                                  && (py_len (snd (fst e)) <=? 4300)%nat)
                        (margins doc_margins) = true)
      by (vm_compute; reflexivity).
    apply (proj1 (forallb_forall _ _) F) in Hin. cbn [fst snd] in Hin.
    apply andb_true_iff in Hin. destruct Hin as [Ha Hb].
    apply Nat.leb_le in Ha. apply Nat.leb_le in Hb. auto. }
  pose proof (margin_to_matrix_returns doc_margins H) as R.
  assert (E : margin_to_matrix doc_margins = Raise ValueError)
    by (vm_compute; reflexivity).
  rewrite E in R. split; [apply R | exact E].
Defined.

Lemma in_axis_position (n i : nat) :
  (i < n)%nat ->
  in_axis n (Z.of_nat (S i) - 1) = true /\ axis_pos n (Z.of_nat (S i) - 1) = i.
Proof.
  intros Hi. unfold in_axis, axis_pos. split.
  - apply andb_true_iff. split; [apply Z.leb_le | apply Z.ltb_lt]; lia.
  - destruct (Z.ltb_spec (Z.of_nat (S i) - 1) 0); lia.
Qed.

(** The loop of [margin_to_matrix] on a table whose pairs are made of the
    numerals of 1 to [n]. *)
Lemma margin_loop_numbered (n : nat) (l : list (fact * Z)) :
  forall M0, shape n M0 ->
    forallb (numbered_item n) l = true -> NoDup (keys l) ->
    exists M,
      fold_left (fun acc item => M <- acc ;; margin_store n M item)
                l (Return M0) = Return M /\
      shape n M /\
      forall r k, (r < n)%nat -> (k < n)%nat ->
        cell_at M r k
        = if (r =? k)%nat then cell_at M0 r k
          else match get (str_of_nat (S r), str_of_nat (S k)) l with
               | Some v => v
               | None => cell_at M0 r k
               end.
Proof.
  induction l as [|[[a b] v] l IH]; intros M0 HS Hnum Hnd.
  - exists M0. repeat split; try apply HS.
    intros r k _ _. simpl. now destruct (r =? k)%nat.
  - cbn [forallb] in Hnum. apply andb_true_iff in Hnum.
    destruct Hnum as [Hitem Hrest].
    unfold numbered_item in Hitem. cbn [fst snd] in Hitem.
    destruct (numeral_index n a) as [i|] eqn:Ei; [|discriminate].
    destruct (numeral_index n b) as [j|] eqn:Ej; [|discriminate].
    apply numeral_index_some in Ei. destruct Ei as [Hi ->].
    apply numeral_index_some in Ej. destruct Ej as [Hj ->].
    inversion Hnd as [|? ? Hfresh Hnd']; subst.
    apply get_none_not_in in Hfresh.
    cbn [fold_left bind]. rewrite margin_store_item, !int_str_of_nat.
    assert (Hget : forall r k,
               (r, k) <> (i, j) ->
               get (str_of_nat (S r), str_of_nat (S k))
                   ((str_of_nat (S i), str_of_nat (S j), v) :: l)
               = get (str_of_nat (S r), str_of_nat (S k)) l).
    { intros r k Hne. cbn [get].
      destruct (keyb_spec (str_of_nat (S r), str_of_nat (S k))
                          (str_of_nat (S i), str_of_nat (S j))) as [E|_]; auto.
      inversion E as [[E1 E2]]. apply str_of_nat_inj in E1, E2.
      exfalso. apply Hne. f_equal; lia. }
    destruct (Z.eqb_spec (Z.of_nat (S i) - 1) (Z.of_nat (S j) - 1)) as [E|N].
    + destruct (IH M0 HS Hrest Hnd') as (M & HM & HSM & Hcell).
      exists M. repeat split; try apply HSM; auto.
      intros r k Hr Hk. rewrite (Hcell r k Hr Hk).
      destruct (Nat.eqb_spec r k) as [|Hrk]; auto.
      rewrite Hget; auto. intros Eq. inversion Eq. lia.
    + destruct (in_axis_position n i Hi) as [Ai Pi].
      destruct (in_axis_position n j Hj) as [Aj Pj].
      rewrite Ai, Aj, Hitem, Pi, Pj. cbn [andb].
      set (M1 := list_update i (list_update j (fun _ => v)) M0).
      assert (HS1 : shape n M1) by now apply shape_update.
      destruct (IH M1 HS1 Hrest Hnd') as (M & HM & HSM & Hcell).
      exists M. repeat split; try apply HSM; auto.
      intros r k Hr Hk. rewrite (Hcell r k Hr Hk). unfold M1.
      rewrite (cell_at_update n M0 i j r k v HS Hi Hj Hr).
      destruct (Nat.eqb_spec r k) as [->|Hrk].
      * destruct (Nat.eqb_spec k i) as [->|]; cbn [andb]; auto.
        destruct (Nat.eqb_spec i j) as [->|]; auto. lia.
      * destruct (Nat.eqb_spec r i) as [->|Hri]; cbn [andb].
        -- destruct (Nat.eqb_spec k j) as [->|Hkj].
           ++ cbn [get]. rewrite keyb_refl. now rewrite Hfresh.
           ++ rewrite Hget; auto. intros Eq. inversion Eq. lia.
        -- rewrite Hget; auto. intros Eq. inversion Eq. lia.
Qed.

Lemma margin_to_matrix_cells (c : Contest) :
  forallb (numbered_item (Z.to_nat (count c))) (margins c) = true ->
  NoDup (keys (margins c)) ->
  exists M,
    margin_to_matrix c = Return M /\ shape (Z.to_nat (count c)) M /\
    forall r k, (r < Z.to_nat (count c))%nat -> (k < Z.to_nat (count c))%nat ->
      cell_at M r k
      = if (r =? k)%nat then 0%Z
        else match get (str_of_nat (S r), str_of_nat (S k)) (margins c) with
             | Some v => v
             | None => 0%Z
             end.
Proof.
  intros Hnum Hnd. rewrite margin_to_matrix_fold.
  destruct (margin_loop_numbered (Z.to_nat (count c)) (margins c)
              (np_full (Z.to_nat (count c)) 0) (shape_np_full _ _) Hnum Hnd)
    as (M & HM & HS & Hcell).
  exists M. repeat split; try apply HS; auto.
  intros r k Hr Hk. rewrite (Hcell r k Hr Hk).
  now rewrite (cell_at_np_full _ 0%Z r k Hr Hk).
Qed.

(** X18: when the pairs of the margins table are made of the numerals of 1
    to [count] and the margins fit 64-bit cells, [margin_to_matrix] returns a
    matrix of [count] rows of [count] cells whose diagonal is 0 and whose
    cell (r, k), counted from 0, holds the margin of the pair (r+1, k+1), or 0
    when the table has no such pair. *)
Theorem margin_to_matrix_numbered (c : Contest) :
  forallb (numbered_item (Z.to_nat (count c))) (margins c) = true ->
  NoDup (keys (margins c)) ->
  exists M,
    margin_to_matrix c = Return M /\ shape (Z.to_nat (count c)) M /\
    forall r k, (r < Z.to_nat (count c))%nat -> (k < Z.to_nat (count c))%nat ->
      cell_at M r k
      = if (r =? k)%nat then 0%Z
        else match get (str_of_nat (S r), str_of_nat (S k)) (margins c) with
             | Some v => v
             | None => 0%Z
             end.
Proof. apply margin_to_matrix_cells. Qed.

Lemma margin_to_matrix_numbered_witness :
  exists M,
    margin_to_matrix (fst (computemargins numbered_contest)) = Return M /\
    shape 4 M /\
    forall r k, (r < 4)%nat -> (k < 4)%nat ->
      cell_at M r k
      = if (r =? k)%nat then 0%Z
        else match get (str_of_nat (S r), str_of_nat (S k))
                       (margins (fst (computemargins numbered_contest))) with
             | Some v => v
             | None => 0%Z
             end.
Proof.
  apply (margin_to_matrix_numbered (fst (computemargins numbered_contest))).
  - reflexivity.
  - apply computemargins_nodup. reflexivity.
Defined.

Lemma preferring_bounds (bs : list ballot) (a b : string) :
  (0 <= preferring bs a b <= len bs)%Z.
Proof.
  unfold preferring, len.
  pose proof (filter_length_le (fun bal => prefersb bal a b) bs). lia.
Qed.

Lemma computemargins_fields (c : Contest) :
  entries (fst (computemargins c)) = entries c /\
  count (fst (computemargins c)) = count c /\
  ballots (fst (computemargins c)) = ballots c /\
  labels (fst (computemargins c)) = labels c.
Proof. unfold computemargins. destruct (margin_to_matrix _); simpl; auto. Qed.

Lemma computemargins_matrix (c : Contest) :
  computemargins c
  = let c1 := set_margins c (margins (fst (computemargins c))) in
    match margin_to_matrix c1 with
    | Return M => (set_margin_matrix c1 M, Return tt)
    | Raise e => (c1, Raise e)
    end.
Proof.
  unfold computemargins.
  destruct (margin_to_matrix _) eqn:E; simpl; rewrite E; reflexivity.
Qed.

(** X19: numbered candidates end to end.  For a contest that [read_file]
    returned, whose candidates are named by the numerals of 1 to their number
    and which has fewer than 2^63 ballots, [computemargins] returns, and the
    cell (r, k) of the matrix it stores, counted from 0, is the number of
    ballots that rank candidate r+1 before candidate k+1 minus the number
    that rank them the other way round. *)
Theorem computemargins_numbered (lines : list string) (ac : bool) (c : Contest) :
  read_file lines ac = Return c ->
  (forall e, In e (entries c) ->
             numeral_index (List.length (entries c)) e <> None) ->
  (len (ballots c) < 2 ^ 63)%Z ->
  snd (computemargins c) = Return tt /\
  exists M,
    margin_matrix (fst (computemargins c)) = Some M /\
    shape (List.length (entries c)) M /\
    forall r k, (r < List.length (entries c))%nat ->
                (k < List.length (entries c))%nat ->
      cell_at M r k
      = (preferring (ballots c) (str_of_nat (S r)) (str_of_nat (S k))
         - preferring (ballots c) (str_of_nat (S k)) (str_of_nat (S r)))%Z.
Proof.
  intros Hrun Hnames Hfew.
  destruct (read_file_checked lines ac c Hrun) as (_ & _ & Hm & Hcount & Hb).
  assert (Hvalid : forall bal, In bal (ballots c) -> valid_ballot (entries c) bal)
    by (intros bal Hbal; now apply Hb).
  pose proof (fun a b => valid_margin_entry c a b Hm Hvalid) as Hentry.
  pose proof (computemargins_nodup c Hm) as Hnd.
  set (m := margins (fst (computemargins c))) in *.
  set (c1 := set_margins c m).
  assert (Hn : Z.to_nat (count c1) = List.length (entries c)).
  { simpl. rewrite Hcount. unfold len. lia. }
  assert (Hnum : forallb (numbered_item (Z.to_nat (count c1))) (margins c1) = true).
  { apply forallb_forall. intros [[a b] v] Hin. rewrite Hn. simpl in Hin.
    apply (get_in_nodup m (a, b) v Hnd) in Hin.
    specialize (Hentry a b). rewrite Hin in Hentry.
    destruct Hentry as (_ & Ha & Hbb & ->).
    unfold numbered_item. cbn [fst snd].
    destruct (numeral_index _ a) eqn:Ea; [|now apply Hnames in Ha].
    destruct (numeral_index _ b) eqn:Eb; [|now apply Hnames in Hbb].
    pose proof (preferring_bounds (ballots c) a b).
    pose proof (preferring_bounds (ballots c) b a).
    unfold fits_int64. apply andb_true_iff.
    split; [apply Z.leb_le | apply Z.ltb_lt]; lia. }
  destruct (margin_to_matrix_cells c1 Hnum Hnd) as (M & HM & HS & Hcell).
  rewrite computemargins_matrix. fold m. fold c1. cbv zeta. rewrite HM.
  split; [reflexivity|]. exists M. rewrite Hn in HS, Hcell.
  split; [reflexivity|]. split; [assumption|].
  intros r k Hr Hk. rewrite (Hcell r k Hr Hk).
  destruct (Nat.eqb_spec r k) as [->|Hrk]; [lia|].
  specialize (Hentry (str_of_nat (S r)) (str_of_nat (S k))).
  change (margins c1) with m.
  destruct (get (str_of_nat (S r), str_of_nat (S k)) m); [apply Hentry|].
  destruct Hentry as [-> ->]. reflexivity.
Qed.

Lemma computemargins_numbered_witness :
  snd (computemargins numbered_contest) = Return tt /\
  exists M,
    margin_matrix (fst (computemargins numbered_contest)) = Some M /\
    shape 4 M /\
    forall r k, (r < 4)%nat -> (k < 4)%nat ->
      cell_at M r k
      = (preferring (ballots numbered_contest) (str_of_nat (S r)) (str_of_nat (S k))
         - preferring (ballots numbered_contest)
                      (str_of_nat (S k)) (str_of_nat (S r)))%Z.
Proof.
  apply (computemargins_numbered numbered_file false numbered_contest).
  - vm_compute. reflexivity.
  - intros e He. simpl in He.
    repeat (destruct He as [<-|He]; [vm_compute; discriminate|]). destruct He.
  - reflexivity.
Defined.

(** ** [printresult]: labels and places *)

Lemma place_line_label (o : Outcome) (res : dict string (Z * Z * Z))
  (ix : nat) (lastkey : option string) (key : string) :
  get key res <> None ->
  match lastkey with Some k => get k res <> None | None => True end ->
  match get key (labels (contest o)) with
  | Some name =>
      exists p t, place_line o res ix lastkey key
                  = Return (Place p (rjust (Z.to_nat (colwidth (contest o))) name) t)
  | None => place_line o res ix lastkey key = Raise (KeyError key)
  end.
Proof.
  intros Hkey Hlast. unfold place_line, getitem.
  destruct (get key res) as [[[w l] t]|] eqn:Ek; [|congruence]. cbn [bind].
  assert (Hnew : exists b,
             (if negb (truthy_key lastkey) then Return true
              else match lastkey with
                   | Some k => v <- func res k key ;; Return (negb (v =? 0)%Z)
                   | None => Return true
                   end) = Return b).
  { destruct (negb (truthy_key lastkey)); [eauto|].
    destruct lastkey as [k|]; [|eauto]. unfold func, getitem.
    destruct (get k res) as [[[w1 l1] t1]|]; [|congruence].
    rewrite Ek. cbn [bind]. eauto. }
  destruct Hnew as [b ->]. cbn [bind].
  destruct (get key (labels (contest o))); cbn [bind]; eauto.
Qed.

Lemma print_places_labels (o : Outcome) (res : dict string (Z * Z * Z))
  (ls : list string) :
  (forall k, In k ls -> get k res <> None) ->
  forall ix lastkey,
    match lastkey with Some k => get k res <> None | None => True end ->
    snd (print_places o res ix lastkey ls)
    = match find (fun k => negb (has_key k (labels (contest o)))) ls with
      | Some k => Raise (KeyError k)
      | None => Return tt
      end /\
    forall i ln,
      nth_error (fst (print_places o res ix lastkey ls)) i = Some ln ->
      exists key name p t,
        nth_error ls i = Some key /\
        get key (labels (contest o)) = Some name /\
        ln = Place p (rjust (Z.to_nat (colwidth (contest o))) name) t.
Proof.
  induction ls as [|key ls IH]; intros Hres ix lastkey Hlast;
    cbn [print_places find].
  - split; [reflexivity|]. intros [|i] ln H; discriminate.
  - pose proof (place_line_label o res ix lastkey key
                  (Hres key (or_introl eq_refl)) Hlast) as Hline.
    unfold has_key at 1.
    destruct (get key (labels (contest o))) as [name|] eqn:El.
    + destruct Hline as (p & t & ->). cbn [negb fst snd].
      destruct (IH (fun k Hk => Hres k (or_intror Hk)) (S ix) (Some key)
                   (Hres key (or_introl eq_refl))) as [Hsnd Hfst].
      split; [exact Hsnd|].
      intros [|i] ln H; cbn [nth_error] in *.
      * inversion H; subst. exists key, name, p, t. auto.
      * now apply Hfst.
    + rewrite Hline. cbn [negb fst snd]. split; [reflexivity|].
      intros [|i] ln H; discriminate.
Qed.

(** X20: [printresult] looks every candidate up in [labels], so it returns
    exactly when every candidate is a key of [labels], and raises [KeyError]
    for the first candidate of the ranking that is not; the name on each line
    it prints is the label of the candidate at that position of the ranking,
    padded to the column width. *)
Theorem printresult_labels (o : Outcome) :
  let ls := isort (ranks_before (result o)) (entries (contest o)) in
  snd (printresult o)
  = match find (fun k => negb (has_key k (labels (contest o)))) ls with
    | Some k => Raise (KeyError k)
    | None => Return tt
    end /\
  forall i ln,
    nth_error (fst (printresult o)) (S i) = Some ln ->
    exists key name p t,
      nth_error ls i = Some key /\
      get key (labels (contest o)) = Some name /\
      ln = Place p (rjust (Z.to_nat (colwidth (contest o))) name) t.
Proof.
  intros ls. unfold printresult. rewrite ranking_isort. fold ls.
  cbn [fst snd nth_error].
  apply print_places_labels; [|exact I].
  intros k Hk. apply isort_in in Hk. rewrite get_result by exact Hk. discriminate.
Qed.

Lemma printresult_labels_witness :
  snd (printresult numbered_outcome) = Return tt /\
  exists key name p t,
    nth_error (isort (ranks_before (result numbered_outcome))
                     (entries (contest numbered_outcome))) 0 = Some key /\
    get key (labels (contest numbered_outcome)) = Some name /\
    Place "  1:" "  4" (3, 0, 0)%Z
    = Place p (rjust (Z.to_nat (colwidth (contest numbered_outcome))) name) t.
Proof.
  destruct (printresult_labels numbered_outcome) as [Hsnd Hfst]. split.
  - rewrite Hsnd. vm_compute. reflexivity.
  - apply (Hfst 0%nat). vm_compute. reflexivity.
Defined.

Lemma cmp_zero (a b : Z * Z) : (cmp a b =? 0)%Z = true <-> a = b.
Proof.
  unfold cmp, pair_lt. destruct a as [a1 a2], b as [b1 b2]. cbn [fst snd].
  rewrite Z.eqb_eq.
  destruct (Z.ltb_spec b1 a1); destruct (Z.ltb_spec a1 b1);
    destruct (Z.eqb_spec b1 a1); destruct (Z.eqb_spec a1 b1);
    destruct (Z.ltb_spec b2 a2); destruct (Z.ltb_spec a2 b2);
    cbn [orb andb]; split; intros E; try inversion E; try lia;
    try (f_equal; lia).
Qed.

Lemma same_standing_cmp (w1 l1 t1 w2 l2 t2 : Z) :
  negb (cmp (w2, t2) (w1, t1) =? 0)%Z
  = negb (same_standing (w1, l1, t1) (w2, l2, t2)).
Proof.
  f_equal. apply eq_true_iff_eq. rewrite cmp_zero. unfold same_standing.
  rewrite andb_true_iff, !Z.eqb_eq. split.
  - intros E. inversion E. auto.
  - intros [-> ->]. reflexivity.
Qed.

Lemma place_line_place (o : Outcome) (res : dict string (Z * Z * Z))
  (ix : nat) (lastkey : option string) (last : option (Z * Z * Z))
  (key : string) (ln : line) :
  match lastkey with
  | Some k => k <> EmptyString /\ exists t0, get k res = Some t0 /\ last = Some t0
  | None => last = None
  end ->
  place_line o res ix lastkey key = Return ln ->
  get key res = Some (line_tally ln) /\
  line_place ln
  = rjust 4 (match last with
             | Some t0 =>
                 if same_standing t0 (line_tally ln) then ditto
                 else String.append (str_of_nat ix) ":"
             | None => String.append (str_of_nat ix) ":"
             end).
Proof.
  intros Hlast. unfold place_line, getitem.
  destruct (get key res) as [[[w l] t]|] eqn:Ek; [|discriminate]. cbn [bind].
  destruct lastkey as [k|].
  - destruct Hlast as (Hk & [[w0 l0] t0] & Eg & ->).
    assert (T : truthy_key (Some k) = true).
    { unfold truthy_key. apply negb_true_iff. now apply keyb_neq. }
    rewrite T. cbn [negb]. unfold func, getitem. rewrite Eg, Ek. cbn [bind].
    rewrite (same_standing_cmp w0 l0 t0 w l t).
    destruct (get key (labels (contest o))); [|discriminate]. cbn [bind].
    intros E. inversion E; subst. cbn [line_tally line_place]. split; auto.
    unfold same_standing. now destruct ((w0 =? w)%Z && (t0 =? t)%Z).
  - subst last. cbn [truthy_key negb bind].
    destruct (get key (labels (contest o))); [|discriminate]. cbn [bind].
    intros E. inversion E; subst. cbn [line_tally line_place]. auto.
Qed.

Lemma print_places_places (o : Outcome) (res : dict string (Z * Z * Z))
  (ls : list string) :
  (forall k, In k ls -> k <> EmptyString) ->
  forall ix lastkey last,
    match lastkey with
    | Some k => k <> EmptyString /\ exists t0, get k res = Some t0 /\ last = Some t0
    | None => last = None
    end ->
    map line_place (fst (print_places o res ix lastkey ls))
    = places ix last (map line_tally (fst (print_places o res ix lastkey ls))).
Proof.
  induction ls as [|key ls IH]; intros Hne ix lastkey last Hlast;
    cbn [print_places]; [reflexivity|].
  destruct (place_line o res ix lastkey key) as [ln|e] eqn:E; [|reflexivity].
  destruct (place_line_place o res ix lastkey last key ln Hlast E) as [Hg Hp].
  cbn [fst map places]. rewrite Hp. f_equal.
  apply IH.
  - intros k Hk. apply Hne. now right.
  - split; [apply Hne; now left|]. eauto.
Qed.

(** X21: the places of the tally.  When no candidate has the empty name, the
    place column of the lines [printresult] prints follows from the tallies
    on those lines: the first line carries its number, and every later line
    carries the ditto mark when it has the same wins and the same unresolved
    count as the line before it, and its own line number otherwise. *)
Theorem printresult_places (o : Outcome) :
  ~ In EmptyString (entries (contest o)) ->
  map line_place (tl (fst (printresult o)))
  = places 1 None (map line_tally (tl (fst (printresult o)))).
Proof.
  intros Hne. unfold printresult. rewrite ranking_isort. cbn [fst tl].
  apply print_places_places; [|reflexivity].
  intros k Hk E. subst k. apply isort_in in Hk. contradiction.
Qed.

Lemma printresult_places_witness :
  map line_place (tl (fst (printresult (Outcome_init five))))
  = [rjust 4 "1:"; rjust 4 ditto; rjust 4 ditto; rjust 4 ditto; rjust 4 ditto].
Proof.
  rewrite (printresult_places (Outcome_init five)).
  - reflexivity.
  - simpl. intuition discriminate.
Defined.

(** ** [printout] *)

(** X22: the table of [printout] for an outcome reached from the blank one
    by calls of [accept]: the cell of a candidate against itself shows the
    back quote alone, and the cell of [row] against another candidate [col]
    shows [+] when [row] beats [col], [-] when [col] beats [row], and nothing
    otherwise, never both signs. *)
Theorem printout_cells (o : Outcome) (i j : nat) (row col : string) :
  reachable o ->
  nth_error (entries (contest o)) i = Some row ->
  nth_error (entries (contest o)) j = Some col ->
  nth_error (nth (S i) (printout o) []) (S j)
  = Some (rjust (Z.to_nat (colwidth (contest o))) (outranking_sign o row col)).
Proof.
  intros Hr Hi Hj. destruct (reachable_inv o Hr) as (M & I & C & _).
  unfold printout. cbn [nth].
  assert (Hrow : nth i (map (fun row0 =>
                   rjust (Z.to_nat (colwidth (contest o))) row0
                   :: map (fun col0 => rjust (Z.to_nat (colwidth (contest o)))
                                         (outranking_cell o row0 col0))
                          (entries (contest o)))
                  (entries (contest o))) []
                = rjust (Z.to_nat (colwidth (contest o))) row
                  :: map (fun col0 => rjust (Z.to_nat (colwidth (contest o)))
                                        (outranking_cell o row col0))
                         (entries (contest o))).
  { apply nth_error_nth. rewrite nth_error_map, Hi. reflexivity. }
  rewrite Hrow. cbn [nth_error]. rewrite nth_error_map, Hj. cbn [option_map].
  do 2 f_equal. unfold outranking_cell, outranking_sign.
  assert (Hh : marked (higher o) row col = beats o col row).
  { unfold beats. now destruct (marked (higher o) row col). }
  assert (Hl : marked (lower o) row col = beats o row col).
  { unfold beats. rewrite <- (M row col).
    now destruct (marked (lower o) row col). }
  rewrite Hh, Hl.
  destruct (keyb_spec col row) as [->|Hne].
  - rewrite (I row). reflexivity.
  - destruct (beats o row col) eqn:B1; destruct (beats o col row) eqn:B2;
      try reflexivity.
    exfalso. exact (C row col B1 B2).
Qed.

Lemma printout_cells_witness :
  nth_error (nth 3 (printout five_outcome) []) 5 = Some "  +".
Proof.
  exact (printout_cells five_outcome 2 4 "3" "5" five_outcome_reachable
           eq_refl eq_refl).
Defined.

(** ** More about the margins table *)

Lemma computemargins_table (c : Contest) :
  margins (fst (computemargins c))
  = apply_calls (flat_map calls (ballots c)) (margins c).
Proof.
  unfold computemargins.
  destruct (margin_to_matrix _); simpl; apply all_margins_calls.
Qed.

(** X23: [computemargins] adds to the margins table, it does not rebuild
    it: a second call on the same ballots doubles every margin of the
    table. *)
Theorem computemargins_accumulates (c : Contest) (p : fact) :
  margins c = [] ->
  get p (margins (fst (computemargins (fst (computemargins c)))))
  = option_map (Z.mul 2) (get p (margins (fst (computemargins c)))).
Proof.
  intros Hm. rewrite (computemargins_table (fst (computemargins c))).
  destruct (computemargins_fields c) as (_ & _ & -> & _).
  rewrite get_apply_calls, (computemargins_table c), Hm, get_apply_calls.
  destruct (called p (flat_map calls (ballots c))); cbn [get option_map];
    [|reflexivity].
  f_equal. lia.
Qed.

Lemma computemargins_accumulates_witness :
  get (DDD, AAA) (margins (fst (computemargins doc_margins))) = Some 6%Z.
Proof.
  unfold doc_margins.
  rewrite (computemargins_accumulates doc_contest (DDD, AAA) eq_refl).
  vm_compute. reflexivity.
Defined.

Lemma sumZ_permutation {A : Type} (f : A -> Z) (l l' : list A) :
  Permutation l l' -> sumZ f l = sumZ f l'.
Proof.
  induction 1; simpl; try lia.
Qed.

(** X24: the margins do not depend on the order in which the ballots were
    added: two contests whose ballots are the same up to their order get the
    same margin for every pair. *)
Theorem margins_ignore_ballot_order (c c' : Contest) (p : fact) :
  margins c = [] -> margins c' = [] ->
  Permutation (ballots c) (ballots c') ->
  get p (margins (fst (computemargins c)))
  = get p (margins (fst (computemargins c'))).
Proof.
  intros Hm Hm' Hp.
  rewrite (computemargins_margins c Hm), (computemargins_margins c' Hm').
  rewrite !get_apply_calls. simpl.
  assert (Hc : called p (flat_map calls (ballots c))
               = called p (flat_map calls (ballots c'))).
  { apply eq_true_iff_eq. rewrite !called_in.
    split; intros (w & Hin); exists w; apply in_flat_map in Hin;
      destruct Hin as (bal & Hbal & Hin); apply in_flat_map; exists bal;
      split; auto.
    - now apply (Permutation_in _ Hp).
    - now apply (Permutation_in _ (Permutation_sym Hp)). }
  rewrite Hc, !weight_flat_map.
  now rewrite (sumZ_permutation _ _ _ Hp).
Qed.

Lemma margins_ignore_ballot_order_witness :
  get (DDD, AAA)
      (margins (fst (computemargins
                       (set_ballots doc_contest (rev (ballots doc_contest))))))
  = Some 3%Z.
Proof.
  rewrite (margins_ignore_ballot_order
             (set_ballots doc_contest (rev (ballots doc_contest)))
             doc_contest (DDD, AAA) eq_refl eq_refl).
  - vm_compute. reflexivity.
  - apply Permutation_sym, Permutation_rev.
Defined.

(** ** More about [compute] *)

Lemma clos_trans_last {A : Type} (R : A -> A -> Prop) (x z : A) :
  clos_trans A R x z -> exists y, R y z.
Proof. induction 1 as [x z H|x y z _ _ _ IH]; eauto. Qed.

(** X25: a candidate that loses no pairwise comparison is never beaten: if
    no pair (y, a) of the margins table has a strictly positive margin, no
    candidate beats [a] in the outcome [compute] returns. *)
Theorem compute_never_beats_unbeaten (c : Contest) (o : Outcome) (a x : string) :
  compute c = Return o ->
  (forall y v, get (y, a) (margins c) = Some v -> (v <= 0)%Z) ->
  beats o x a = false.
Proof.
  intros Hc Hun. destruct (beats o x a) eqn:B; [|reflexivity].
  apply (beats_accepted_from _ o (compute_accepted_from c o Hc)) in B.
  apply clos_trans_last in B. destruct B as (y & v & Hg & Hv).
  apply Hun in Hg. lia.
Qed.

Lemma compute_never_beats_unbeaten_witness :
  beats doc_outcome AAA DDD = false.
Proof.
  apply (compute_never_beats_unbeaten doc_margins doc_outcome DDD AAA).
  - exact doc_outcome_computed.
  - intros y v Hg. apply get_some_in in Hg.
    assert (H : forallb (fun e => negb (keyb (snd (fst e)) DDD) || (snd e <=? 0)%Z)
                        (margins doc_margins) = true)
      by (vm_compute; reflexivity).
    apply (proj1 (forallb_forall _ _) H) in Hg. cbn [fst snd] in Hg.
    rewrite keyb_refl in Hg. now apply Z.leb_le in Hg.
Defined.

Lemma accept_keeps (o o' : Outcome) (a b x y : string) :
  accept o a b = Return o' -> beats o x y = true -> beats o' x y = true.
Proof.
  intros Hacc. apply accept_returns_loop in Hacc.
  now apply (accept_loop_keeps _ _ _ _ x y Hacc).
Qed.

Lemma accept_each_keeps (tups : list fact) (x y : string) :
  forall o o', accept_each o tups = Return o' ->
    beats o x y = true -> beats o' x y = true.
Proof.
  unfold accept_each.
  induction tups as [|[a b] tups IH] using rev_ind; intros o o' Hrun Hb.
  - simpl in Hrun. now inversion Hrun; subst.
  - rewrite fold_left_app in Hrun. simpl in Hrun.
    destruct (fold_left _ tups (Return o)) as [o1|e] eqn:E; [|discriminate].
    simpl in Hrun. apply (accept_keeps o1 o' a b x y Hrun).
    now apply (IH o o1).
Qed.

Lemma accept_all_keeps (o o' : Outcome) (tups : list fact) (x y : string) :
  reachable o -> accept_all o tups = Return o' ->
  reachable o' /\ (beats o x y = true -> beats o' x y = true).
Proof.
  intros Hr Hrun. unfold accept_all in Hrun. rewrite (clone_reachable o Hr) in Hrun.
  split.
  - now apply (reachable_accept_each tups o o').
  - now apply (accept_each_keeps tups x y o o').
Qed.

Lemma level_outcome_keeps (o : Outcome) (facts : list fact) (x y : string) :
  reachable o ->
  reachable (level_outcome o facts) /\
  (beats o x y = true -> beats (level_outcome o facts) x y = true).
Proof.
  intros Hr. unfold level_outcome.
  destruct (accept_all o (filter (is_compatible o) facts)) as [newout|e] eqn:E.
  - exact (accept_all_keeps o newout _ x y Hr E).
  - unfold leave_one_out.
    destruct (negb (truthy _) || forallb _ _); [auto|].
    destruct (accept_all o (filter _ (filter (is_compatible o) facts)))
      as [newout|e'] eqn:E'; [|auto].
    exact (accept_all_keeps o newout _ x y Hr E').
Qed.

Lemma levels_keep (m : dict fact Z) (vs : list Z) (x y : string) :
  forall o, reachable o -> beats o x y = true ->
    beats (fold_left (fun outcome v => level_outcome outcome (facts_at m v)) vs o)
          x y = true.
Proof.
  induction vs as [|v vs IH]; intros o Hr Hb; simpl; auto.
  destruct (level_outcome_keeps o (facts_at m v) x y Hr) as [Hr' Hk].
  apply IH; auto.
Qed.

Lemma nodup_facts_at (m : dict fact Z) (v : Z) :
  NoDup (keys m) -> NoDup (facts_at m v).
Proof.
  unfold facts_at, keys. induction m as [|[p w] m IH]; simpl; intros Hnd.
  - constructor.
  - inversion Hnd as [|? ? Hnin Hnd']; subst.
    destruct (w =? v)%Z; simpl; auto.
    constructor; auto. intros Hin. apply Hnin.
    apply in_map_iff in Hin. destruct Hin as (e & E & Hin).
    apply filter_In in Hin. apply in_map_iff. exists e. tauto.
Qed.

Lemma nodup_single {A : Type} (x : A) (l : list A) :
  NoDup l -> In x l -> (forall y, In y l -> y = x) -> l = [x].
Proof.
  intros Hnd Hin Hall. destruct l as [|y l]; [destruct Hin|].
  assert (y = x) by (apply Hall; now left). subst y.
  destruct l as [|z l]; [reflexivity|].
  assert (z = x) by (apply Hall; right; now left). subst z.
  inversion Hnd as [|? ? Hnin _]. exfalso. apply Hnin. now left.
Qed.

Lemma levels_down_head (M : Z) :
  (0 < M)%Z -> exists rest, levels_down M = M :: rest.
Proof.
  intros HM. unfold levels_down.
  destruct (Z.to_nat M) as [|n] eqn:E; [lia|].
  simpl. rewrite Z.sub_0_r. eauto.
Qed.

(** The first call of [accept] on a blank outcome. *)
Lemma accept_blank (c : Contest) (a b : string) :
  a <> b -> accept (Outcome_init c) a b = Return (record_fact (Outcome_init c) a b).
Proof.
  intros Hne. apply (accept_loop_accept 2).
  assert (Hba : keyb b a = false) by (apply keyb_neq; congruence).
  simpl. rewrite (compatible_neq _ a b Hne). simpl.
  unfold consequences, keys_of, beats, marked. simpl.
  rewrite Hba. apply keyb_neq in Hne. rewrite Hne. reflexivity.
Qed.

(** X26: the strongest pair is always kept.  When one pair (a, b) of the
    table [computemargins] built has a strictly positive margin that is
    larger than the margin of every other pair, [compute] returns an outcome
    in which [a] beats [b], whatever happens at the levels below. *)
Theorem compute_keeps_strongest (c : Contest) (a b : string) (v : Z) :
  margins c = [] ->
  get (a, b) (margins (fst (computemargins c))) = Some v ->
  (0 < v)%Z ->
  (forall p w, get p (margins (fst (computemargins c))) = Some w ->
               p <> (a, b) -> (w < v)%Z) ->
  exists o, compute (fst (computemargins c)) = Return o /\ beats o a b = true.
Proof.
  intros Hm Hg Hv Hmax.
  pose proof (computemargins_nodup c Hm) as Hnd.
  pose proof (computemargins_no_positive_self c Hm) as Hself.
  set (c1 := fst (computemargins c)) in *. set (m := margins c1) in *.
  exists (ranked_pairs c1). split; [now apply compute_ranked|].
  assert (Hne : a <> b).
  { intros ->. apply Hself in Hg. lia. }
  assert (Hin : In ((a, b), v) m) by now apply get_some_in.
  assert (HM : max_margin m = v).
  { pose proof (max_margin_bound m (a, b) v Hin) as Hle.
    unfold max_margin in *.
    destruct (fold_max_spec (map snd m) 0%Z) as (_ & _ & [E|E]); [lia|].
    apply in_map_iff in E. destruct E as ([p w] & E & Hp). simpl in E.
    apply (get_in_nodup m p w Hnd) in Hp.
    destruct (keyb_spec p (a, b)) as [->|Hpn]; [congruence|].
    specialize (Hmax p w Hp Hpn). lia. }
  assert (Hfacts : facts_at m v = [(a, b)]).
  { apply nodup_single.
    - now apply nodup_facts_at.
    - now apply facts_at_in.
    - intros p Hp. apply facts_at_in in Hp.
      apply (get_in_nodup m p v Hnd) in Hp.
      destruct (keyb_spec p (a, b)) as [->|Hpn]; [reflexivity|].
      specialize (Hmax p v Hp Hpn). lia. }
  unfold ranked_pairs, magnitudes. fold m. rewrite HM.
  destruct (levels_down_head v Hv) as [rest ->].
  cbn [filter]. rewrite Hfacts. cbn [truthy fold_left].
  apply levels_keep.
  - exact (proj1 (level_outcome_keeps _ _ a b (reach_blank c1))).
  - rewrite Hfacts. unfold level_outcome, is_compatible. cbn [filter fst snd].
    rewrite (compatible_neq _ a b Hne). cbn [marked higher lower Outcome_init get negb andb].
    unfold accept_all. rewrite (clone_reachable _ (reach_blank c1)).
    cbn [fold_left bind fst snd]. rewrite (accept_blank c1 a b Hne).
    rewrite beats_record_fact, !keyb_refl. apply orb_true_r.
Qed.

Lemma compute_keeps_strongest_witness :
  exists o, compute (fst (computemargins two_ballots)) = Return o
            /\ beats o "1" "2" = true.
Proof.
  apply (compute_keeps_strongest two_ballots "1" "2" 2).
  - reflexivity.
  - reflexivity.
  - lia.
  - intros p w Hg Hp. apply get_some_in in Hg. vm_compute in Hg.
    repeat (destruct Hg as [Hg|Hg]; [inversion Hg; subst; try lia; now elim Hp|]).
    destruct Hg.
Defined.

(** ** The contest of an outcome *)

Lemma accept_loop_contest (fuel : nat) :
  forall (o : Outcome) (facts : list fact) (o' : Outcome),
    accept_loop fuel o facts = Some (Return o') -> contest o' = contest o.
Proof.
  induction fuel as [|fuel IH]; intros o facts o' Hrun.
  - destruct facts as [|[w l] facts]; simpl in Hrun; [|discriminate].
    now inversion Hrun.
  - destruct facts as [|[w l] facts]; simpl in Hrun; [now inversion Hrun|].
    destruct (compatible o w l) as [[|]|e]; try discriminate.
    destruct (beats o w l).
    + now apply IH in Hrun.
    + apply IH in Hrun. exact Hrun.
Qed.

Lemma accept_each_contest (tups : list fact) :
  forall o o', accept_each o tups = Return o' -> contest o' = contest o.
Proof.
  unfold accept_each.
  induction tups as [|[a b] tups IH] using rev_ind; intros o o' Hrun.
  - simpl in Hrun. now inversion Hrun.
  - rewrite fold_left_app in Hrun. simpl in Hrun.
    destruct (fold_left _ tups (Return o)) as [o1|e] eqn:E; [|discriminate].
    simpl in Hrun. apply accept_returns_loop, accept_loop_contest in Hrun.
    rewrite Hrun. now apply IH.
Qed.

Lemma accept_all_contest (o o' : Outcome) (tups : list fact) :
  accept_all o tups = Return o' -> contest o' = contest o.
Proof.
  intros Hrun. apply (accept_each_contest tups (clone o) o') in Hrun.
  exact Hrun.
Qed.

Lemma level_step_contest (dic : dict Z (list fact)) (o o' : Outcome) (level : Z) :
  level_step dic o level = Return o' -> contest o' = contest o.
Proof.
  unfold level_step.
  destruct (get level dic) as [[|tup ls]|]; try (intros E; now inversion E).
  destruct (compatible_facts o (tup :: ls)) as [compatls|e]; [|discriminate].
  cbn [bind].
  destruct (accept_all o compatls) as [newout|e] eqn:E.
  - intros R. inversion R; subst. now apply accept_all_contest in E.
  - destruct (_ || _); [intros R; now inversion R|].
    destruct (accept_all o (notguilty_of o compatls)) as [newout|e'] eqn:E';
      intros R; inversion R; subst; auto.
    now apply accept_all_contest in E'.
Qed.

(** The outcome [compute] returns is an outcome of the contest it was
    called on. *)
Lemma compute_contest (c : Contest) (o : Outcome) :
  compute c = Return o -> contest o = c.
Proof.
  unfold compute. destruct (negb (truthy (gather (margins c)))).
  - intros E. now inversion E.
  - destruct (max_list (keys (gather (margins c)))) as [M|e]; [|discriminate].
    cbn [bind]. generalize (levels_down M) as levels.
    assert (H : forall levels o0 o',
              fold_left (fun acc level =>
                           outcome <- acc ;; level_step (gather (margins c)) outcome level)
                        levels (Return o0) = Return o' ->
              contest o' = contest o0).
    { induction levels as [|v levels IH]; intros o0 o' Hrun; simpl in Hrun.
      - now inversion Hrun.
      - destruct (level_step (gather (margins c)) o0 v) as [o1|e] eqn:E;
          [|rewrite fold_raise in Hrun; discriminate].
        apply IH in Hrun. apply level_step_contest in E. congruence. }
    intros levels Hrun. now apply H in Hrun.
Qed.

Lemma read_file_labels (lines : list string) (ac : bool) (c : Contest) :
  read_file lines ac = Return c ->
  exists w, labels c = labels (Contest_fields (entries c) w)
            /\ colwidth c = colwidth (Contest_fields (entries c) w).
Proof.
  unfold read_file.
  destruct (read_lines lines None []) as [[contents lns]|e]; [|discriminate].
  simpl.
  destruct (truthy_contents contents); [|discriminate]. simpl.
  set (ents := split_ws (drop_first match contents with
                                     | Some s => s
                                     | None => EmptyString
                                     end)).
  destruct (truthy ents) eqn:Ht; [|discriminate]. simpl.
  destruct (Z.eqb_spec (len (fold_left (fun d val => set val true d) ents
                                       ([] : list (string * bool))))
                       (len ents)) as [El|]; [|discriminate].
  simpl. unfold Contest_init.
  destruct (max_list _) as [w|e]; [|discriminate]. simpl.
  intros Hrun. exists w.
  assert (G : forall lns0 c0 c1,
             fold_left (fun acc ln => contest <- acc ;; read_ballot ac contest ln)
                       lns0 (Return c0) = Return c1 ->
             entries c1 = entries c0 /\ labels c1 = labels c0
             /\ colwidth c1 = colwidth c0).
  { induction lns0 as [|ln lns0 IH]; intros c0 c1 Hr; simpl in Hr.
    - inversion Hr; auto.
    - destruct (read_ballot ac c0 ln) as [c2|e] eqn:E;
        [|rewrite fold_raise in Hr; discriminate].
      apply IH in Hr. unfold read_ballot in E.
      destruct (fold_left _ _ (Return [])) as [dic|e]; [|discriminate].
      simpl in E. inversion E; subst. exact Hr. }
  destruct (G _ _ _ Hrun) as (He & Hl & Hw). rewrite He, Hl, Hw. auto.
Qed.

(** X27: from the file to the tally.  For the outcome [compute] returns for
    a contest read by [read_file], [printresult] returns exactly when every
    candidate is named by the decimal numeral of a position from 1 to the
    number of candidates; and the name it prints for a candidate is the
    candidate at the position its own name denotes in the star line. *)
Theorem printresult_after_read_file (lines : list string) (ac : bool)
  (c : Contest) (o : Outcome) :
  read_file lines ac = Return c ->
  compute (fst (computemargins c)) = Return o ->
  (snd (printresult o) = Return tt <->
   forall e, In e (entries c) ->
             numeral_index (List.length (entries c)) e <> None) /\
  forall i ln,
    nth_error (fst (printresult o)) (S i) = Some ln ->
    exists key k p t,
      nth_error (isort (ranks_before (result o)) (entries c)) i = Some key /\
      key = str_of_nat (S k) /\
      ln = Place p (rjust (Z.to_nat (colwidth c)) (nth k (entries c) EmptyString)) t.
Proof.
  intros Hread Hcomp.
  apply compute_contest in Hcomp.
  destruct (computemargins_fields c) as (He & _ & _ & Hl).
  assert (Hw : colwidth (fst (computemargins c)) = colwidth c).
  { unfold computemargins. destruct (margin_to_matrix _); reflexivity. }
  destruct (read_file_labels lines ac c Hread) as (w & Hlab & _).
  assert (Hget : forall k, get k (labels (contest o))
                           = match numeral_index (List.length (entries c)) k with
                             | Some i => nth_error (entries c) i
                             | None => None
                             end).
  { intros k. rewrite Hcomp, Hl, Hlab. apply get_labels. }
  assert (Hp : snd (printresult o)
               = match find (fun k => negb (has_key k (labels (contest o))))
                            (isort (ranks_before (result o)) (entries (contest o)))
                 with
                 | Some k => Raise (KeyError k)
                 | None => Return tt
                 end /\
               forall i ln,
                 nth_error (fst (printresult o)) (S i) = Some ln ->
                 exists key name p t,
                   nth_error (isort (ranks_before (result o))
                                    (entries (contest o))) i = Some key /\
                   get key (labels (contest o)) = Some name /\
                   ln = Place p (rjust (Z.to_nat (colwidth (contest o))) name) t).
  { unfold printresult. rewrite ranking_isort. cbn [fst snd nth_error].
    apply print_places_labels; [|exact I].
    intros k Hk. apply isort_in in Hk. rewrite get_result by exact Hk.
    discriminate. }
  destruct Hp as [Hsnd Hfst].
  assert (Heo : entries (contest o) = entries c) by now rewrite Hcomp.
  assert (Hwo : colwidth (contest o) = colwidth c) by now rewrite Hcomp.
  rewrite Heo in Hsnd, Hfst. rewrite Hwo in Hfst.
  split.
  - rewrite Hsnd. split.
    + intros Hret e Hin.
      destruct (find _ _) as [k|] eqn:F; [discriminate|].
      apply (isort_in (ranks_before (result o))) in Hin.
      apply (find_none _ _ F) in Hin.
      apply negb_false_iff in Hin. unfold has_key in Hin. rewrite Hget in Hin.
      destruct (numeral_index _ e); [discriminate | discriminate].
    + intros Hall. destruct (find _ _) as [k|] eqn:F; [|reflexivity].
      apply find_some in F. destruct F as [Hin F]. apply isort_in in Hin.
      apply negb_true_iff in F. unfold has_key in F. rewrite Hget in F.
      specialize (Hall k Hin).
      destruct (numeral_index _ k) as [i|] eqn:E; [|congruence].
      apply numeral_index_some in E. destruct E as [Hi _].
      destruct (nth_error (entries c) i) eqn:N; [discriminate|].
      apply nth_error_None in N. lia.
  - intros i ln Hln. destruct (Hfst i ln Hln) as (key & name & p & t & Hk & Hn & ->).
    rewrite Hget in Hn.
    destruct (numeral_index _ key) as [k|] eqn:E; [|discriminate].
    apply numeral_index_some in E. destruct E as [_ ->].
    exists (str_of_nat (S k)), k, p, t. repeat split; auto.
    now rewrite (nth_error_nth _ _ EmptyString Hn).
Qed.

Lemma printresult_after_read_file_witness :
  snd (printresult numbered_outcome) = Return tt.
Proof.
  apply (proj1 (printresult_after_read_file numbered_file false
                  numbered_contest numbered_outcome eq_refl
                  ltac:(vm_compute; reflexivity))).
  intros e He. simpl in He.
  repeat (destruct He as [<-|He]; [vm_compute; discriminate|]). destruct He.
Defined.

(** ** Files that [read_file] accepts *)

Lemma fold_set_length_nodup (l : list string) :
  forall d : dict string bool,
    NoDup (keys d ++ l) ->
    List.length (fold_left (fun d key => set key true d) l d)
    = (List.length d + List.length l)%nat.
Proof.
  induction l as [|x l IH]; intros d Hnd; simpl; [lia|].
  assert (Hx : ~ In x (keys d)).
  { intros Hin. apply NoDup_remove_2 in Hnd. apply Hnd.
    apply in_or_app. now left. }
  rewrite IH.
  - rewrite (set_fresh x true d Hx), length_app. simpl. lia.
  - rewrite (set_fresh x true d Hx). unfold keys. rewrite map_app. simpl.
    rewrite <- app_assoc. exact Hnd.
Qed.

Lemma check_rank_complete (contest : Contest) (subls : list string) :
  forall dic,
    (forall v, In v subls -> iskey contest v = true) ->
    NoDup (keys dic ++ subls) ->
    exists dic', check_rank contest dic subls = Return dic' /\
                 keys dic' = keys dic ++ subls.
Proof.
  unfold check_rank.
  induction subls as [|val subls IH]; intros dic Hkey Hnd; simpl.
  - exists dic. now rewrite app_nil_r.
  - rewrite (Hkey val (or_introl eq_refl)). simpl.
    assert (Hx : ~ In val (keys dic)).
    { intros Hin. apply NoDup_remove_2 in Hnd. apply Hnd.
      apply in_or_app. now left. }
    assert (Hh : has_key val dic = false).
    { destruct (has_key val dic) eqn:E; auto. now apply has_key_in in E. }
    rewrite Hh.
    assert (Ek : keys (set val true dic) = keys dic ++ [val]).
    { rewrite (set_fresh val true dic Hx). unfold keys. now rewrite map_app. }
    destruct (IH (set val true dic)) as (dic' & Hrun & Hk).
    + intros v Hv. apply Hkey. now right.
    + rewrite Ek, <- app_assoc. exact Hnd.
    + exists dic'. split; auto. rewrite Hk, Ek, <- app_assoc. reflexivity.
Qed.

Lemma check_ranks_complete (contest : Contest) (ls : ballot) :
  forall dic,
    (forall v, In v (List.concat ls) -> iskey contest v = true) ->
    NoDup (keys dic ++ List.concat ls) ->
    exists dic',
      fold_left (fun acc subls => dic <- acc ;; check_rank contest dic subls)
                ls (Return dic) = Return dic' /\
      keys dic' = keys dic ++ List.concat ls.
Proof.
  induction ls as [|subls ls IH]; intros dic Hkey Hnd; simpl.
  - exists dic. now rewrite app_nil_r.
  - simpl in Hnd, Hkey.
    destruct (check_rank_complete contest subls dic) as (dic1 & Hrun & Hk).
    + intros v Hv. apply Hkey. apply in_or_app. now left.
    + rewrite app_assoc in Hnd. now apply NoDup_app_remove_r in Hnd.
    + rewrite Hrun.
      destruct (IH dic1) as (dic' & Hrun' & Hk').
      * intros v Hv. apply Hkey. apply in_or_app. now right.
      * rewrite Hk, <- app_assoc. exact Hnd.
      * exists dic'. split; auto. rewrite Hk', Hk, <- app_assoc. reflexivity.
Qed.

Lemma read_ballot_complete (ac : bool) (contest : Contest) (ln : string) :
  (forall key, iskey contest key = true <-> In key (entries contest)) ->
  valid_ballot (entries contest) (parse_ballot ln) ->
  read_ballot ac contest ln
  = Return (addballot contest
              (if ac then complete_ballot (entries contest) (parse_ballot ln)
               else parse_ballot ln)).
Proof.
  intros Hkey [Hnd Hin]. unfold read_ballot. fold (parse_ballot ln).
  destruct (check_ranks_complete contest (parse_ballot ln) [])
    as (dic & Hrun & Hk).
  - intros v Hv. apply Hkey. now apply Hin.
  - exact Hnd.
  - rewrite Hrun. cbn [bind]. simpl in Hk. destruct ac; [|reflexivity].
    unfold complete_ballot.
    rewrite (filter_ext_in (fun val => negb (has_key val dic))
               (fun e => negb (listed e (List.concat (parse_ballot ln))))).
    + reflexivity.
    + intros e _. f_equal. apply eq_true_iff_eq.
      rewrite has_key_in, listed_in, Hk. reflexivity.
Qed.

Lemma read_ballots_complete (ac : bool) (ents : list string) (lns : list string) :
  forall c0,
    entries c0 = ents ->
    (forall key, iskey c0 key = true <-> In key ents) ->
    (forall ln, In ln lns -> valid_ballot ents (parse_ballot ln)) ->
    fold_left (fun acc ln => contest <- acc ;; read_ballot ac contest ln)
              lns (Return c0)
    = Return (fold_left addballot
                (map (fun ln => if ac then complete_ballot ents (parse_ballot ln)
                                else parse_ballot ln) lns)
                c0).
Proof.
  induction lns as [|ln lns IH]; intros c0 He Hkey Hv; simpl; [reflexivity|].
  rewrite read_ballot_complete.
  - rewrite He. apply IH; auto. intros ln' Hl. apply Hv. now right.
  - now rewrite He.
  - rewrite He. apply Hv. now left.
Qed.

(** X28: the files [read_file] accepts.  When the file has exactly one star
    line, that line names at least one candidate and none twice, and every
    ballot line names only those candidates and none twice, [read_file]
    returns the contest [Contest(ents)] with one [addballot] per ballot
    line, in the order of the file; with [assume_complete] each ballot is
    first completed by a last rank of the candidates it leaves out. *)
Theorem read_file_accepts (lines : list string) (ac : bool) (s : string) :
  starred lines = [s] ->
  split_ws (drop_first s) <> [] ->
  NoDup (split_ws (drop_first s)) ->
  (forall ln, In ln (ballot_lines_of lines) ->
              valid_ballot (split_ws (drop_first s)) (parse_ballot ln)) ->
  read_file lines ac
  = make_contest (split_ws (drop_first s))
      (map (fun ln => if ac
                      then complete_ballot (split_ws (drop_first s)) (parse_ballot ln)
                      else parse_ballot ln)
           (ballot_lines_of lines)).
Proof.
  intros Hstar Hne Hnd Hv. unfold read_file.
  rewrite (read_lines_spec lines None []), Hstar. cbn [truthy_contents bind fst snd].
  assert (Hs : In s (starred lines)) by (rewrite Hstar; now left).
  unfold starred in Hs. apply filter_In in Hs. destruct Hs as [_ Hs].
  assert (Ts : truthy_string s = true) by (destruct s; [discriminate|reflexivity]).
  rewrite Ts. cbn [negb app].
  set (ents := split_ws (drop_first s)) in *.
  assert (Te : truthy ents = true) by (destruct ents; [congruence|reflexivity]).
  rewrite Te. cbn [negb].
  assert (El : (len (fold_left (fun d val => set val true d) ents
                               ([] : list (string * bool))) =? len ents)%Z = true).
  { apply Z.eqb_eq. unfold len. f_equal.
    rewrite (fold_set_length_nodup ents []); [reflexivity | exact Hnd]. }
  rewrite El. cbn [negb]. unfold make_contest, Contest_init.
  destruct (max_list _) as [w|e]; [|reflexivity]. cbn [bind].
  apply read_ballots_complete; auto. apply iskey_fields.
Qed.

Lemma read_file_accepts_witness :
  read_file doc_file false
  = make_contest (split_ws "AAA BBB CCC DDD")
      (map parse_ballot (ballot_lines_of doc_file)).
Proof.
  apply (read_file_accepts doc_file false "* AAA BBB CCC DDD").
  - reflexivity.
  - discriminate.
  - vm_compute. repeat constructor; simpl; intuition discriminate.
  - intros ln Hin. vm_compute in Hin.
    repeat (destruct Hin as [<-|Hin];
            [split; [vm_compute; repeat constructor; simpl; intuition discriminate
                    | vm_compute; tauto]|]).
    destruct Hin.
Defined.

(** ** Ranked pairs, in terms of the facts of an outcome *)

Lemma closure_of_mono (o : Outcome) (S S' : fact -> Prop) (x y : string) :
  (forall t, S t -> S' t) -> closure_of o S x y -> closure_of o S' x y.
Proof.
  intros Hs. unfold closure_of. induction 1 as [x y [H|H]|x y z _ IH1 _ IH2].
  - apply t_step. now left.
  - apply t_step. right. now apply Hs.
  - eapply t_trans; eauto.
Qed.

Lemma acceptable_ext (o : Outcome) (S S' : fact -> Prop) :
  (forall t, S t <-> S' t) -> (acceptable o S <-> acceptable o S').
Proof.
  intros Hs. unfold acceptable. split; intros H x Hx; apply (H x);
    revert Hx; apply closure_of_mono; intros t; apply Hs.
Qed.

Lemma adopted_ext (o o' : Outcome) (S S' : fact -> Prop) :
  (forall t, S t <-> S' t) -> adopted o S o' -> adopted o S' o'.
Proof.
  intros Hs [Hc Hb]. split; auto. intros x y. rewrite Hb.
  split; apply closure_of_mono; intros t; apply Hs.
Qed.

(** In a transitive outcome, nothing follows from no new fact. *)
Lemma closure_of_nothing (o : Outcome) (S : fact -> Prop) (x y : string) :
  transitively_closed o -> (forall t, ~ S t) ->
  (closure_of o S x y <-> beats o x y = true).
Proof.
  intros T Hs. split.
  - induction 1 as [x y [H|H]|x y z _ IH1 _ IH2]; auto.
    + now apply Hs in H.
    + eapply T; eauto.
  - intros H. apply t_step. now left.
Qed.

(** What one more accepted fact adds. *)
Lemma accept_adds (o o1 : Outcome) (a b : string) (S : fact -> Prop) (x y : string) :
  reachable o -> accept o a b = Return o1 ->
  (closure_of o1 S x y <-> closure_of o (fun t => t = (a, b) \/ S t) x y).
Proof.
  intros Hr Hacc.
  assert (Hb : forall u v, beats o1 u v = true <->
                           beats o u v = true \/
                           ((u = a \/ beats o u a = true) /\
                            (v = b \/ beats o b v = true))).
  { intros u v. rewrite (accept_closure_with o o1 a b u v Hr Hacc).
    apply closure_with_cases. }
  assert (Hab : closure_of o (fun t => t = (a, b) \/ S t) a b).
  { apply t_step. right. now left. }
  assert (Hold : forall u v, beats o u v = true ->
                             closure_of o (fun t => t = (a, b) \/ S t) u v).
  { intros u v H. apply t_step. now left. }
  split.
  - induction 1 as [u v [H|H]|u v w _ IH1 _ IH2].
    + apply Hb in H. destruct H as [H|[Hu Hv]]; [now apply Hold|].
      assert (Hua : u = a \/ closure_of o (fun t => t = (a, b) \/ S t) u a)
        by (destruct Hu as [->|Hu]; auto).
      assert (Hbv : v = b \/ closure_of o (fun t => t = (a, b) \/ S t) b v)
        by (destruct Hv as [->|Hv]; auto).
      destruct Hua as [->|Hua]; destruct Hbv as [->|Hbv]; auto.
      * eapply t_trans; eauto.
      * eapply t_trans; eauto.
      * eapply t_trans; [exact Hua|]. eapply t_trans; eauto.
    + apply t_step. right. now right.
    + eapply t_trans; eauto.
  - induction 1 as [u v [H|[H|H]]|u v w _ IH1 _ IH2].
    + apply t_step. left. apply Hb. now left.
    + inversion H; subst. apply t_step. left. apply Hb. right. auto.
    + apply t_step. now right.
    + eapply t_trans; eauto.
Qed.

Lemma accept_reachable (o o1 : Outcome) (a b : string) :
  reachable o -> accept o a b = Return o1 -> reachable o1.
Proof.
  intros Hr Hacc. apply (reach_accept o o1 a b); auto.
  intros ->. unfold accept, accept_fuel in Hacc. simpl in Hacc.
  rewrite compatible_eq in Hacc. discriminate.
Qed.

Lemma accept_each_cons (o : Outcome) (a b : string) (tups : list fact) :
  accept_each o ((a, b) :: tups)
  = match accept o a b with
    | Return o1 => accept_each o1 tups
    | Raise e => Raise e
    end.
Proof.
  unfold accept_each. cbn [fold_left bind fst snd].
  destruct (accept o a b) as [o1|e]; [reflexivity|]. apply fold_raise.
Qed.

(** A run of [accept] calls that returns has accepted its facts in bulk. *)
Lemma accept_each_adopted (tups : list fact) :
  forall o o', reachable o -> accept_each o tups = Return o' ->
    reachable o' /\ adopted o (fun t => In t tups) o'.
Proof.
  induction tups as [|[a b] tups IH]; intros o o' Hr Hrun.
  - inversion Hrun; subst. split; auto. split; auto. intros x y.
    destruct (reachable_inv o' Hr) as (_ & _ & _ & T).
    symmetry. apply closure_of_nothing; auto.
  - rewrite accept_each_cons in Hrun.
    destruct (accept o a b) as [o1|e] eqn:Ha; [|discriminate].
    pose proof (accept_reachable o o1 a b Hr Ha) as Hr1.
    destruct (IH o1 o' Hr1 Hrun) as (Hr' & Hc & Hb).
    split; auto. split.
    + rewrite Hc. apply accept_returns_loop, accept_loop_contest in Ha. exact Ha.
    + intros x y. rewrite Hb, (accept_adds o o1 a b _ x y Hr Ha).
      split; apply closure_of_mono; intros t; simpl; intuition congruence.
Qed.

(** A run of [accept] calls returns exactly when its facts are acceptable. *)
Lemma accept_each_returns (tups : list fact) :
  forall o, reachable o -> acceptable o (fun t => In t tups) ->
    exists o', accept_each o tups = Return o'.
Proof.
  induction tups as [|[a b] tups IH]; intros o Hr Hacc.
  - exists o. reflexivity.
  - rewrite accept_each_cons.
    assert (Hne : a <> b).
    { intros ->. apply (Hacc b). apply t_step. right. now left. }
    assert (Hba : beats o b a = false).
    { destruct (beats o b a) eqn:E; auto. exfalso. apply (Hacc a).
      eapply t_trans; apply t_step; [right; now left | now left]. }
    pose proof (accept_returned o a b Hr) as Hret.
    apply keyb_neq in Hne. rewrite Hne, Hba in Hret. cbn [negb andb] in Hret.
    destruct (accept o a b) as [o1|e] eqn:Ha; [|discriminate].
    apply IH.
    + exact (accept_reachable o o1 a b Hr Ha).
    + intros x Hx. apply (Hacc x).
      apply (accept_adds o o1 a b _ x x Hr Ha) in Hx. revert Hx.
      apply closure_of_mono. intros t; simpl; intuition congruence.
Qed.

(** The bulk accept of [compute], on an outcome reached by [accept] calls. *)
Lemma accept_all_spec (o : Outcome) (l : list fact) (S : fact -> Prop) :
  reachable o -> (forall t, In t l <-> S t) ->
  match accept_all o l with
  | Return o' => acceptable o S /\ adopted o S o' /\ reachable o'
  | Raise _ => ~ acceptable o S
  end.
Proof.
  intros Hr Hs.
  assert (E : accept_all o l = accept_each o l).
  { unfold accept_all, accept_each. now rewrite (clone_reachable o Hr). }
  rewrite E. destruct (accept_each o l) as [o'|e] eqn:Hrun.
  - destruct (accept_each_adopted l o o' Hr Hrun) as [Hr' Had].
    split; [|split; auto].
    + intros x Hx. destruct Had as [_ Hb].
      destruct (reachable_inv o' Hr') as (_ & I & _ & _).
      assert (beats o' x x = true); [|rewrite I in *; discriminate].
      apply Hb. revert Hx. apply closure_of_mono. intros t; apply Hs.
    + now apply (adopted_ext o o' (fun t => In t l)).
  - intros Hacc.
    destruct (accept_each_returns l o Hr) as [o' Ho'].
    + now apply (acceptable_ext o S (fun t => In t l)).
    + congruence.
Qed.

Lemma returned_accept_all (o : Outcome) (l : list fact) (S : fact -> Prop) :
  reachable o -> (forall t, In t l <-> S t) ->
  (returned (accept_all o l) = true <-> acceptable o S).
Proof.
  intros Hr Hs. pose proof (accept_all_spec o l S Hr Hs) as H.
  destruct (accept_all o l); simpl; split; try tauto; try discriminate.
Qed.

Lemma in_without (P t : fact) (l : list fact) (S : fact -> Prop) :
  (forall t, In t l <-> S t) ->
  (In t (filter (fun tup => negb (keyb tup P)) l) <-> all_but P S t).
Proof.
  intros Hs. rewrite filter_In, negb_true_iff. unfold all_but. rewrite Hs.
  destruct (keyb_spec t P) as [->|Hne]; split; intros [H1 H2]; split; auto;
    congruence.
Qed.

Lemma in_exclusion_set (o : Outcome) (l : list fact) (S : fact -> Prop) (P : fact) :
  reachable o -> (forall t, In t l <-> S t) ->
  (In P (exclusion_set o l) <-> excluded o S P).
Proof.
  intros Hr Hs. unfold exclusion_set, excluded. rewrite filter_In, Hs.
  rewrite (returned_accept_all o _ (all_but P S) Hr); [reflexivity|].
  intros t. now apply in_without.
Qed.

(** The leave-one-out pass of [compute] does what the heuristic says. *)
Lemma leave_one_out_meets (o : Outcome) (l : list fact) (S : fact -> Prop) :
  reachable o -> (forall t, In t l <-> S t) ->
  leave_one_out_spec o S (leave_one_out o l).
Proof.
  intros Hr Hs.
  pose proof (fun P => in_exclusion_set o l S P Hr Hs) as Hex.
  assert (Hkept : forall t,
             In t (filter (fun P => negb (member P (exclusion_set o l))) l)
             <-> not_excluded o S t).
  { intros t. rewrite filter_In, negb_true_iff, Hs. unfold not_excluded.
    rewrite <- Hex, <- member_in.
    destruct (member t (exclusion_set o l)); split; intros [H1 H2]; split; auto;
      congruence. }
  unfold leave_one_out, leave_one_out_spec.
  destruct (negb (truthy (exclusion_set o l))) eqn:E1; cbn [orb].
  { split; [reflexivity|]. intros Hn. exfalso. apply Hn. left.
    intros P _ HP. apply Hex in HP. apply negb_true_iff in E1.
    destruct (exclusion_set o l); [destruct HP | discriminate]. }
  destruct (forallb (fun P => member P (exclusion_set o l)) l) eqn:E2.
  { split; [reflexivity|]. intros Hn. exfalso. apply Hn. right. left.
    intros P HP. apply Hex, member_in.
    apply (proj1 (forallb_forall _ _) E2). now apply Hs. }
  assert (Hsome : exists P, S P /\ excluded o S P).
  { apply negb_false_iff in E1. apply truthy_in in E1. destruct E1 as [P HP].
    apply Hex in HP. exists P. split; auto. apply HP. }
  assert (Hnotall : ~ forall P, S P -> excluded o S P).
  { intros Hall.
    assert (forallb (fun P => member P (exclusion_set o l)) l = true);
      [|congruence].
    apply forallb_forall. intros P HP. apply member_in, Hex, Hall. now apply Hs. }
  pose proof (accept_all_spec o _ (not_excluded o S) Hr Hkept) as Hspec.
  destruct (accept_all o (filter (fun P => negb (member P (exclusion_set o l))) l))
    as [newout|e].
  - destruct Hspec as (Hacc & Had & _). split; [|auto].
    intros [H|[H|H]]; exfalso.
    + destruct Hsome as (P & HP & HeP). exact (H P HP HeP).
    + exact (Hnotall H).
    + exact (H Hacc).
  - split; [reflexivity|]. intros Hn. exfalso. apply Hn. right. right. exact Hspec.
Qed.

Lemma in_remaining (o : Outcome) (facts : list fact) (F : fact -> Prop) (t : fact) :
  mirror o -> (forall t, In t facts -> fst t <> snd t) ->
  (forall t, In t facts <-> F t) ->
  (In t (filter (is_compatible o) facts) <-> remaining_of o F t).
Proof.
  intros M Hne Hf. rewrite filter_In. unfold remaining_of. rewrite <- Hf.
  split; intros [Hin H]; split; auto.
  - unfold is_compatible in H.
    rewrite (compatible_neq_mirror o _ _ (Hne t Hin) M) in H.
    now apply negb_true_iff in H.
  - unfold is_compatible.
    rewrite (compatible_neq_mirror o _ _ (Hne t Hin) M). now rewrite H.
Qed.

(** One level of [compute] does what the specification of a level says. *)
Lemma level_outcome_meets (o : Outcome) (facts : list fact) (F : fact -> Prop) :
  reachable o -> (forall t, In t facts -> fst t <> snd t) ->
  (forall t, In t facts <-> F t) ->
  level_spec o F (level_outcome o facts).
Proof.
  intros Hr Hne Hf. destruct (reachable_inv o Hr) as (M & _).
  pose proof (fun t => in_remaining o facts F t M Hne Hf) as Hrem.
  unfold level_outcome, level_spec.
  pose proof (accept_all_spec o _ (remaining_of o F) Hr Hrem) as Hspec.
  destruct (accept_all o (filter (is_compatible o) facts)) as [newout|e].
  - destruct Hspec as (Hacc & Had & _). split; [auto|]. intros H. now elim H.
  - split; [intros H; now elim Hspec|]. intros _.
    now apply leave_one_out_meets.
Qed.

Lemma in_facts_at (m : dict fact Z) (v : Z) (t : fact) :
  NoDup (keys m) -> (In t (facts_at m v) <-> facts_with m v t).
Proof.
  intros Hnd. rewrite facts_at_in. unfold facts_with. split.
  - now apply get_in_nodup.
  - apply get_some_in.
Qed.

Lemma levels_ranked (m : dict fact Z) (vs : list Z) :
  NoDup (keys m) -> no_positive_self m -> (forall v, In v vs -> (0 < v)%Z) ->
  forall o, reachable o ->
    ranked_from m vs o
      (fold_left (fun outcome v => level_outcome outcome (facts_at m v)) vs o).
Proof.
  intros Hnd Hself. induction vs as [|v vs IH]; intros Hpos o Hr; cbn [fold_left].
  - constructor.
  - apply (ranked_level m v vs o (level_outcome o (facts_at m v))).
    + apply level_outcome_meets; auto.
      * intros t Ht. apply (positive_fact_not_self m v t Hnd Hself); auto.
        apply Hpos. now left.
      * intros t. now apply in_facts_at.
    + apply IH.
      * intros w Hw. apply Hpos. now right.
      * exact (proj1 (level_outcome_keeps o (facts_at m v) EmptyString EmptyString Hr)).
Qed.

(** C7: on a margins table that is a dict (no key twice) without a positive
    margin for a pair of a candidate with itself, [compute] returns the
    outcome of ranked pairs.  Its levels are the strictly positive margins of
    the table and no other value, in strictly descending order.  At each
    level, of the pairs with that margin, those whose loser already beats
    the winner in the outcome so far are discarded (the pairs for which
    [compatible] is false), and the others are accepted in bulk: when that
    raises no contradiction the new outcome has the facts of the old one,
    the accepted pairs and what follows from them by transitivity, and
    nothing else; when it does, the leave-one-out heuristic decides. *)
Theorem compute_is_ranked_pairs (c : Contest) :
  NoDup (keys (margins c)) -> no_positive_self (margins c) ->
  exists levels o,
    compute c = Return o /\
    StronglySorted Z.gt levels /\
    (forall v, In v levels <->
               (0 < v)%Z /\ exists tup, get tup (margins c) = Some v) /\
    ranked_from (margins c) levels (Outcome_init c) o.
Proof.
  intros Hnd Hself.
  exists (magnitudes (margins c)), (ranked_pairs c).
  destruct (magnitudes_spec (margins c) Hnd) as [Hsorted Hin].
  split; [now apply compute_ranked|]. split; [exact Hsorted|]. split; [exact Hin|].
  unfold ranked_pairs. apply levels_ranked; auto.
  - intros v Hv. now apply Hin in Hv.
  - apply reach_blank.
Qed.

Lemma compute_is_ranked_pairs_witness :
  exists levels o,
    compute doc_margins = Return o /\
    StronglySorted Z.gt levels /\
    (forall v, In v levels <->
               (0 < v)%Z /\ exists tup, get tup (margins doc_margins) = Some v) /\
    ranked_from (margins doc_margins) levels (Outcome_init doc_margins) o.
Proof.
  apply (compute_is_ranked_pairs doc_margins).
  - apply computemargins_nodup. reflexivity.
  - apply computemargins_no_positive_self. reflexivity.
Defined.

(** C6: when the facts of a level that remain after the incompatible ones
    are discarded cannot be accepted in bulk, the level ends as the
    leave-one-out heuristic says.  A remaining fact is excluded when all the
    other remaining facts can be accepted into the outcome as it was before
    the level; when no fact is excluded, or every fact is, the outcome stays
    as it was before the level; otherwise the facts that are not excluded
    are accepted in bulk into the outcome as it was before the level, which
    gives the new outcome when that raises no contradiction and leaves the
    outcome as it was when it does. *)
Theorem leave_one_out_refines (dic : dict Z (list fact)) (outcome : Outcome)
  (level : Z) (ls : list fact) :
  reachable outcome ->
  get level dic = Some ls ->
  (forall t, In t ls -> fst t <> snd t) ->
  ~ acceptable outcome (remaining_of outcome (fun t => In t ls)) ->
  exists o',
    level_step dic outcome level = Return o' /\
    leave_one_out_spec outcome (remaining_of outcome (fun t => In t ls)) o'.
Proof.
  intros Hr Hget Hself Hbulk.
  destruct (reachable_inv outcome Hr) as (M & _).
  pose proof (fun t => in_remaining outcome ls (fun t => In t ls) t M Hself
                         (fun t => iff_refl _)) as Hrem.
  pose proof (accept_all_spec outcome _ _ Hr Hrem) as Hspec.
  destruct (accept_all outcome (filter (is_compatible outcome) ls))
    as [newout|e] eqn:E; [now elim Hbulk|].
  assert (Hne : ls <> []) by (intros ->; discriminate).
  exists (leave_one_out outcome (filter (is_compatible outcome) ls)). split.
  - apply (level_step_leave_one_out dic outcome level ls _ e); auto.
    now apply compatible_facts_filter.
  - now apply leave_one_out_meets.
Qed.

Lemma leave_one_out_refines_witness :
  (exists o',
     level_step retry_level five_outcome 1 = Return o' /\
     leave_one_out_spec five_outcome
       (remaining_of five_outcome
          (fun t => In t [("2", "3"); ("5", "1"); ("2", "4")])) o') /\
  match level_step retry_level five_outcome 1 with
  | Return o' => beats o' "2" "4" && negb (beats o' "5" "1")
  | Raise _ => false
  end = true.
Proof.
  split; [|vm_compute; reflexivity].
  apply (leave_one_out_refines retry_level five_outcome 1
           [("2", "3"); ("5", "1"); ("2", "4")]).
  - exact five_outcome_reachable.
  - reflexivity.
  - intros t Ht. simpl in Ht.
    repeat (destruct Ht as [<-|Ht]; [simpl; discriminate|]). destruct Ht.
  - intros Hacc. apply (Hacc "1").
    apply (t_trans _ _ _ "2"); [apply t_step; left; reflexivity|].
    apply (t_trans _ _ _ "3");
      [apply t_step; right; split; [simpl; tauto | reflexivity]|].
    apply (t_trans _ _ _ "5"); [apply t_step; left; reflexivity|].
    apply t_step. right. split; [simpl; tauto | reflexivity].
Defined.
